(** * ProPresenter protobuf tools: rich-text codec and document traversal

    A shallow embedding of [src/lib/index.ts] and [src/lib/create.ts]:
    the RTF stripper and writer, the cue/slide text accessors, the group
    resolution, and the presentation builder, with the properties of the
    design document stated and settled against them. *)

From Stdlib Require Import NArith ZArith Zify List Lia Bool String Ascii DecimalString.
From Stdlib Require Import Sorted Permutation.
From stdpp Require Import base option list gmap.
Import ListNotations.

Local Open Scope N_scope.
Local Set Warnings "-register-all".

(** ** JavaScript strings and byte buffers *)

(** A JavaScript string is a sequence of UTF-16 code units. *)
Definition codeunit := N.
Definition jsstring := list N.

(** A [Buffer] / [Uint8Array] is a sequence of bytes (values below 256). *)
Definition Buffer := list N.

(** String literal of the source, for literals made of ASCII characters. *)
Definition js (s : string) : jsstring :=
  map N_of_ascii (list_ascii_of_string s).
Arguments js : simpl never.

Module Ch.
Definition backslash : N := 92.
Definition lbrace : N := 123.
Definition rbrace : N := 125.
Definition newline : N := 10.
Definition space : N := 32.
Definition quote : N := 39.
Definition minus : N := 45.
Definition replacement : N := 65533.
End Ch.

(** *** Character classes of ECMAScript regular expressions (no [u] flag) *)

Definition in_range (lo hi c : N) : bool := (lo <=? c) && (c <=? hi).

(** [\s]: WhiteSpace and LineTerminator code units. *)
Definition is_space (c : N) : bool :=
  in_range 9 13 c || (c =? 32) || (c =? 160) || (c =? 5760)
  || in_range 8192 8202 c || (c =? 8232) || (c =? 8233) || (c =? 8239)
  || (c =? 8287) || (c =? 12288) || (c =? 65279).

(** [\d] *)
Definition is_digit (c : N) : bool := in_range 48 57 c.

(** [[a-z]] under the [i] flag: canonicalisation never maps a code unit
    above 127 to one below 128, so the class is exactly the ASCII letters. *)
Definition is_letter (c : N) : bool := in_range 65 90 c || in_range 97 122 c.

(** [\w], used by the [\b] assertion. *)
Definition is_word (c : N) : bool := is_letter c || is_digit c || (c =? 95).

(** [[0-9a-f]] under the [i] flag. *)
Definition is_hex (c : N) : bool :=
  is_digit c || in_range 65 70 c || in_range 97 102 c.

Definition is_char (x : N) (c : N) : bool := c =? x.
Definition not_char (x : N) (c : N) : bool := negb (c =? x).
Definition is_brace (c : N) : bool := (c =? Ch.lbrace) || (c =? Ch.rbrace).

(** ** The regular-expression fragment used by the source

    Every quantifier of the source applies to a single character class, so
    a pattern is a sequence of atoms.  Matching is the backtracking,
    greedy matching of ECMAScript. *)

Inductive atom : Type :=
| One (p : N -> bool)     (* a literal or a class *)
| Opt (p : N -> bool)     (* [x?] *)
| Star (p : N -> bool)    (* [x*] *)
| Plus (p : N -> bool)    (* [x+] *)
| WordB.                  (* [\b] *)

Definition regex := list atom.

(** A run of literal characters. *)
Definition lit (s : string) : regex := map (fun c => One (is_char c)) (js s).

Definition is_word_at (o : option N) : bool :=
  match o with Some c => is_word c | None => false end.

Section Star.
Variable p : N -> bool.
(** The continuation: the rest of the pattern, given the code unit before
    the position and the remaining input; it answers with the number of
    code units it consumed. *)
Variable k : option N -> jsstring -> option nat.

(** Greedy [p*] followed by [k]: take as many as possible, give back one
    at a time while [k] fails. *)
Fixpoint star (prev : option N) (s : jsstring) : option nat :=
  match s with
  | c :: s' =>
      if p c then
        match star (Some c) s' with
        | Some n => Some (S n)
        | None => k prev s
        end
      else k prev s
  | [] => k prev s
  end.
End Star.

(** [match_here r prev s]: length of the match of [r] at the start of [s],
    where [prev] is the code unit just before it (none at the start of the
    input). *)
Fixpoint match_here (r : regex) : option N -> jsstring -> option nat :=
  match r with
  | [] => fun _ _ => Some O
  | a :: r' =>
      let k := match_here r' in
      match a with
      | One p => fun _ s =>
          match s with
          | c :: s' => if p c then S <$> k (Some c) s' else None
          | [] => None
          end
      | Opt p => fun prev s =>
          match s with
          | c :: s' =>
              if p c then
                match k (Some c) s' with
                | Some n => Some (S n)
                | None => k prev s
                end
              else k prev s
          | [] => k prev s
          end
      | Star p => star p k
      | Plus p => fun _ s =>
          match s with
          | c :: s' => if p c then S <$> star p k (Some c) s' else None
          | [] => None
          end
      | WordB => fun prev s =>
          if xorb (is_word_at prev) (is_word_at (head s)) then k prev s
          else None
      end
  end.

(** [String.prototype.replace] with a global pattern and a replacement
    computed from the matched text.  [skip] counts the code units of the
    current match still to be passed over; the search resumes right after
    a match.  No pattern of the source matches the empty string. *)
Fixpoint replace_from (r : regex) (f : jsstring -> jsstring)
    (skip : nat) (prev : option N) (s : jsstring) : jsstring :=
  match s with
  | [] => []
  | c :: s' =>
      match skip with
      | S n => replace_from r f n (Some c) s'
      | O =>
          match match_here r prev s with
          | Some (S n) => f (take (S n) s) ++ replace_from r f n (Some c) s'
          | _ => c :: replace_from r f O (Some c) s'
          end
      end
  end.

Definition replace_all (r : regex) (by_ : jsstring) (s : jsstring) : jsstring :=
  replace_from r (fun _ => by_) O None s.

Definition replace_all_with (r : regex) (f : jsstring -> jsstring)
    (s : jsstring) : jsstring :=
  replace_from r f O None s.

(** [replace] with a pattern anchored by [^] and no [g] flag: at most one
    match, at index 0. *)
Definition replace_prefix (r : regex) (by_ : jsstring) (s : jsstring) : jsstring :=
  match match_here r None s with
  | Some n => by_ ++ drop n s
  | None => s
  end.

(** [String.prototype.trim] *)
Fixpoint trim_start (s : jsstring) : jsstring :=
  match s with
  | c :: s' => if is_space c then trim_start s' else s
  | [] => []
  end.

Definition trim_end (s : jsstring) : jsstring := rev (trim_start (rev s)).

Definition trim (s : jsstring) : jsstring := trim_end (trim_start s).

(** ** UTF-8 conversions of Node's [Buffer]

    [buf.toString('utf-8')] decodes with replacement of ill-formed
    sequences by U+FFFD; [Buffer.from(str)] encodes a string, a lone
    surrogate becoming U+FFFD. *)

Inductive utf8_state : Type :=
| Idle
| Pending (cp : N) (remaining : nat) (lo hi : N).

(** The UTF-16 code units of a code point. *)
Definition emit_cp (cp : N) : jsstring :=
  if cp <? 65536 then [cp]
  else [55296 + (cp - 65536) / 1024; 56320 + (cp - 65536) mod 1024].

(** A byte met when no sequence is open.  The payload bits of a byte,
    [b & 0x1F] and the like, are written [b mod 32]. *)
Definition utf8_lead (b : N) : jsstring * utf8_state :=
  if b <=? 127 then ([b], Idle)
  else if in_range 194 223 b then ([], Pending (b mod 32) 1 128 191)
  else if in_range 224 239 b then
    ([], Pending (b mod 16) 2
           (if b =? 224 then 160 else 128) (if b =? 237 then 159 else 191))
  else if in_range 240 244 b then
    ([], Pending (b mod 8) 3
           (if b =? 240 then 144 else 128) (if b =? 244 then 143 else 191))
  else ([Ch.replacement], Idle).

Fixpoint utf8_decode_from (st : utf8_state) (bs : Buffer) : jsstring :=
  match bs with
  | [] => match st with Idle => [] | Pending _ _ _ _ => [Ch.replacement] end
  | b :: bs' =>
      match st with
      | Idle =>
          let '(out, st') := utf8_lead b in out ++ utf8_decode_from st' bs'
      | Pending cp remaining lo hi =>
          if in_range lo hi b then
            (* [(cp << 6) | (b & 0x3F)] *)
            let cp' := cp * 64 + b mod 64 in
            match remaining with
            | S (S n) => utf8_decode_from (Pending cp' (S n) 128 191) bs'
            | _ => emit_cp cp' ++ utf8_decode_from Idle bs'
            end
          else
            (* the open sequence is ill-formed; the byte is looked at again *)
            let '(out, st') := utf8_lead b in
            Ch.replacement :: out ++ utf8_decode_from st' bs'
      end
  end.

(** [buf.toString('utf-8')] *)
Definition buffer_toString (b : Buffer) : jsstring := utf8_decode_from Idle b.

Definition is_high_surrogate (c : N) : bool := in_range 55296 56319 c.
Definition is_low_surrogate (c : N) : bool := in_range 56320 57343 c.

Definition utf8_bytes (cp : N) : Buffer :=
  if cp <? 128 then [cp]
  else if cp <? 2048 then [192 + cp / 64; 128 + cp mod 64]
  else if cp <? 65536 then
    [224 + cp / 4096; 128 + (cp / 64) mod 64; 128 + cp mod 64]
  else
    [240 + cp / 262144; 128 + (cp / 4096) mod 64;
     128 + (cp / 64) mod 64; 128 + cp mod 64].

(** [Buffer.from(str)] *)
Fixpoint buffer_from (s : jsstring) : Buffer :=
  match s with
  | [] => []
  | c :: s' =>
      if is_high_surrogate c then
        match s' with
        | d :: s'' =>
            if is_low_surrogate d then
              utf8_bytes (65536 + (c - 55296) * 1024 + (d - 56320))
              ++ buffer_from s''
            else utf8_bytes Ch.replacement ++ buffer_from s'
        | [] => utf8_bytes Ch.replacement
        end
      else if is_low_surrogate c then utf8_bytes Ch.replacement ++ buffer_from s'
      else utf8_bytes c ++ buffer_from s'
  end.

(** ** RTF utilities ([rtfToText], [textToRtf]) *)

(** The argument of [rtfToText]: [Uint8Array | Buffer | string]. *)
Inductive RtfData : Type :=
| RtfString (s : jsstring)
| RtfBytes (b : Buffer).   (* a [Buffer], or a [Uint8Array] wrapped in one *)

Definition rtf_source (d : RtfData) : jsstring :=
  match d with
  | RtfString s => s
  | RtfBytes b => buffer_toString b
  end.

Module Re.
(** [/^\{\\rtf1[^}]*\}?/] (the anchor is in [replace_prefix]) *)
Definition header : regex :=
  lit "{\rtf1" ++ [Star (not_char Ch.rbrace); Opt (is_char Ch.rbrace)].
(** [/\\par\b/g] *)
Definition par : regex := lit "\par" ++ [WordB].
(** [/\\line\b/g] *)
Definition line : regex := lit "\line" ++ [WordB].
(** [/\{\\fonttbl[^}]*\}/g] and its two siblings *)
Definition group (name : string) : regex :=
  lit "{\" ++ lit name ++ [Star (not_char Ch.rbrace); One (is_char Ch.rbrace)].
(** [/\\[a-z]+[-]?\d*\s?/gi] *)
Definition control : regex :=
  [One (is_char Ch.backslash); Plus is_letter; Opt (is_char Ch.minus);
   Star is_digit; Opt is_space].
(** [/[{}]/g] *)
Definition braces : regex := [One is_brace].
(** [/\s+/g] *)
Definition spaces : regex := [Plus is_space].
(** [/\\'([0-9a-f]{2})/gi] *)
Definition hex : regex :=
  [One (is_char Ch.backslash); One (is_char Ch.quote); One is_hex; One is_hex].
(** [/\\/g], [/\{/g], [/\}/g], [/\n/g] of [textToRtf] *)
Definition char (c : N) : regex := [One (is_char c)].
End Re.

(** Value of a hexadecimal digit, and [parseInt(hex, 16)] on a run of
    hexadecimal digits. *)
Definition hex_digit (c : N) : N :=
  if is_digit c then c - 48
  else if in_range 65 70 c then c - 55
  else c - 87.

Definition parseInt16 (s : jsstring) : N :=
  fold_left (fun acc c => 16 * acc + hex_digit c) s 0.

(** [String.fromCharCode] *)
Definition fromCharCode (n : N) : jsstring := [n mod 65536].

(** The callback [(_, hex) => String.fromCharCode(parseInt(hex, 16))]; the
    group is what follows the two characters [\'] of the match. *)
Definition hex_char (m : jsstring) : jsstring :=
  fromCharCode (parseInt16 (drop 2 m)).

(** The chain of replacements before the hexadecimal decoding. *)
Definition strip_rtf (rtf : jsstring) : jsstring :=
  trim
    (replace_all Re.spaces (js " ")
    (replace_all Re.braces []
    (replace_all Re.control []
    (replace_all (Re.group "stylesheet") []
    (replace_all (Re.group "colortbl") []
    (replace_all (Re.group "fonttbl") []
    (replace_all Re.line [Ch.newline]
    (replace_all Re.par [Ch.newline]
    (replace_prefix Re.header [] rtf))))))))).

Definition rtfToText (rtfData : RtfData) : jsstring :=
  let rtf := rtf_source rtfData in
  let text := strip_rtf rtf in
  replace_all_with Re.hex hex_char text.

(** Decimal rendering of a whole number in a template literal.  This is
    what JavaScript prints for the whole numbers up to 2^53; beyond, a
    JavaScript number no longer holds every whole number, its digits are
    the shortest that identify it, and from 1e21 it is printed with an
    exponent.  The function is used below that bound: for the ranks of
    slides, and for font sizes under [whole_size]. *)
Definition number_toString (n : N) : jsstring :=
  js (NilZero.string_of_uint (N.to_uint n)).

Definition escape_rtf (text : jsstring) : jsstring :=
  replace_all (Re.char Ch.newline) (js "\par ")
    (replace_all (Re.char Ch.rbrace) (js "\}")
    (replace_all (Re.char Ch.lbrace) (js "\{")
    (replace_all (Re.char Ch.backslash) (js "\\") text))).

(** [textToRtf(text, fontName, fontSize)].  Font sizes are whole numbers
    here, and [fontSize * 2] in the template is the decimal rendering of
    the doubled size as long as it is at most 2^53.  For other numbers
    (fractions, negative numbers, larger ones) JavaScript prints other text
    ([72.5], [-96], [2e+21]); they are outside the model, and the
    properties that depend on the size are stated under [whole_size]. *)
Definition textToRtf_with (text fontName : jsstring) (fontSize : N) : jsstring :=
  let escaped := escape_rtf text in
  js "{\rtf1\ansi\deff0{\fonttbl{\f0 " ++ fontName ++ js ";}}\f0\fs"
    ++ number_toString (fontSize * 2) ++ js " " ++ escaped ++ js "}".

(** The defaults [fontName = 'Arial'], [fontSize = 48]. *)
Definition textToRtf (text : jsstring) : jsstring :=
  textToRtf_with text (js "Arial") 48.

(** ** The document model (interfaces of [index.ts]) *)

(** A JavaScript number, kept as the decimal literal it was written as
    ([mantissa * 10 ^ exp10]); the library only carries such values. *)
Inductive JsNumber : Type := Num (mantissa : Z) (exp10 : Z).

Definition int (z : Z) : JsNumber := Num z 0.

(** A value reached through a field typed [any]. *)
Inductive JsValue : Type :=
| JUndefined
| JNull
| JBool (b : bool)
| JNumber (n : JsNumber)
| JString (s : jsstring)
| JBytes (b : Buffer)
| JArray (items : list JsValue)
| JObject (fields : list (jsstring * JsValue)).

(** The keys an index signature [[key: string]: any] admits. *)
Definition Extra := list (jsstring * JsValue).

Record UUID : Type := mkUUID { uuid_string : jsstring }.

Record Color : Type := mkColor {
  red : option JsNumber;
  green : option JsNumber;
  blue : option JsNumber;
  alpha : option JsNumber
}.

Record Extent : Type := mkExtent { width : JsNumber; height : JsNumber }.
Record Point : Type := mkPoint { pt_x : JsNumber; pt_y : JsNumber }.
Record Rect : Type := mkRect { origin : Point; rect_size : Extent }.

Record TextElement : Type := mkTextElement {
  attributes : JsValue;
  text_shadow : JsValue;
  rtfData : option Buffer;
  verticalAlignment : option JsNumber;
  scaleBehavior : option JsNumber;
  margins : JsValue;
  text_extra : Extra
}.

Record GraphicsElement : Type := mkGraphicsElement {
  ge_uuid : option UUID;
  ge_name : option jsstring;
  bounds : option Rect;
  rotation : option JsNumber;
  opacity : option JsNumber;
  text : option TextElement;
  fill : JsValue;
  stroke : JsValue;
  ge_extra : Extra
}.

Record SlideElement : Type := mkSlideElement {
  element : option GraphicsElement;
  buildIn : JsValue;
  buildOut : JsValue;
  se_extra : Extra
}.

(** [Slide].  The key [baseSlide] is one the index signature admits: it is
    the key under which [createCue] nests the slide it builds. *)
Inductive Slide : Type := mkSlide {
  elements : option (list SlideElement);
  slide_size : option Extent;
  slide_uuid : option UUID;
  backgroundColor : option Color;
  baseSlide : option Slide;
  slide_extra : Extra
}.

Record SlideAction : Type := mkSlideAction {
  presentation : option Slide;
  prop : JsValue
}.

Record Action : Type := mkAction {
  action_uuid : option UUID;
  action_name : option jsstring;
  label : JsValue;
  action_type : option JsNumber;
  slide : option SlideAction;
  action_extra : Extra
}.

Record Cue : Type := mkCue {
  cue_uuid : option UUID;
  cue_name : option jsstring;
  hotKey : JsValue;
  actions : option (list Action);
  isEnabled : option bool;
  cue_extra : Extra
}.

Record Group : Type := mkGroup {
  group_uuid : option UUID;
  group_name : option jsstring;
  color : option Color;
  group_extra : Extra
}.

Record CueGroup : Type := mkCueGroup {
  group : option Group;
  cueIdentifiers : option (list UUID)
}.

Record CCLI : Type := mkCCLI {
  author : option jsstring;
  artistCredits : option jsstring;
  songTitle : option jsstring;
  publisher : option jsstring;
  copyrightYear : option JsNumber;
  songNumber : option JsNumber;
  display : option bool;
  album : option jsstring;
  artwork : option Buffer
}.

Record Arrangement : Type := mkArrangement {
  arr_uuid : UUID;
  arr_name : jsstring;
  groupIdentifiers : list UUID
}.

Record Presentation : Type := mkPresentation {
  applicationInfo : JsValue;
  pres_uuid : option UUID;
  pres_name : option jsstring;
  category : option jsstring;
  notes : option jsstring;
  selectedArrangement : option UUID;
  arrangements : option (list Arrangement);
  cueGroups : option (list CueGroup);
  cues : option (list Cue);
  ccli : option CCLI;
  pres_extra : Extra
}.

(** [a || []] on an optional array. *)
Definition or_empty {A} (o : option (list A)) : list A := default [] o.

(** [s || d] on an optional string: the empty string is falsy. *)
Definition or_string (o : option jsstring) (d : jsstring) : jsstring :=
  match o with
  | Some (c :: s) => c :: s
  | _ => d
  end.

(** ** Slide text utilities *)

(** [element.element?.text?.rtfData]: a byte array is an object, so the
    test holds as soon as the three fields are present. *)
Definition element_text (e : SlideElement) : option TextElement :=
  match element e with
  | Some ge =>
      match text ge with
      | Some te =>
          match rtfData te with
          | Some _ => Some te
          | None => None
          end
      | None => None
      end
  | None => None
  end.

Definition getSlideTextElements (s : Slide) : list TextElement :=
  omap element_text (or_empty (elements s)).

(** [Array.prototype.join] *)
Fixpoint join (sep : jsstring) (l : list jsstring) : jsstring :=
  match l with
  | [] => []
  | [a] => a
  | a :: l' => a ++ sep ++ join sep l'
  end.

Definition text_of_element (te : TextElement) : jsstring :=
  rtfToText (RtfBytes (default [] (rtfData te))).

Definition getSlideText (s : Slide) : jsstring :=
  let texts :=
    filter (fun t : jsstring => (0 < length t)%nat)
           (map text_of_element (getSlideTextElements s)) in
  join [Ch.newline] texts.

Definition action_presentation (a : Action) : option Slide :=
  match slide a with
  | Some sa => presentation sa
  | None => None
  end.

Fixpoint first_slide (l : list Action) : option Slide :=
  match l with
  | [] => None
  | a :: l' =>
      match action_presentation a with
      | Some s => Some s
      | None => first_slide l'
      end
  end.

Definition getCueSlide (cue : Cue) : option Slide :=
  first_slide (or_empty (actions cue)).

Definition getCueText (cue : Cue) : jsstring :=
  match getCueSlide cue with
  | None => []
  | Some s => getSlideText s
  end.

(** *** In-place updates, as functions to the updated object

    The objects of a decoded or of a created document form a tree: no
    object is held at two places.  An assignment to a field is then the
    update of one position of the tree, and a function that mutates its
    argument is modelled by the function to the argument after the call. *)

Definition with_rtfData (te : TextElement) (b : Buffer) : TextElement :=
  mkTextElement (attributes te) (text_shadow te) (Some b)
    (verticalAlignment te) (scaleBehavior te) (margins te) (text_extra te).

Definition with_text (ge : GraphicsElement) (te : TextElement) : GraphicsElement :=
  mkGraphicsElement (ge_uuid ge) (ge_name ge) (bounds ge) (rotation ge)
    (opacity ge) (Some te) (fill ge) (stroke ge) (ge_extra ge).

Definition with_element (e : SlideElement) (ge : GraphicsElement) : SlideElement :=
  mkSlideElement (Some ge) (buildIn e) (buildOut e) (se_extra e).

Definition with_elements (s : Slide) (l : list SlideElement) : Slide :=
  mkSlide (Some l) (slide_size s) (slide_uuid s) (backgroundColor s) (baseSlide s)
    (slide_extra s).

Definition with_presentation (sa : SlideAction) (s : Slide) : SlideAction :=
  mkSlideAction (Some s) (prop sa).

Definition with_slide (a : Action) (sa : SlideAction) : Action :=
  mkAction (action_uuid a) (action_name a) (label a) (action_type a)
    (Some sa) (action_extra a).

Definition with_actions (c : Cue) (l : list Action) : Cue :=
  mkCue (cue_uuid c) (cue_name c) (hotKey c) (Some l) (isEnabled c)
    (cue_extra c).

(** [element.element.text.rtfData = b] on an element that passed the test. *)
Definition set_element_rtf (e : SlideElement) (b : Buffer) : SlideElement :=
  match element e with
  | Some ge =>
      match text ge with
      | Some te => with_element e (with_text ge (with_rtfData te b))
      | None => e
      end
  | None => e
  end.

(** The loop of [setSlideText]: the elements after the loop and whether it
    returned [true]. *)
Fixpoint set_first_text (l : list SlideElement) (b : Buffer)
    : bool * list SlideElement :=
  match l with
  | [] => (false, [])
  | e :: l' =>
      match element_text e with
      | Some _ => (true, set_element_rtf e b :: l')
      | None => let '(ok, l'') := set_first_text l' b in (ok, e :: l'')
      end
  end.

(** [setSlideText]: the flag and the slide after the call. *)
Definition setSlideText (s : Slide) (t : jsstring) : bool * Slide :=
  match elements s with
  | None => (false, s)
  | Some l =>
      let '(ok, l') := set_first_text l (buffer_from (textToRtf t)) in
      (ok, if ok then with_elements s l' else s)
  end.

(** The slide [getCueSlide] returns is the object held by the cue; the
    update of [setSlideText] is seen through the cue. *)
Fixpoint set_first_slide (l : list Action) (t : jsstring)
    : option (bool * list Action) :=
  match l with
  | [] => None
  | a :: l' =>
      match slide a with
      | Some sa =>
          match presentation sa with
          | Some s =>
              let '(ok, s') := setSlideText s t in
              Some (ok, with_slide a (with_presentation sa s') :: l')
          | None => (fun '(ok, l'') => (ok, a :: l'')) <$> set_first_slide l' t
          end
      | None => (fun '(ok, l'') => (ok, a :: l'')) <$> set_first_slide l' t
      end
  end.

(** [setCueText]: the flag and the cue after the call. *)
Definition setCueText (cue : Cue) (t : jsstring) : bool * Cue :=
  match actions cue with
  | None => (false, cue)
  | Some l =>
      match set_first_slide l t with
      | None => (false, cue)
      | Some (ok, l') => (ok, if ok then with_actions cue l' else cue)
      end
  end.

(** ** Presentation utilities *)

Definition getCues (p : Presentation) : list Cue := or_empty (cues p).

(** A JavaScript [Map] with string keys: the entries in insertion order.
    [set] on a key already present replaces the value where the entry is. *)
Definition JsMap (V : Type) : Type := list (jsstring * V).

Fixpoint map_set {V} (k : jsstring) (v : V) (m : JsMap V) : JsMap V :=
  match m with
  | [] => [(k, v)]
  | (k', v') :: m' =>
      if decide (k' = k) then (k, v) :: m' else (k', v') :: map_set k v m'
  end.

Fixpoint map_get {V} (k : jsstring) (m : JsMap V) : option V :=
  match m with
  | [] => None
  | (k', v) :: m' => if decide (k' = k) then Some v else map_get k m'
  end.

(** [cue.uuid?.string], when truthy. *)
Definition cue_key (c : Cue) : option jsstring :=
  match cue_uuid c with
  | Some u =>
      match uuid_string u with
      | [] => None
      | k => Some k
      end
  | None => None
  end.

(** The first loop of [getCuesByGroup].  Only [get] is used on [cueMap],
    so the order of its entries is immaterial. *)
Definition build_cueMap (l : list Cue) : gmap jsstring Cue :=
  fold_left
    (fun m c => match cue_key c with Some k => <[k := c]> m | None => m end)
    l ∅.

(** The inner loop: the identifiers that resolve, in order. *)
Definition resolve_ids (cueMap : gmap jsstring Cue) (ids : list UUID) : list Cue :=
  omap (fun id => cueMap !! uuid_string id) ids.

Definition groupName (g : CueGroup) : jsstring :=
  or_string (match group g with Some gr => group_name gr | None => None end)
            (js "Unnamed").

(** The body of the second loop: [result.set(groupName, cues)]. *)
Definition add_group (cueMap : gmap jsstring Cue) (result : JsMap (list Cue))
    (g : CueGroup) : JsMap (list Cue) :=
  map_set (groupName g) (resolve_ids cueMap (or_empty (cueIdentifiers g))) result.

Definition getCuesByGroup (p : Presentation) : JsMap (list Cue) :=
  let cueMap := build_cueMap (or_empty (cues p)) in
  fold_left (add_group cueMap) (or_empty (cueGroups p)) [].

(** ** Creating presentations ([create.ts]) *)

(** *** The random source

    [Math.random] is ambient state.  [random] gives the successive values
    of [Math.random() * 16 | 0]; a computation carries the number of values
    drawn so far. *)

Definition Gen (A : Type) : Type := nat -> A * nat.

#[global] Instance Gen_ret : MRet Gen := fun A a n => (a, n).
#[global] Instance Gen_bind : MBind Gen :=
  fun A B f m n => let '(a, n') := m n in f a n'.

(** [Array.prototype.forEach] whose callback receives the index and pushes
    one value. *)
Fixpoint for_each {A B} (f : nat -> A -> Gen B) (i : nat) (l : list A)
    : Gen (list B) :=
  match l with
  | [] => mret []
  | a :: l' => b ← f i a; bs ← for_each f (S i) l'; mret (b :: bs)
  end.

Definition obj (fields : list (string * JsValue)) : JsValue :=
  JObject (map (fun '(k, v) => (js k, v)) fields).
Definition num (z : Z) : JsValue := JNumber (int z).
Definition dec (m e : Z) : JsValue := JNumber (Num m e).
Definition str (s : string) : JsValue := JString (js s).

Definition color_value (r g b a : JsNumber) : JsValue :=
  obj [("red", JNumber r); ("green", JNumber g); ("blue", JNumber b);
       ("alpha", JNumber a)]%string.

Definition DEFAULT_SLIDE_SIZE : Extent := mkExtent (int 1920) (int 1080).

Definition DEFAULT_TEXT_BOUNDS : Rect :=
  mkRect (mkPoint (int 0) (int 100)) (mkExtent (int 1920) (int 880)).

Module DEFAULT_FONT.
Definition name : jsstring := js "Arial".
Definition size : N := 72.
Definition family : jsstring := js "Arial".
Definition italic : bool := false.
Definition bold : bool := false.
Definition face : jsstring := js "".
End DEFAULT_FONT.

Definition rgba (r g b a : JsNumber) : Color :=
  mkColor (Some r) (Some g) (Some b) (Some a).

Definition DEFAULT_TEXT_COLOR : JsValue := color_value (int 1) (int 1) (int 1) (int 1).
Definition DEFAULT_STROKE_COLOR : JsValue := color_value (int 0) (int 0) (int 0) (int 1).

Definition DEFAULT_GROUP_COLORS : list Color :=
  [ rgba (int 0) (int 0) (Num 998 (-3)) (int 1);
    rgba (Num 135 (-3)) (int 1) (Num 25 (-3)) (int 1);
    rgba (Num 989 (-3)) (Num 415 (-3)) (Num 32 (-3)) (int 1);
    rgba (int 1) (Num 999 (-3)) (Num 41 (-3)) (int 1);
    rgba (Num 986 (-3)) (Num 7 (-3)) (Num 27 (-3)) (int 1);
    rgba (Num 580 (-3)) (Num 404 (-3)) (Num 741 (-3)) (int 1) ].

Record ChordPosition : Type := mkChord { position : Z; chord : jsstring }.

Inductive SlideInput : Type :=
| SlideString (s : jsstring)
| SlideObject (slide_text : jsstring) (chords : option (list ChordPosition)).

Record SectionInput : Type := mkSection {
  section_name : jsstring;
  slides : list SlideInput;
  section_color : option Color
}.

Module MusicKey.
Inductive t : Type :=
| A_FLAT | A | A_SHARP | B_FLAT | B | B_SHARP | C_FLAT | C | C_SHARP
| D_FLAT | D | D_SHARP | E_FLAT | E | E_SHARP | F_FLAT | F | F_SHARP
| G_FLAT | G | G_SHARP.

Definition value (k : t) : nat :=
  match k with
  | A_FLAT => 0 | A => 1 | A_SHARP => 2 | B_FLAT => 3 | B => 4
  | B_SHARP => 5 | C_FLAT => 6 | C => 7 | C_SHARP => 8 | D_FLAT => 9
  | D => 10 | D_SHARP => 11 | E_FLAT => 12 | E => 13 | E_SHARP => 14
  | F_FLAT => 15 | F => 16 | F_SHARP => 17 | G_FLAT => 18 | G => 19
  | G_SHARP => 20
  end%nat.
End MusicKey.

Module MusicScale.
Inductive t : Type := MAJOR | MINOR.
Definition value (s : t) : Z := match s with MAJOR => 0 | MINOR => 1 end%Z.
End MusicScale.

Record MusicKeyConfig : Type := mkMusicKey {
  key : MusicKey.t;
  scale : option MusicScale.t
}.

(** [fontSize] is a whole number, as in [textToRtf_with]. *)
Record CreatePresentationOptions : Type := mkOptions {
  title : jsstring;
  artist : option jsstring;
  ccliNumber : option Z;
  ccliAuthor : option jsstring;
  opt_copyrightYear : option Z;
  opt_publisher : option jsstring;
  opt_category : option jsstring;
  opt_notes : option jsstring;
  musicKey : option MusicKeyConfig;
  sections : list SectionInput;
  fontName : option jsstring;
  fontSize : option N;
  slideSize : option Extent;
  textBounds : option Rect;
  createArrangement : option bool
}.

(** [n || d] on an optional number: zero is falsy. *)
Definition or_N (o : option N) (d : N) : N :=
  match o with
  | Some 0 | None => d
  | Some n => n
  end.

Definition or_Z (o : option Z) (d : Z) : Z :=
  match o with
  | Some 0%Z | None => d
  | Some z => z
  end.

Definition truthy_string (o : option jsstring) : bool :=
  match o with Some (_ :: _) => true | _ => false end.

Definition truthy_Z (o : option Z) : bool :=
  match o with Some 0%Z | None => false | Some _ => true end.

(** [[...chords].sort((a, b) => a.position - b.position)]: the sort is
    stable. *)
Fixpoint insert_chord (c : ChordPosition) (l : list ChordPosition)
    : list ChordPosition :=
  match l with
  | [] => [c]
  | d :: l' =>
      if (position c <=? position d)%Z then c :: l else d :: insert_chord c l'
  end.

Definition sort_chords (l : list ChordPosition) : list ChordPosition :=
  foldr insert_chord [] l.

Definition range_value (start end_ : Z) : JsValue :=
  obj [("start", num start); ("end", num end_)]%string.

(** The loop over [sortedChords]: each range ends where the next chord
    starts, the last one at [text.length]. *)
Fixpoint chord_attributes (text_length : Z) (l : list ChordPosition)
    : list JsValue :=
  match l with
  | [] => []
  | c :: l' =>
      let nextPos :=
        match l' with d :: _ => position d | [] => text_length end in
      obj [("range", range_value (position c) nextPos);
           ("chord", JString (chord c))]%string
        :: chord_attributes text_length l'
  end.

Definition customAttributes (text_ : jsstring)
    (chords : option (list ChordPosition)) : list JsValue :=
  match chords with
  | Some (c :: l) => chord_attributes (Z.of_nat (length text_)) (sort_chords (c :: l))
  | _ => [obj [("range", range_value 0 (Z.of_nat (length text_)))]%string]
  end.

Section Create.
(** The successive values of [Math.random() * 16 | 0]. *)
Variable random : nat -> N.

Definition draw : Gen N := fun n => (random n mod 16, S n).

(** [v.toString(16).toUpperCase()] for [v] below 16. *)
Definition hex_upper (v : N) : N := if v <? 10 then 48 + v else 55 + v.

(** The callback of [generateUuid] on the matches of [/[xy]/g]; the other
    characters of the template are kept. *)
Definition uuid_char (c : N) : Gen N :=
  if c =? 120 then r ← draw; mret (hex_upper r)
  else if c =? 121 then r ← draw; mret (hex_upper (N.lor (N.land r 3) 8))
  else mret c.

Definition generateUuid : Gen UUID :=
  s ← for_each (fun _ => uuid_char) O
        (js "xxxxxxxx-xxxx-4xxx-yxxx-xxxxxxxxxxxx");
  mret (mkUUID s).

Definition path_point (px py : Z) : JsValue :=
  obj [("point", obj [("x", num px); ("y", num py)]);
       ("q0", obj [("x", num px); ("y", num py)]);
       ("q1", obj [("x", num px); ("y", num py)]);
       ("curved", JBool false)]%string.

Definition shadow_value : JsValue :=
  obj [("style", num 0); ("angle", num 315); ("offset", num 5);
       ("radius", num 5);
       ("color", color_value (int 0) (int 0) (int 0) (int 1));
       ("opacity", dec 75 (-2)); ("enable", JBool false)]%string.

Definition line_style : JsValue :=
  obj [("style", num 0); ("pattern", num 0); ("byWord", JBool false)]%string.

Definition text_attributes (text_ : jsstring) (fontName_ : jsstring)
    (fontSize_ : N) (chords : option (list ChordPosition)) : JsValue :=
  obj [("customAttributes", JArray (customAttributes text_ chords));
       ("font",
         obj [("name", JString fontName_);
              ("size", num (Z.of_N fontSize_));
              ("family", JString fontName_);
              ("italic", JBool DEFAULT_FONT.italic);
              ("bold", JBool DEFAULT_FONT.bold);
              ("face", JString DEFAULT_FONT.face)]);
       ("capitalization", num 0);
       ("underlineStyle", line_style);
       ("underlineColor", JNull);
       ("paragraphStyle",
         obj [("tabStops", JArray []); ("textLists", JArray []);
              ("alignment", num 2); ("firstLineHeadIndent", num 0);
              ("headIndent", num 0); ("tailIndent", num 0);
              ("lineHeightMultiple", num 1); ("maximumLineHeight", num 0);
              ("minimumLineHeight", num 0); ("lineSpacing", num 0);
              ("paragraphSpacing", num 0);
              ("paragraphSpacingBefore", num 0);
              ("defaultTabInterval", num 84);
              ("textList",
                obj [("isEnabled", JBool false); ("numberType", num 0);
                     ("prefix", str ""); ("postfix", str "");
                     ("startingNumber", num 0)])]);
       ("kerning", num 2);
       ("superscript", num 0);
       ("strikethroughStyle", line_style);
       ("strikethroughColor", JNull);
       ("strokeWidth", num (-6));
       ("strokeColor", DEFAULT_STROKE_COLOR);
       ("backgroundColor", JNull);
       ("textSolidFill", DEFAULT_TEXT_COLOR)]%string.

Definition createTextElement (text_ : jsstring)
    (options : CreatePresentationOptions)
    (chords : option (list ChordPosition)) : Gen GraphicsElement :=
  let fontName_ := or_string (fontName options) DEFAULT_FONT.name in
  let fontSize_ := or_N (fontSize options) DEFAULT_FONT.size in
  let bounds_ := default DEFAULT_TEXT_BOUNDS (textBounds options) in
  let rtfData_ := buffer_from (textToRtf_with text_ fontName_ fontSize_) in
  u ← generateUuid;
  mret
    {| ge_uuid := Some u;
       ge_name := Some text_;
       bounds := Some bounds_;
       rotation := Some (int 0);
       opacity := Some (int 1);
       text := Some
         {| attributes := text_attributes text_ fontName_ fontSize_ chords;
            text_shadow := shadow_value;
            rtfData := Some rtfData_;
            verticalAlignment := Some (int 1);
            scaleBehavior := Some (int 0);
            margins := obj [("left", num 0); ("right", num 0);
                            ("top", num 0); ("bottom", num 0)]%string;
            text_extra := [] |};
       fill := obj [("enable", JBool false);
                    ("color", color_value (int 0) (int 0) (int 0)
                                (Num 4 (-1)))]%string;
       stroke := obj [("pattern", JArray []); ("style", num 0);
                      ("width", num 3);
                      ("color", color_value (int 1) (int 1) (int 1) (int 1));
                      ("enable", JBool false)]%string;
       ge_extra :=
         [(js "locked", JBool false);
          (js "aspectRatioLocked", JBool false);
          (js "path",
            obj [("points",
                   JArray [path_point 0 0; path_point 1 0;
                           path_point 1 1; path_point 0 1]);
                 ("closed", JBool true);
                 ("shape", obj [("type", num 1)])]%string);
          (js "shadow", shadow_value);
          (js "feather",
            obj [("style", num 0); ("radius", dec 5 (-2));
                 ("enable", JBool false)]%string)] |}.

Definition createSlide (text_ : jsstring)
    (options : CreatePresentationOptions)
    (chords : option (list ChordPosition)) : Gen Slide :=
  let slideSize_ := default DEFAULT_SLIDE_SIZE (slideSize options) in
  element_ ← createTextElement text_ options chords;
  let slideElement :=
    {| element := Some element_;
       buildIn := JUndefined;
       buildOut := JUndefined;
       se_extra := [(js "dataLinks", JArray []);
                    (js "childBuilds", JArray [])] |} in
  u ← generateUuid;
  mret
    {| elements := Some [slideElement];
       slide_size := Some slideSize_;
       slide_uuid := Some u;
       backgroundColor := Some (rgba (int 0) (int 0) (int 0) (int 1));
       baseSlide := None;
       slide_extra := [(js "drawsBackgroundColor", JBool true)] |}.

Definition createCue (name : jsstring) (slideText : jsstring)
    (options : CreatePresentationOptions)
    (chords : option (list ChordPosition)) : Gen Cue :=
  slide_ ← createSlide slideText options chords;
  (* the slide goes under the key [baseSlide] of the object held by
     [presentation] *)
  let presentationSlide :=
    {| elements := None;
       slide_size := None;
       slide_uuid := None;
       backgroundColor := None;
       baseSlide := Some slide_;
       slide_extra := [(js "notes", JNull);
                       (js "templateGuidelines", JArray []);
                       (js "chordChart", JNull);
                       (js "transition", JNull)] |} in
  au ← generateUuid;
  let action :=
    {| action_uuid := Some au;
       action_name := Some (js "");
       label := JNull;
       action_type := Some (int 11);
       slide := Some {| presentation := Some presentationSlide;
                        prop := JNull |};
       action_extra := [(js "delayTime", num 0); (js "oldType", JNull);
                        (js "isEnabled", JBool true);
                        (js "layerIdentification", JNull);
                        (js "duration", num 0)] |} in
  cu ← generateUuid;
  mret
    {| cue_uuid := Some cu;
       cue_name := Some name;
       hotKey := obj [("code", num 0); ("controlIdentifier", str "")]%string;
       actions := Some [action];
       isEnabled := Some true;
       cue_extra := [] |}.

(** [cue.uuid!] *)
Definition non_null (o : option UUID) : UUID := default (mkUUID []) o.

Definition keyNames : list string :=
  ["Ab"; "A"; "A#"; "Bb"; "B"; "B#"; "Cb"; "C"; "C#"; "Db"; "D"; "D#";
   "Eb"; "E"; "E#"; "Fb"; "F"; "F#"; "Gb"; "G"; "G#"]%string.

Definition music_value (mk : MusicKeyConfig) : JsValue :=
  let keyName :=
    or_string (js <$> keyNames !! MusicKey.value (key mk)) (js "") in
  let scale_ := MusicScale.value (default MusicScale.MAJOR (scale mk)) in
  let key_value :=
    obj [("musicKey", num (Z.of_nat (MusicKey.value (key mk))));
         ("musicScale", num scale_)]%string in
  obj [("originalMusicKey", JString keyName);
       ("userMusicKey", JString keyName);
       ("original", key_value);
       ("user", key_value)]%string.

(** The body of [section.slides.forEach]: the cue pushed on [cues]; its
    [uuid] is what is pushed on [cueIdentifiers]. *)
Definition create_slide_cue (options : CreatePresentationOptions)
    (section : SectionInput) (slideIndex : nat) (slideInput : SlideInput)
    : Gen Cue :=
  let cueName :=
    section_name section ++ js " - Slide "
      ++ number_toString (N.of_nat (slideIndex + 1)) in
  let slideText :=
    match slideInput with
    | SlideString s => s
    | SlideObject t _ => t
    end in
  let chords :=
    match slideInput with
    | SlideString _ => None
    | SlideObject _ c => c
    end in
  createCue cueName slideText options chords.

(** The body of [options.sections.forEach]: the cues pushed on [cues],
    the group pushed on [cueGroups], and the identifier pushed on
    [groupIdentifiers]. *)
Definition create_section (options : CreatePresentationOptions)
    (sectionIndex : nat) (section : SectionInput)
    : Gen (list Cue * CueGroup * UUID) :=
  groupUuid ← generateUuid;
  created ← for_each (create_slide_cue options section) O (slides section);
  let cueIdentifiers_ := map (fun cue => non_null (cue_uuid cue)) created in
  let color_ :=
    match section_color section with
    | Some c => Some c
    | None =>
        DEFAULT_GROUP_COLORS
          !! (sectionIndex mod length DEFAULT_GROUP_COLORS)%nat
    end in
  let cueGroup :=
    {| group := Some
         {| group_uuid := Some groupUuid;
            group_name := Some (section_name section);
            color := color_;
            group_extra :=
              [(js "hotKey",
                 obj [("code", num 0); ("controlIdentifier", str "")]%string);
               (js "applicationGroupIdentifier", JNull);
               (js "applicationGroupName", str "")] |};
       cueIdentifiers := Some cueIdentifiers_ |} in
  mret (created, cueGroup, groupUuid).

Definition createPresentation (options : CreatePresentationOptions)
    : Gen Presentation :=
  built ← for_each (create_section options) O (sections options);
  let cues_ := concat (map (fun b => b.1.1) built) in
  let cueGroups_ := map (fun b => b.1.2) built in
  let groupIdentifiers_ := map (fun b => b.2) built in
  u ← generateUuid;
  let ccli_ :=
    if truthy_Z (ccliNumber options) || truthy_string (ccliAuthor options)
       || truthy_string (artist options)
    then
      Some
        {| songTitle := Some (title options);
           author :=
             Some (or_string (ccliAuthor options)
                     (or_string (artist options) (js "")));
           artistCredits := Some (or_string (artist options) (js ""));
           publisher := Some (or_string (opt_publisher options) (js ""));
           copyrightYear := Some (int (or_Z (opt_copyrightYear options) 0));
           songNumber := Some (int (or_Z (ccliNumber options) 0));
           display := Some true;
           album := Some (js "");
           artwork := Some [] |}
    else None in
  let music_ :=
    match musicKey options with
    | Some mk => [(js "music", music_value mk)]
    | None => []
    end in
  arrangement ←
    match createArrangement options with
    | Some false => mret None
    | _ =>
        au ← generateUuid;
        mret (Some (mkArrangement au (js "Default") groupIdentifiers_))
    end;
  mret
    {| applicationInfo := JUndefined;
       pres_uuid := Some u;
       pres_name := Some (title options);
       category := Some (or_string (opt_category options) (js ""));
       notes := Some (or_string (opt_notes options) (js ""));
       selectedArrangement := arr_uuid <$> arrangement;
       arrangements := (fun a => [a]) <$> arrangement;
       cueGroups := Some cueGroups_;
       cues := Some cues_;
       ccli := ccli_;
       pres_extra := music_ |}.
End Create.

(** ** The design document's accessors, in its own words

    These follow the wording of the design document, not the source; they
    are what the source's accessors are compared with. *)
Module Spec.
(** "an element whose content has a non-empty rich-text byte sequence" *)
Definition text_bearing (e : SlideElement) : option TextElement :=
  match element e with
  | Some ge =>
      match text ge with
      | Some te =>
          match rtfData te with
          | Some (_ :: _) => Some te
          | _ => None
          end
      | None => None
      end
  | None => None
  end.

Fixpoint first_in_elements (l : list SlideElement) : option TextElement :=
  match l with
  | [] => None
  | e :: l' =>
      match text_bearing e with
      | Some te => Some te
      | None => first_in_elements l'
      end
  end.

(** "walk the cue's actions in order; for each, if its active variant is
    presentation-slide, walk that slide's elements in order and return the
    first element whose content has a non-empty rich-text byte sequence;
    yields none if no such element exists anywhere in the cue" *)
Fixpoint first_in_actions (l : list Action) : option TextElement :=
  match l with
  | [] => None
  | a :: l' =>
      match action_presentation a with
      | Some s =>
          match first_in_elements (or_empty (elements s)) with
          | Some te => Some te
          | None => first_in_actions l'
          end
      | None => first_in_actions l'
      end
  end.

Definition firstTextElement (cue : Cue) : option TextElement :=
  first_in_actions (or_empty (actions cue)).

(** "[firstTextElement] then rich-text decode; empty string if none" *)
Definition textOf (cue : Cue) : jsstring :=
  match firstTextElement cue with
  | Some te => text_of_element te
  | None => []
  end.
End Spec.

(** ** Sample documents *)
Module Sample.
Definition text_element (rtf : option Buffer) : TextElement :=
  {| attributes := JNull; text_shadow := JNull; rtfData := rtf;
     verticalAlignment := None; scaleBehavior := None; margins := JNull;
     text_extra := [] |}.

Definition graphics (name : string) (t : option TextElement) : GraphicsElement :=
  {| ge_uuid := None; ge_name := Some (js name); bounds := None;
     rotation := None; opacity := None; text := t; fill := JNull;
     stroke := JNull; ge_extra := [] |}.

Definition slide_element (ge : GraphicsElement) : SlideElement :=
  {| element := Some ge; buildIn := JNull; buildOut := JNull;
     se_extra := [] |}.

(** An element whose text holds the RTF written for [t]. *)
Definition text_box (t : string) : SlideElement :=
  slide_element
    (graphics t (Some (text_element (Some (buffer_from (textToRtf (js t))))))).

(** An element whose text message carries a zero-length [rtfData], as
    decoding with defaults yields for a text without RTF content. *)
Definition empty_box : SlideElement :=
  slide_element (graphics "shape" (Some (text_element (Some [])))).

(** An element without text. *)
Definition shape : SlideElement := slide_element (graphics "shape" None).

Definition slide_of (l : list SlideElement) : Slide :=
  {| elements := Some l; slide_size := None; slide_uuid := None;
     backgroundColor := None; baseSlide := None; slide_extra := [] |}.

Definition slide_action (s : Slide) : Action :=
  {| action_uuid := None; action_name := None; label := JNull;
     action_type := Some (int 11);
     slide := Some {| presentation := Some s; prop := JNull |};
     action_extra := [] |}.

Definition cue_of (id : string) (l : list Action) : Cue :=
  {| cue_uuid := Some (mkUUID (js id)); cue_name := None; hotKey := JNull;
     actions := Some l; isEnabled := Some true; cue_extra := [] |}.

(** One slide, one text box. *)
Definition cue_one (id t : string) : Cue :=
  cue_of id [slide_action (slide_of [text_box t])].

(** One slide with two text boxes. *)
Definition cue_two_boxes : Cue :=
  cue_of "c" [slide_action (slide_of [text_box "Title"; text_box "Body"])].

(** One slide whose only element has a zero-length [rtfData]. *)
Definition cue_empty_rtf : Cue :=
  cue_of "c" [slide_action (slide_of [empty_box])].

(** One slide with a shape and no text. *)
Definition cue_no_text : Cue :=
  cue_of "c" [slide_action (slide_of [shape])].

Definition cue_group (name : string) (ids : list string) : CueGroup :=
  {| group := Some {| group_uuid := None; group_name := Some (js name);
                      color := None; group_extra := [] |};
     cueIdentifiers := Some (map (fun i => mkUUID (js i)) ids) |}.

Definition presentation_of (gs : list CueGroup) (cs : list Cue) : Presentation :=
  {| applicationInfo := JNull; pres_uuid := None; pres_name := None;
     category := None; notes := None; selectedArrangement := None;
     arrangements := None; cueGroups := Some gs; cues := Some cs;
     ccli := None; pres_extra := [] |}.


(** A group with a reference to a cue that does not exist. *)
Definition dangling : Presentation :=
  presentation_of
    [cue_group "Verse" ["c1"; "gone"; "c2"]%string;
     cue_group "Chorus" ["c3"%string]]
    [cue_one "c1" "one"; cue_one "c2" "two"; cue_one "c3" "three"].

Definition options : CreatePresentationOptions :=
  {| title := js "Test Song"; artist := Some (js "Test Artist");
     ccliNumber := Some 12345%Z; ccliAuthor := Some (js "Test Author");
     opt_copyrightYear := Some 2024%Z;
     opt_publisher := Some (js "Test Publisher");
     opt_category := Some (js "Worship"); opt_notes := None;
     musicKey := None;
     sections :=
       [mkSection (js "Verse 1")
          [SlideString (js "This is the first line");
           SlideString (js "This is the second slide")] None;
        mkSection (js "Chorus") [SlideString (js "Chorus line one")] None];
     fontName := None; fontSize := None; slideSize := None;
     textBounds := None; createArrangement := None |}.
End Sample.

(** ** Predicates used to state the properties *)

(** A backslash or a brace. *)
Definition is_markup (c : N) : bool := (c =? Ch.backslash) || is_brace c.

(** Every white-space code unit is a space followed by a code unit that is
    not white space. *)
Fixpoint single_spaced (s : jsstring) : bool :=
  match s with
  | [] => true
  | c :: s' =>
      (negb (is_space c)
       || ((c =? Ch.space)
           && match s' with d :: _ => negb (is_space d) | [] => false end))
      && single_spaced s'
  end.

Definition starts_with_space (s : jsstring) : bool :=
  match s with c :: _ => is_space c | [] => false end.

(** Plain text: no backslash, no brace, and no white space other than
    single spaces strictly inside the string (so no line break either). *)
Definition plain_text (s : jsstring) : bool :=
  forallb (fun c => negb (is_markup c)) s
  && negb (starts_with_space s) && single_spaced s.

(** What [textToRtf] writes for one code unit of the text. *)
Definition escape_char (c : N) : jsstring :=
  if c =? Ch.backslash then js "\\"
  else if c =? Ch.lbrace then js "\{"
  else if c =? Ch.rbrace then js "\}"
  else if c =? Ch.newline then js "\par "
  else [c].

(** The code units that start or continue something [rtfToText] strips or
    rewrites: letters (control words), the apostrophe (escaped bytes) and
    white space. *)
Definition triggers (c : N) : bool :=
  is_letter c || (c =? Ch.quote) || is_space c.

(** What comes back for a code unit written by [textToRtf]: the escaping
    backslash stays, a brace is dropped. *)
Definition decoded_escape (c : N) : jsstring :=
  if c =? Ch.backslash then [Ch.backslash; Ch.backslash]
  else if is_brace c then [Ch.backslash]
  else [c].

(** The strings the design document's round-trip property speaks of: no
    backslash, no brace, no carriage return. *)
Definition no_exotic (s : jsstring) : bool :=
  forallb (fun c => negb (is_markup c) && negb (c =? 13)) s.

(** The elements of a list in the order of their first occurrence. *)
Fixpoint unseen (seen l : list jsstring) : list jsstring :=
  match l with
  | [] => []
  | k :: l' =>
      if decide (k ∈ seen) then unseen seen l' else k :: unseen (k :: seen) l'
  end.


(** Well-formed UTF-16: code units below 65536, every surrogate in a pair. *)
Fixpoint well_formed (s : jsstring) : bool :=
  match s with
  | [] => true
  | c :: s' =>
      if is_high_surrogate c then
        match s' with
        | d :: s'' => is_low_surrogate d && well_formed s''
        | [] => false
        end
      else negb (is_low_surrogate c) && (c <? 65536) && well_formed s'
  end.

(** An action without presentation slide; an element without [rtfData]. *)
Definition no_slide (a : Action) : Prop := action_presentation a = None.
Definition no_rtf (e : SlideElement) : Prop := element_text e = None.

(** Length of the argument of [rtfToText], in code units or in bytes. *)
Definition rtf_length (d : RtfData) : nat :=
  match d with
  | RtfString s => length s
  | RtfBytes b => length b
  end.

(** A cue with an identifier that is not the empty string. *)
Definition identified (c : Cue) : Prop :=
  exists u, cue_uuid c = Some u /\ uuid_string u <> [].

(** What one section contributes to a created presentation: a cue for each
    slide, and a group whose identifiers are those of these cues. *)
Definition section_built (section : SectionInput)
    (b : list Cue * CueGroup * UUID) : Prop :=
  length b.1.1 = length (slides section)
  /\ Forall identified b.1.1
  /\ (map Some <$> cueIdentifiers b.1.2) = Some (map cue_uuid b.1.1).

(** [needs P r]: a match of [r] contains a code unit satisfying [P]. *)
Inductive needs (P : N -> Prop) : regex -> Prop :=
| needs_one p r : (forall c, p c = true -> P c) -> needs P (One p :: r)
| needs_plus p r : (forall c, p c = true -> P c) -> needs P (Plus p :: r)
| needs_after_one p r : needs P r -> needs P (One p :: r)
| needs_after_plus p r : needs P r -> needs P (Plus p :: r).

(** Literal strings, as lists of code units. *)
Ltac literals :=
  repeat match goal with
    | |- context [js ?s] =>
        let v := eval vm_compute in (js s) in change (js s) with v
    end.

(** Linear arithmetic with division and remainder by constants. *)
Ltac div_lia := zify; Z.to_euclidean_division_equations; lia.

(** Settle the comparisons of the goal that the hypotheses decide. *)
Ltac settle_tests :=
  repeat match goal with
    | |- context [?a <=? ?b] =>
        first [ replace (a <=? b) with true by (symmetry; apply N.leb_le; div_lia)
              | replace (a <=? b) with false by (symmetry; apply N.leb_gt; div_lia) ]
    | |- context [?a <? ?b] =>
        first [ replace (a <? b) with true by (symmetry; apply N.ltb_lt; div_lia)
              | replace (a <? b) with false by (symmetry; apply N.ltb_ge; div_lia) ]
    | |- context [?a =? ?b] =>
        first [ replace (a =? b) with true by (symmetry; apply N.eqb_eq; div_lia)
              | replace (a =? b) with false by (symmetry; apply N.eqb_neq; div_lia) ]
    end.

(** ** Further predicates *)

(** An upper-case hexadecimal digit. *)
Definition is_upper_hex (c : N) : bool := is_digit c || in_range 65 70 c.

(** [s] follows the template [tpl]: an upper-case hexadecimal digit for each
    [x], one of [8 9 A B] for each [y], the character itself otherwise. *)
Fixpoint follows_template (tpl s : jsstring) : bool :=
  match tpl, s with
  | [], [] => true
  | t :: tpl', c :: s' =>
      (if t =? 120 then is_upper_hex c
       else if t =? 121 then (c =? 56) || (c =? 57) || (c =? 65) || (c =? 66)
       else c =? t)
      && follows_template tpl' s'
  | _, _ => false
  end.

(** The number of [x] and [y] in a template. *)
Fixpoint template_draws (tpl : jsstring) : nat :=
  match tpl with
  | [] => O
  | t :: tpl' =>
      Nat.add (if (t =? 120) || (t =? 121) then 1%nat else O)
        (template_draws tpl')
  end.

(** The entry [getCuesByGroup] computes for one group. *)
Definition group_entry (cueMap : gmap jsstring Cue) (g : CueGroup)
    : jsstring * list Cue :=
  (groupName g, resolve_ids cueMap (or_empty (cueIdentifiers g))).

(** Every white-space code unit is a space, and is not followed by a
    white-space code unit (it may be the last one). *)
Fixpoint spaced (s : jsstring) : bool :=
  match s with
  | [] => true
  | c :: s' =>
      (negb (is_space c)
       || ((c =? Ch.space)
           && match s' with d :: _ => negb (is_space d) | [] => true end))
      && spaced s'
  end.

(** The number of white-space code units a string starts with. *)
Fixpoint space_run (s : jsstring) : nat :=
  match s with
  | c :: s' => if is_space c then S (space_run s') else O
  | [] => O
  end.

(** The text of a slide given to [createPresentation], as a string or in an
    object. *)
Definition slide_input_text (i : SlideInput) : jsstring :=
  match i with
  | SlideString s => s
  | SlideObject t _ => t
  end.

(** The slide [createCue] builds, where it puts it: under [baseSlide] of
    the object [getCueSlide] returns. *)
Definition created_slide (cue : Cue) : option Slide :=
  match getCueSlide cue with
  | Some wrapper => baseSlide wrapper
  | None => None
  end.

(** A font size of the model on which the model and JavaScript agree: the
    doubled size is a whole number up to 2^53, which a JavaScript number
    holds exactly and the template prints in plain decimal digits. *)
Definition whole_size (fontSize : N) : Prop := fontSize * 2 <= 2 ^ 53.

(** A font [createTextElement] can write into the document and bring
    back: a name with no closing brace and no lone surrogate, and a size
    that is printed in digits. *)
Definition usable_font (options : CreatePresentationOptions) : Prop :=
  let fontName_ := or_string (fontName options) DEFAULT_FONT.name in
  Forall (fun c => c <> Ch.rbrace) fontName_
  /\ well_formed fontName_ = true
  /\ whole_size (or_N (fontSize options) DEFAULT_FONT.size).

(** A cue whose text the accessors of [index.ts] do not reach. *)
Definition out_of_reach (cue : Cue) : Prop :=
  getCueText cue = [] /\ forall t, setCueText cue t = (false, cue).

(** The name [createPresentation] gives to the cue of a slide: the name of
    the section and the rank of the slide in it, from 1. *)
Definition slide_cue_name (section : SectionInput) (slideIndex : nat) : jsstring :=
  section_name section ++ js " - Slide "
    ++ number_toString (N.of_nat (slideIndex + 1)).

(** What one section contributes to a created presentation, in full: the
    names of the cues, and the name and the identifier of the group. *)
Definition section_layout (section : SectionInput)
    (b : list Cue * CueGroup * UUID) : Prop :=
  section_built section b
  /\ map cue_name b.1.1
     = imap (fun j _ => Some (slide_cue_name section j)) (slides section)
  /\ group b.1.2 ≫= group_name = Some (section_name section)
  /\ group b.1.2 ≫= group_uuid = Some b.2
  /\ is_Some (group b.1.2 ≫= color).

(** The name under which [getCuesByGroup] files a section. *)
Definition section_key (section : SectionInput) : jsstring :=
  or_string (Some (section_name section)) (js "Unnamed").

(** ** Chords at the start of lines ([generate-love-divine-chords.ts]) *)

(** [text.split('\n')] *)
Fixpoint split_lines (s : jsstring) : list jsstring :=
  match s with
  | [] => [[]]
  | c :: s' =>
      if c =? Ch.newline then [] :: split_lines s'
      else
        match split_lines s' with
        | l :: ls => (c :: l) :: ls
        | [] => [[c]]
        end
  end.

(** The loop of [addLineChords]: [pos] is the offset of the current line;
    an empty chord name is skipped. *)
Fixpoint line_chords (pos : Z) (lines chords : list jsstring)
    : list ChordPosition :=
  match lines, chords with
  | l :: lines', c :: chords' =>
      match c with
      | [] => []
      | _ :: _ => [mkChord pos c]
      end ++ line_chords (pos + Z.of_nat (length l) + 1) lines' chords'
  | _, _ => []
  end.

Definition addLineChords (text_ : jsstring) (chords : list jsstring)
    : SlideInput :=
  SlideObject text_ (Some (line_chords 0 (split_lines text_) chords)).

(** The custom attribute pushed for a chord whose range ends at [end_]. *)
Definition chord_attribute (c : ChordPosition) (end_ : Z) : JsValue :=
  obj [("range", range_value (position c) end_);
       ("chord", JString (chord c))]%string.

(** Where the ranges of a list of chords end: at the next chord, the last
    one at the end of the text. *)
Definition range_ends (text_length : Z) (l : list ChordPosition) : list Z :=
  match l with
  | [] => []
  | _ :: l' => map position l' ++ [text_length]
  end.

(** * Properties *)

(** ** The matcher *)

Section Matcher.
Variable P : N -> Prop.

Lemma star_none p k prev u :
  (forall prev' u', k prev' u' = None) -> star p k prev u = None.
Proof.
  intros Hk. revert prev. induction u as [|c u IH]; intros prev; simpl.
  - apply Hk.
  - destruct (p c); [rewrite IH|]; apply Hk.
Qed.

Lemma star_none_on p k prev u :
  Forall (fun c => ~ P c) u ->
  (forall prev' u', Forall (fun c => ~ P c) u' -> k prev' u' = None) ->
  star p k prev u = None.
Proof.
  intros Hu Hk. revert prev. induction Hu as [|c u Hc Hu IH]; intros prev; simpl.
  - apply Hk. constructor.
  - destruct (p c); [rewrite IH|]; apply Hk; constructor; assumption.
Qed.

(** A pattern that needs a code unit in [P] matches nowhere in a string
    without one. *)
Lemma match_here_needs r prev u :
  needs P r -> Forall (fun c => ~ P c) u -> match_here r prev u = None.
Proof.
  intros Hr. revert prev u.
  induction Hr as [p r Hp|p r Hp|p r Hr IH|p r Hr IH]; intros prev u Hu;
    simpl; destruct Hu as [|c u Hc Hu]; try reflexivity.
  - destruct (p c) eqn:E; [|reflexivity]. destruct (Hc (Hp _ E)).
  - destruct (p c) eqn:E; [|reflexivity]. destruct (Hc (Hp _ E)).
  - destruct (p c); [|reflexivity]. rewrite IH; [reflexivity|assumption].
  - destruct (p c); [|reflexivity].
    rewrite star_none_on; [reflexivity|assumption|].
    intros; apply IH; assumption.
Qed.

Lemma replace_from_needs r f prev u :
  needs P r -> Forall (fun c => ~ P c) u -> replace_from r f O prev u = u.
Proof.
  intros Hr Hu. revert prev.
  induction Hu as [|c u Hc Hu IH]; intros prev; simpl; [reflexivity|].
  rewrite match_here_needs; [|assumption|constructor; assumption].
  rewrite IH. reflexivity.
Qed.
End Matcher.

(** A pattern that starts with a class, once or more, matches no empty
    string: so it is with every pattern of the source. *)
Lemma match_here_nonempty r prev s :
  match r with One _ :: _ | Plus _ :: _ => True | _ => False end ->
  match_here r prev s <> Some O.
Proof.
  destruct r as [|[p|p|p|p|] r]; intros []; destruct s as [|c s]; simpl;
    try discriminate; destruct (p c); try discriminate.
  - destruct (match_here r (Some c) s); discriminate.
  - destruct (star p (match_here r) (Some c) s); discriminate.
Qed.

Lemma source_patterns_nonempty r prev s :
  In r [Re.header; Re.par; Re.line; Re.group "fonttbl"; Re.group "colortbl";
        Re.group "stylesheet"; Re.control; Re.braces; Re.spaces; Re.hex;
        Re.char Ch.backslash; Re.char Ch.lbrace; Re.char Ch.rbrace;
        Re.char Ch.newline] ->
  match_here r prev s <> Some O.
Proof.
  intros H. apply match_here_nonempty. simpl in H.
  repeat (destruct H as [<-|H]; [exact I|]). destruct H.
Qed.

(** Replacing every code unit of a class by a constant. *)
Lemma replace_one p by_ prev u :
  replace_from [One p] (fun _ => by_) O prev u
  = flat_map (fun c => if p c then by_ else [c]) u.
Proof.
  revert prev. induction u as [|c u IH]; intros prev; simpl; [reflexivity|].
  destruct (p c); simpl; rewrite IH; reflexivity.
Qed.

(** ** White space *)

Lemma single_spaced_collapse prev s :
  single_spaced s = true ->
  replace_from Re.spaces (fun _ => [Ch.space]) O prev s = s.
Proof.
  revert prev. induction s as [|c s IH]; intros prev Hs; [reflexivity|].
  simpl in Hs. apply andb_true_iff in Hs as [Hc Hs].
  cbn [replace_from Re.spaces match_here].
  destruct (is_space c) eqn:Ec; simpl in Hc.
  - apply andb_true_iff in Hc as [Hc Hd]. apply N.eqb_eq in Hc. subst c.
    destruct s as [|d s]; [discriminate|].
    apply negb_true_iff in Hd. cbn [star]. rewrite Hd.
    change (S <$> Some O) with (Some 1%nat). cbv iota beta.
    rewrite (IH (Some Ch.space) Hs). reflexivity.
  - rewrite (IH (Some c) Hs). reflexivity.
Qed.

Lemma single_spaced_last s c :
  single_spaced (s ++ [c]) = true -> is_space c = false.
Proof.
  induction s as [|d s IH]; simpl; intros H; apply andb_true_iff in H as [H1 H2].
  - destruct (is_space c); [|reflexivity].
    simpl in H1. rewrite andb_false_r in H1. discriminate.
  - apply IH, H2.
Qed.

Lemma trim_plain s :
  starts_with_space s = false -> single_spaced s = true -> trim s = s.
Proof.
  intros H1 H2. unfold trim.
  assert (E : trim_start s = s).
  { destruct s as [|c s]; [reflexivity|]. simpl in *. rewrite H1. reflexivity. }
  rewrite E. unfold trim_end.
  destruct s as [|c s _] using rev_ind; [reflexivity|].
  rewrite rev_app_distr. simpl.
  rewrite (single_spaced_last _ _ H2). simpl.
  rewrite rev_involutive. reflexivity.
Qed.

(** ** The codec on text without markup *)

Lemma textToRtf_unfold (t : jsstring) :
  textToRtf t
  = js "{\rtf1\ansi\deff0{\fonttbl{\f0 Arial;}}\f0\fs96 "
    ++ escape_rtf t ++ js "}".
Proof. reflexivity. Qed.

Lemma flat_map_keep (p : N -> bool) by_ u :
  Forall (fun c => p c = false) u ->
  flat_map (fun c => if p c then by_ else [c]) u = u.
Proof.
  induction 1 as [|c u Hc Hu IH]; simpl; [reflexivity|].
  rewrite Hc, IH. reflexivity.
Qed.

Lemma no_markup_chars u :
  Forall (fun c => is_markup c = false) u ->
  Forall (fun c => c <> Ch.backslash) u
  /\ Forall (fun c => c <> Ch.lbrace) u
  /\ Forall (fun c => c <> Ch.rbrace) u
  /\ Forall (fun c => is_brace c = false) u.
Proof.
  intros H. repeat split; eapply Forall_impl; try exact H;
    intros c Hc; unfold is_markup, is_brace in *;
    apply orb_false_iff in Hc as [H1 H2];
    apply orb_false_iff in H2 as [H2 H3].
  - apply N.eqb_neq, H1.
  - apply N.eqb_neq, H2.
  - apply N.eqb_neq, H3.
  - rewrite H2, H3. reflexivity.
Qed.

Lemma needs_char c r : needs (fun x => x = c) (One (is_char c) :: r).
Proof. apply needs_one. intros x Hx. apply N.eqb_eq in Hx. exact Hx. Qed.

(** The regular expressions that start with a backslash or an open brace. *)
Lemma needs_backslash_par : needs (fun x => x = Ch.backslash) Re.par.
Proof. apply needs_char. Qed.
Lemma needs_backslash_line : needs (fun x => x = Ch.backslash) Re.line.
Proof. apply needs_char. Qed.
Lemma needs_backslash_control : needs (fun x => x = Ch.backslash) Re.control.
Proof. apply needs_char. Qed.
Lemma needs_backslash_hex : needs (fun x => x = Ch.backslash) Re.hex.
Proof. apply needs_char. Qed.
Lemma needs_lbrace_group name : needs (fun x => x = Ch.lbrace) (Re.group name).
Proof. apply needs_char. Qed.

(** What the header pattern removes from the text written by [textToRtf]:
    everything up to the first closing brace, which is inside the font
    table. *)
Lemma strip_header u :
  replace_prefix Re.header []
    (js "{\rtf1\ansi\deff0{\fonttbl{\f0 Arial;}}\f0\fs96 " ++ u)
  = js "}\f0\fs96 " ++ u.
Proof. unfold Re.header, lit. literals. reflexivity. Qed.

(** On what is left of the header, the patterns for line breaks and for
    the auxiliary groups find nothing. *)
Lemma rest_par by_ u :
  replace_all Re.par by_ (js "}\f0\fs96 " ++ u)
  = js "}\f0\fs96 " ++ replace_from Re.par (fun _ => by_) O (Some Ch.space) u.
Proof. literals. reflexivity. Qed.

Lemma rest_line by_ u :
  replace_all Re.line by_ (js "}\f0\fs96 " ++ u)
  = js "}\f0\fs96 " ++ replace_from Re.line (fun _ => by_) O (Some Ch.space) u.
Proof. literals. reflexivity. Qed.

Lemma rest_group name by_ u :
  replace_all (Re.group name) by_ (js "}\f0\fs96 " ++ u)
  = js "}\f0\fs96 "
    ++ replace_from (Re.group name) (fun _ => by_) O (Some Ch.space) u.
Proof. literals. reflexivity. Qed.

(** The control-word pattern removes [\f0] and [\fs96 ], with the space. *)
Lemma rest_control u :
  replace_all Re.control [] (js "}\f0\fs96 " ++ u)
  = Ch.rbrace :: replace_from Re.control (fun _ => []) O (Some Ch.space) u.
Proof. literals. reflexivity. Qed.

(** The chain of replacements on the text written for a body without
    backslash and braces: only the white-space clean-up acts on the body. *)
Lemma strip_written_body u :
  Forall (fun c => is_markup c = false) u ->
  strip_rtf (js "{\rtf1\ansi\deff0{\fonttbl{\f0 Arial;}}\f0\fs96 " ++ u ++ js "}")
  = trim (replace_all Re.spaces (js " ") u).
Proof.
  intros Hu. destruct (no_markup_chars u Hu) as (Hb & Hl & Hr & Hbr).
  assert (Hb' : Forall (fun c => ~ c = Ch.backslash) (u ++ js "}")).
  { apply Forall_app. split; [exact Hb|]. literals. repeat constructor. discriminate. }
  assert (Hl' : Forall (fun c => ~ c = Ch.lbrace) (u ++ js "}")).
  { apply Forall_app. split; [exact Hl|]. literals. repeat constructor. discriminate. }
  unfold strip_rtf.
  rewrite strip_header.
  rewrite rest_par, (replace_from_needs _ _ _ _ _ needs_backslash_par Hb').
  rewrite rest_line, (replace_from_needs _ _ _ _ _ needs_backslash_line Hb').
  rewrite rest_group, (replace_from_needs _ _ _ _ _ (needs_lbrace_group _) Hl').
  rewrite rest_group, (replace_from_needs _ _ _ _ _ (needs_lbrace_group _) Hl').
  rewrite rest_group, (replace_from_needs _ _ _ _ _ (needs_lbrace_group _) Hl').
  rewrite rest_control, (replace_from_needs _ _ _ _ _ needs_backslash_control Hb').
  f_equal. f_equal.
  unfold replace_all, Re.braces. rewrite replace_one.
  change (Ch.rbrace :: u ++ js "}") with ([Ch.rbrace] ++ u ++ [Ch.rbrace]).
  rewrite !flat_map_app, (flat_map_keep _ _ _ Hbr).
  cbn. apply app_nil_r.
Qed.

(** Text without backslash, brace and line feed is written as it is. *)
Lemma escape_rtf_plain s :
  Forall (fun c => is_markup c = false) s ->
  Forall (fun c => c <> Ch.newline) s ->
  escape_rtf s = s.
Proof.
  intros Hs Hn. destruct (no_markup_chars s Hs) as (Hb & Hl & Hr & _).
  unfold escape_rtf, replace_all, Re.char.
  rewrite (replace_from_needs _ _ _ _ _ (needs_char _ _) Hb).
  rewrite (replace_from_needs _ _ _ _ _ (needs_char _ _) Hl).
  rewrite (replace_from_needs _ _ _ _ _ (needs_char _ _) Hr).
  apply (replace_from_needs _ _ _ _ _ (needs_char _ _) Hn).
Qed.

Lemma single_spaced_spaces s :
  single_spaced s = true ->
  Forall (fun c => is_space c = true -> c = Ch.space) s.
Proof.
  induction s as [|c s IH]; simpl; intros H; constructor;
    apply andb_true_iff in H as [H1 H2]; [|apply IH, H2].
  intros Hc. rewrite Hc in H1. simpl in H1.
  apply andb_true_iff in H1 as [H1 _]. apply N.eqb_eq, H1.
Qed.

Lemma plain_text_facts s :
  plain_text s = true ->
  Forall (fun c => is_markup c = false) s
  /\ Forall (fun c => c <> Ch.newline) s
  /\ starts_with_space s = false
  /\ single_spaced s = true.
Proof.
  unfold plain_text. intros H.
  apply andb_true_iff in H as [H H3]. apply andb_true_iff in H as [H1 H2].
  apply negb_true_iff in H2. repeat split; try assumption.
  - apply Forall_forall. intros c Hc.
    rewrite forallb_forall in H1. apply negb_true_iff, H1.
    apply list_elem_of_In, Hc.
  - eapply Forall_impl; [apply single_spaced_spaces, H3|].
    intros c Hc ->. discriminate (Hc eq_refl).
Qed.

(** Plain text comes back from its encoding. *)
Lemma decode_written_plain (s : jsstring) :
  plain_text s = true -> rtfToText (RtfString (textToRtf s)) = s.
Proof.
  intros H. destruct (plain_text_facts s H) as (Hm & Hn & Hh & Hsp).
  unfold rtfToText, rtf_source. rewrite textToRtf_unfold.
  rewrite (escape_rtf_plain s Hm Hn), (strip_written_body s Hm).
  change (replace_all Re.spaces (js " ") s)
    with (replace_from Re.spaces (fun _ => [Ch.space]) O None s).
  rewrite (single_spaced_collapse None s Hsp), (trim_plain s Hh Hsp).
  unfold replace_all_with.
  apply (replace_from_needs _ _ _ _ _ needs_backslash_hex).
  apply (proj1 (no_markup_chars s Hm)).
Qed.

Lemma replace_from_Forall (Q : N -> Prop) r f skip prev s :
  (forall m, Forall Q (f m)) -> Forall Q s ->
  Forall Q (replace_from r f skip prev s).
Proof.
  intros Hf Hs. revert skip prev.
  induction Hs as [|c s Hc Hs IH]; intros skip prev; cbn [replace_from];
    [constructor|].
  destruct skip as [|n]; [|apply IH].
  destruct (match_here r prev (c :: s)) as [[|n]|].
  - constructor; [exact Hc|apply IH].
  - apply Forall_app. split; [apply Hf|apply IH].
  - constructor; [exact Hc|apply IH].
Qed.

Lemma trim_start_Forall (Q : N -> Prop) s :
  Forall Q s -> Forall Q (trim_start s).
Proof.
  induction 1 as [|c s Hc Hs IH]; cbn [trim_start]; [constructor|].
  destruct (is_space c); [exact IH|constructor; assumption].
Qed.

Lemma trim_Forall (Q : N -> Prop) s : Forall Q s -> Forall Q (trim s).
Proof.
  intros H. unfold trim, trim_end.
  apply Forall_rev, trim_start_Forall, Forall_rev, trim_start_Forall, H.
Qed.

(** Text without backslash, brace and line feed comes back from its
    encoding with its white space cleaned up: runs collapsed to one space,
    the ends trimmed. *)
Lemma decode_written_normalises (s : jsstring) :
  Forall (fun c => is_markup c = false) s ->
  Forall (fun c => c <> Ch.newline) s ->
  rtfToText (RtfString (textToRtf s))
  = trim (replace_all Re.spaces (js " ") s).
Proof.
  intros Hm Hn. unfold rtfToText, rtf_source. rewrite textToRtf_unfold.
  rewrite (escape_rtf_plain s Hm Hn), (strip_written_body s Hm).
  unfold replace_all_with.
  apply (replace_from_needs _ _ _ _ _ needs_backslash_hex).
  apply trim_Forall, replace_from_Forall.
  - intros _. literals. repeat constructor. discriminate.
  - apply (proj1 (no_markup_chars s Hm)).
Qed.

(** C5, as amended: for every string with no backslash, no brace and no
    white space other than single spaces strictly inside it,
    [rtfToText(textToRtf(s)) == s]. *)
Theorem rtf_roundtrip_plain (s : jsstring) :
  plain_text s = true -> rtfToText (RtfString (textToRtf s)) = s.
Proof. exact (decode_written_plain s). Qed.

(** C5, evidence against the claim as stated: a run of two spaces comes
    back as one. *)
Lemma rtf_roundtrip_collapses_spaces :
  no_exotic (js "a  b") = true
  /\ rtfToText (RtfString (textToRtf (js "a  b"))) = js "a b"
  /\ rtfToText (RtfString (textToRtf (js "a  b"))) <> js "a  b".
Proof. repeat split. vm_compute. discriminate. Qed.

Lemma rtf_roundtrip_plain_witness :
  plain_text (js "Amazing grace") = true
  /\ rtfToText (RtfString (textToRtf (js "Amazing grace"))) = js "Amazing grace".
Proof.
  split; [reflexivity|].
  apply (rtf_roundtrip_plain (js "Amazing grace")). reflexivity.
Defined.

(** C7: on the design document's example the decoder answers [Hi there]:
    the line feed written for [\par] falls to the white-space clean-up
    that follows.  The same holds for the string and for its bytes. *)
Theorem rtfToText_example :
  let rtf := js "{\rtf1\ansi\deff0{\fonttbl{\f0 Arial;}}\f0\fs48 Hi\par there}" in
  rtfToText (RtfString rtf) = js "Hi there"
  /\ rtfToText (RtfBytes rtf) = js "Hi there"
  /\ rtfToText (RtfBytes rtf) <> js "Hi" ++ [Ch.newline] ++ js "there".
Proof. repeat split. vm_compute. discriminate. Qed.

(** ** Escaping *)

Lemma escape_rtf_chars s : escape_rtf s = flat_map escape_char s.
Proof.
  unfold escape_rtf, replace_all, Re.char. rewrite !replace_one.
  induction s as [|c s IH]; [reflexivity|].
  cbn [flat_map]. rewrite !flat_map_app, IH. f_equal.
  unfold escape_char, is_char. literals.
  destruct (c =? Ch.backslash) eqn:E1.
  { apply N.eqb_eq in E1. subst c. reflexivity. }
  cbn [flat_map app]. destruct (c =? Ch.lbrace) eqn:E2.
  { apply N.eqb_eq in E2. subst c. reflexivity. }
  cbn [flat_map app]. destruct (c =? Ch.rbrace) eqn:E3.
  { apply N.eqb_eq in E3. subst c. reflexivity. }
  cbn [flat_map app]. destruct (c =? Ch.newline); reflexivity.
Qed.

(** A class all of whose code units are letters, apostrophes or white
    space. *)
Lemma needs_trigger_one (p : N -> bool) r :
  (forall c, p c = true -> triggers c = true) ->
  needs (fun c => triggers c = true) (One p :: r).
Proof. apply needs_one. Qed.

Lemma is_char_triggers x : triggers x = true ->
  forall c, is_char x c = true -> triggers c = true.
Proof. intros Hx c Hc. apply N.eqb_eq in Hc. subst c. exact Hx. Qed.

(** Apart from the removal of braces, every pattern of [rtfToText] needs a
    letter, an apostrophe or a white-space code unit. *)
Lemma needs_trigger_par : needs (fun c => triggers c = true) Re.par.
Proof. apply needs_after_one, needs_one, is_char_triggers. reflexivity. Qed.

Lemma needs_trigger_line : needs (fun c => triggers c = true) Re.line.
Proof. apply needs_after_one, needs_one, is_char_triggers. reflexivity. Qed.

Lemma needs_trigger_group name :
  In name ["fonttbl"; "colortbl"; "stylesheet"]%string ->
  needs (fun c => triggers c = true) (Re.group name).
Proof.
  intros [<- | [<- | [<- | []]]]; unfold Re.group, lit; literals;
    apply needs_after_one, needs_after_one, needs_one, is_char_triggers;
    reflexivity.
Qed.

Lemma needs_trigger_control : needs (fun c => triggers c = true) Re.control.
Proof.
  apply needs_after_one, needs_plus. intros c Hc.
  unfold triggers. rewrite Hc. reflexivity.
Qed.

Lemma needs_trigger_spaces : needs (fun c => triggers c = true) Re.spaces.
Proof.
  apply needs_plus. intros c Hc. unfold triggers. rewrite Hc.
  apply orb_true_r.
Qed.

Lemma needs_trigger_hex : needs (fun c => triggers c = true) Re.hex.
Proof. apply needs_after_one, needs_one, is_char_triggers. reflexivity. Qed.

Lemma trim_start_no_space s :
  Forall (fun c => is_space c = false) s -> trim_start s = s.
Proof. intros [|c l Hc _]; [reflexivity|]. simpl. rewrite Hc. reflexivity. Qed.

Lemma trim_no_space s : Forall (fun c => is_space c = false) s -> trim s = s.
Proof.
  intros H. unfold trim, trim_end. rewrite (trim_start_no_space s H).
  rewrite trim_start_no_space, rev_involutive; [reflexivity|].
  apply Forall_rev, H.
Qed.

(** What is written for a code unit that is no trigger holds no trigger,
    and gives [decoded_escape] once the braces are removed. *)
Lemma escape_char_inert c :
  triggers c = false ->
  Forall (fun x => triggers x = false) (escape_char c)
  /\ flat_map (fun x => if is_brace x then [] else [x]) (escape_char c)
     = decoded_escape c
  /\ Forall (fun x => triggers x = false) (decoded_escape c).
Proof.
  intros Hc. unfold escape_char, decoded_escape, is_brace.
  destruct (c =? Ch.backslash) eqn:E1.
  { repeat split; repeat constructor. }
  destruct (c =? Ch.lbrace) eqn:E2.
  { repeat split; repeat constructor. }
  destruct (c =? Ch.rbrace) eqn:E3.
  { repeat split; repeat constructor. }
  destruct (c =? Ch.newline) eqn:E4.
  { apply N.eqb_eq in E4. subst c. discriminate Hc. }
  cbn [orb flat_map app]. unfold is_brace. rewrite E2, E3.
  repeat split; repeat constructor; exact Hc.
Qed.

(** C6, as amended: [textToRtf] escapes a backslash or a brace with a
    backslash, and [rtfToText] does not undo it.  For every string without
    letters, apostrophes and white space, the text decoded from its
    encoding is the string with each brace replaced by a backslash and each
    backslash by two backslashes: no brace comes back, and a backslash
    comes back doubled. *)
Theorem escapes_are_not_undone (s : jsstring) :
  forallb (fun c => negb (triggers c)) s = true ->
  rtfToText (RtfString (textToRtf s)) = flat_map decoded_escape s.
Proof.
  intros Hs.
  assert (Hs' : Forall (fun c => triggers c = false) s).
  { apply Forall_forall. intros c Hc. rewrite forallb_forall in Hs.
    apply negb_true_iff, Hs, list_elem_of_In, Hc. }
  clear Hs.
  set (u := flat_map escape_char s).
  assert (Hu : Forall (fun c => triggers c = false) u).
  { subst u. induction Hs' as [|c s Hc Hs IH]; [constructor|].
    cbn [flat_map]. apply Forall_app. split; [|exact IH].
    apply (escape_char_inert c Hc). }
  assert (Hu' : Forall (fun c => ~ triggers c = true) (u ++ js "}")).
  { apply Forall_app. split.
    - eapply Forall_impl; [exact Hu|]. intros c -> ?. discriminate.
    - literals. repeat constructor. discriminate. }
  assert (Hv : flat_map (fun x => if is_brace x then [] else [x]) u
               = flat_map decoded_escape s).
  { subst u. clear Hu Hu'. induction Hs' as [|c s Hc Hs IH]; [reflexivity|].
    cbn [flat_map]. rewrite flat_map_app, IH.
    rewrite (proj1 (proj2 (escape_char_inert c Hc))). reflexivity. }
  assert (Hw : Forall (fun c => triggers c = false) (flat_map decoded_escape s)).
  { clear Hu Hu' Hv. induction Hs' as [|c s Hc Hs IH]; [constructor|].
    cbn [flat_map]. apply Forall_app. split; [|exact IH].
    apply (escape_char_inert c Hc). }
  unfold rtfToText, rtf_source. rewrite textToRtf_unfold, escape_rtf_chars.
  fold u. unfold strip_rtf.
  rewrite strip_header.
  rewrite rest_par, (replace_from_needs _ _ _ _ _ needs_trigger_par Hu').
  rewrite rest_line, (replace_from_needs _ _ _ _ _ needs_trigger_line Hu').
  rewrite rest_group,
    (replace_from_needs _ _ _ _ _
       (needs_trigger_group "fonttbl" ltac:(simpl; tauto)) Hu').
  rewrite rest_group,
    (replace_from_needs _ _ _ _ _
       (needs_trigger_group "colortbl" ltac:(simpl; tauto)) Hu').
  rewrite rest_group,
    (replace_from_needs _ _ _ _ _
       (needs_trigger_group "stylesheet" ltac:(simpl; tauto)) Hu').
  rewrite rest_control, (replace_from_needs _ _ _ _ _ needs_trigger_control Hu').
  unfold replace_all at 2. unfold Re.braces. rewrite replace_one.
  change (Ch.rbrace :: u ++ js "}") with ([Ch.rbrace] ++ u ++ [Ch.rbrace]).
  rewrite !flat_map_app, Hv.
  change (flat_map (fun x => if is_brace x then [] else [x]) [Ch.rbrace])
    with (@nil N).
  rewrite app_nil_r. cbn [app].
  assert (Hw' : Forall (fun c => ~ triggers c = true) (flat_map decoded_escape s)).
  { eapply Forall_impl; [exact Hw|]. intros c -> ?. discriminate. }
  unfold replace_all. rewrite (replace_from_needs _ _ _ _ _ needs_trigger_spaces Hw').
  rewrite trim_no_space.
  - unfold replace_all_with. apply (replace_from_needs _ _ _ _ _ needs_trigger_hex Hw').
  - eapply Forall_impl; [exact Hw|]. intros c Hc. unfold triggers in Hc.
    apply orb_false_iff in Hc as [_ Hc]. exact Hc.
Qed.

Lemma escapes_are_not_undone_witness :
  forallb (fun c => negb (triggers c)) (js "1{2}\3") = true
  /\ rtfToText (RtfString (textToRtf (js "1{2}\3"))) = js "1\2\\\3".
Proof.
  split; [reflexivity|].
  apply (escapes_are_not_undone (js "1{2}\3")). reflexivity.
Defined.

(** C6, evidence against the claim as stated: the text decoded for an open
    brace is a backslash, and a letter that follows a literal backslash is
    taken for a control word. *)
Lemma escaped_brace_is_not_recovered :
  rtfToText (RtfString (textToRtf (js "{"))) = js "\"
  /\ rtfToText (RtfString (textToRtf (js "{"))) !! O <> js "{" !! O
  /\ rtfToText (RtfString (textToRtf (js "a\b"))) = js "a\".
Proof. repeat split. vm_compute. discriminate. Qed.

(** ** Groups *)

Lemma map_set_keys {V} k (v : V) m :
  map fst (map_set k v m)
  = if decide (k ∈ map fst m) then map fst m else map fst m ++ [k].
Proof.
  induction m as [|[k' v'] m IH]; simpl.
  - destruct (decide (k ∈ [])) as [H|_]; [|reflexivity].
    apply elem_of_nil in H. destruct H.
  - destruct (decide (k' = k)) as [->|Hne]; simpl.
    + destruct (decide (k ∈ k :: map fst m)) as [_|H]; [reflexivity|].
      destruct H. apply elem_of_cons. left. reflexivity.
    + rewrite IH. destruct (decide (k ∈ map fst m)) as [H|H];
        destruct (decide (k ∈ k' :: map fst m)) as [H'|H']; try reflexivity.
      * destruct H'. apply elem_of_cons. right. exact H.
      * apply elem_of_cons in H' as [H'|H']; [congruence|contradiction].
Qed.

Lemma map_get_set {V} k (v : V) m : map_get k (map_set k v m) = Some v.
Proof.
  induction m as [|[k' v'] m IH]; simpl.
  - destruct (decide (k = k)); [reflexivity|congruence].
  - destruct (decide (k' = k)) as [->|Hne]; simpl.
    + destruct (decide (k = k)); [reflexivity|congruence].
    + destruct (decide (k' = k)); [congruence|exact IH].
Qed.

Lemma map_get_set_other {V} k k' (v : V) m :
  k' <> k -> map_get k (map_set k' v m) = map_get k m.
Proof.
  intros Hne. induction m as [|[k'' v'] m IH]; simpl.
  - destruct (decide (k' = k)); [congruence|reflexivity].
  - destruct (decide (k'' = k')) as [->|Hne']; simpl.
    + destruct (decide (k' = k)); [congruence|reflexivity].
    + destruct (decide (k'' = k)); [reflexivity|exact IH].
Qed.

Lemma unseen_ext s1 s2 l :
  (forall k, k ∈ s1 <-> k ∈ s2) -> unseen s1 l = unseen s2 l.
Proof.
  revert s1 s2. induction l as [|k l IH]; intros s1 s2 H; simpl; [reflexivity|].
  destruct (decide (k ∈ s1)) as [H1|H1]; destruct (decide (k ∈ s2)) as [H2|H2].
  - apply IH, H.
  - destruct H2. apply H, H1.
  - destruct H1. apply H, H2.
  - f_equal. apply IH. intros k'. rewrite !elem_of_cons, H. reflexivity.
Qed.

(** The keys after the loop: those already there, then the new names in
    the order of their first occurrence. *)
Lemma add_groups_keys cueMap gs m :
  map fst (fold_left (add_group cueMap) gs m)
  = map fst m ++ unseen (map fst m) (map groupName gs).
Proof.
  revert m. induction gs as [|g gs IH]; intros m; simpl.
  - rewrite app_nil_r. reflexivity.
  - rewrite IH. unfold add_group. rewrite map_set_keys.
    destruct (decide (groupName g ∈ map fst m)) as [H|H]; [reflexivity|].
    rewrite <- app_assoc. simpl. do 2 f_equal. apply unseen_ext.
    intros k. rewrite elem_of_app, !elem_of_cons, elem_of_nil. tauto.
Qed.

Lemma add_groups_keep cueMap gs m k :
  Forall (fun g => groupName g <> k) gs ->
  map_get k (fold_left (add_group cueMap) gs m) = map_get k m.
Proof.
  intros H. revert m. induction H as [|g gs Hg Hgs IH]; intros m; simpl.
  - reflexivity.
  - rewrite IH. apply map_get_set_other, Hg.
Qed.

(** The value under a name: the cues of the last group of that name. *)
Lemma add_groups_last cueMap pre g post m :
  Forall (fun g' => groupName g' <> groupName g) post ->
  map_get (groupName g) (fold_left (add_group cueMap) (pre ++ g :: post) m)
  = Some (resolve_ids cueMap (or_empty (cueIdentifiers g))).
Proof.
  intros H. rewrite fold_left_app. simpl.
  rewrite (add_groups_keep _ _ _ _ H). apply map_get_set.
Qed.

Lemma getCuesByGroup_fold p :
  getCuesByGroup p
  = fold_left (add_group (build_cueMap (or_empty (cues p))))
      (or_empty (cueGroups p)) [].
Proof. reflexivity. Qed.




(** ** UTF-8 *)

(** Decoding the bytes written for a scalar value gives it back. *)
Lemma decode_utf8_bytes cp rest :
  cp < 1114112 -> ~ (55296 <= cp <= 57343) ->
  utf8_decode_from Idle (utf8_bytes cp ++ rest)
  = emit_cp cp ++ utf8_decode_from Idle rest.
Proof.
  intros Hmax Hsur. unfold utf8_bytes.
  destruct (cp <? 128) eqn:E1; [apply N.ltb_lt in E1|apply N.ltb_ge in E1].
  { cbn [app utf8_decode_from]. unfold utf8_lead, emit_cp. settle_tests.
    reflexivity. }
  destruct (cp <? 2048) eqn:E2; [apply N.ltb_lt in E2|apply N.ltb_ge in E2].
  { cbn [app utf8_decode_from]. unfold utf8_lead, in_range. settle_tests.
    cbn [andb app]. settle_tests. cbn [andb]. do 2 f_equal. div_lia. }
  destruct (cp <? 65536) eqn:E3; [apply N.ltb_lt in E3|apply N.ltb_ge in E3].
  { cbn [app utf8_decode_from]. unfold utf8_lead, in_range. settle_tests.
    cbn [andb app].
    destruct (224 + cp / 4096 =? 224) eqn:Ea;
      [apply N.eqb_eq in Ea|apply N.eqb_neq in Ea];
      (destruct (224 + cp / 4096 =? 237) eqn:Eb;
        [apply N.eqb_eq in Eb|apply N.eqb_neq in Eb]);
      settle_tests; cbn [andb]; settle_tests; cbn [andb];
      do 2 f_equal; div_lia. }
  cbn [app utf8_decode_from]. unfold utf8_lead, in_range. settle_tests.
  cbn [andb app].
  destruct (240 + cp / 262144 =? 240) eqn:Ea;
    [apply N.eqb_eq in Ea|apply N.eqb_neq in Ea];
    (destruct (240 + cp / 262144 =? 244) eqn:Eb;
      [apply N.eqb_eq in Eb|apply N.eqb_neq in Eb]);
    settle_tests; cbn [andb]; settle_tests; cbn [andb]; settle_tests;
    cbn [andb]; do 2 f_equal; div_lia.
Qed.

Lemma emit_cp_unit c : c < 65536 -> emit_cp c = [c].
Proof. intros H. unfold emit_cp. apply N.ltb_lt in H. rewrite H. reflexivity. Qed.

Lemma emit_cp_pair c d :
  is_high_surrogate c = true -> is_low_surrogate d = true ->
  emit_cp (65536 + (c - 55296) * 1024 + (d - 56320)) = [c; d].
Proof.
  unfold is_high_surrogate, is_low_surrogate, in_range, emit_cp.
  intros Hc Hd.
  apply andb_true_iff in Hc as [Hc1 Hc2]. apply andb_true_iff in Hd as [Hd1 Hd2].
  apply N.leb_le in Hc1, Hc2, Hd1, Hd2.
  settle_tests. f_equal; [|f_equal]; div_lia.
Qed.

Lemma surrogate_range c :
  is_high_surrogate c = false -> is_low_surrogate c = false ->
  ~ (55296 <= c <= 57343).
Proof.
  unfold is_high_surrogate, is_low_surrogate, in_range.
  intros H1 H2 [Ha Hb].
  apply andb_false_iff in H1, H2.
  rewrite !N.leb_gt in H1, H2. lia.
Qed.

(** Decoding the bytes written for a well-formed string gives it back. *)
Lemma utf8_roundtrip_bounded n s :
  (length s <= n)%nat -> well_formed s = true ->
  buffer_toString (buffer_from s) = s.
Proof.
  unfold buffer_toString. revert s.
  induction n as [|n IH]; intros s Hn Hs.
  { destruct s; [reflexivity|simpl in Hn; lia]. }
  destruct s as [|c s]; [reflexivity|].
  cbn [well_formed buffer_from] in *.
  destruct (is_high_surrogate c) eqn:Eh.
  - destruct s as [|d s]; [discriminate|].
    apply andb_true_iff in Hs as [Hd Hs]. rewrite Hd.
    rewrite decode_utf8_bytes.
    + rewrite (emit_cp_pair c d Eh Hd), IH; [reflexivity| |exact Hs].
      simpl in Hn. lia.
    + unfold is_high_surrogate, is_low_surrogate, in_range in Eh, Hd.
      apply andb_true_iff in Eh as [? ?]. apply andb_true_iff in Hd as [? ?].
      rewrite ?N.leb_le in *. lia.
    + unfold is_high_surrogate, is_low_surrogate, in_range in Eh, Hd.
      apply andb_true_iff in Eh as [? ?]. apply andb_true_iff in Hd as [? ?].
      rewrite ?N.leb_le in *. lia.
  - apply andb_true_iff in Hs as [Hc Hs]. apply andb_true_iff in Hc as [Hl Hc].
    apply negb_true_iff in Hl. rewrite Hl. apply N.ltb_lt in Hc.
    rewrite decode_utf8_bytes.
    + rewrite (emit_cp_unit c Hc), IH; [reflexivity| |exact Hs].
      simpl in Hn. lia.
    + lia.
    + apply surrogate_range; assumption.
Qed.

Lemma utf8_roundtrip s :
  well_formed s = true -> buffer_toString (buffer_from s) = s.
Proof. apply (utf8_roundtrip_bounded (length s)). lia. Qed.

Lemma well_formed_app_bounded n s t :
  (length s <= n)%nat ->
  well_formed s = true -> well_formed t = true -> well_formed (s ++ t) = true.
Proof.
  revert s. induction n as [|n IH]; intros s Hn Hs Ht.
  { destruct s; [exact Ht|simpl in Hn; lia]. }
  destruct s as [|c s]; [exact Ht|].
  cbn [well_formed app] in *.
  destruct (is_high_surrogate c).
  - destruct s as [|d s]; [discriminate|].
    apply andb_true_iff in Hs as [Hd Hs]. cbn [app]. rewrite Hd. simpl.
    apply IH; [simpl in Hn; lia|exact Hs|exact Ht].
  - apply andb_true_iff in Hs as [Hc Hs]. rewrite Hc. simpl.
    apply IH; [simpl in Hn; lia|exact Hs|exact Ht].
Qed.

Lemma well_formed_app s t :
  well_formed s = true -> well_formed t = true -> well_formed (s ++ t) = true.
Proof. apply (well_formed_app_bounded (length s)). lia. Qed.

(** ** Finding the slide and the text element *)

(** A list of actions either has no presentation slide, or splits at the
    first action that has one. *)
Lemma first_slide_cases (l : list Action) :
  (Forall no_slide l /\ first_slide l = None)
  \/ exists pre a post sa s,
       l = pre ++ a :: post /\ Forall no_slide pre
       /\ slide a = Some sa /\ presentation sa = Some s
       /\ first_slide l = Some s.
Proof.
  induction l as [|a l IH]; [left; split; [constructor|reflexivity]|].
  cbn [first_slide]. destruct (action_presentation a) as [s|] eqn:Ea.
  - right. unfold action_presentation in Ea.
    destruct (slide a) as [sa|] eqn:Es; [|discriminate].
    exists [], a, l, sa, s. repeat split; try assumption. constructor.
  - destruct IH as [[H1 H2]|(pre & b & post & sa & s & -> & Hpre & Hb & Hs & Hf)].
    + left. split; [constructor; assumption|exact H2].
    + right. exists (a :: pre), b, post, sa, s.
      repeat split; try assumption. constructor; assumption.
Qed.

Lemma first_slide_split pre a post sa s :
  Forall no_slide pre -> slide a = Some sa -> presentation sa = Some s ->
  first_slide (pre ++ a :: post) = Some s.
Proof.
  intros Hpre Ha Hs. induction Hpre as [|b pre Hb Hpre IH]; cbn [app first_slide].
  - unfold action_presentation. rewrite Ha, Hs. reflexivity.
  - rewrite Hb. exact IH.
Qed.

Lemma set_first_slide_none l t :
  Forall no_slide l -> set_first_slide l t = None.
Proof.
  induction 1 as [|a l Ha Hl IH]; [reflexivity|].
  cbn [set_first_slide]. unfold no_slide, action_presentation in Ha.
  destruct (slide a) as [sa|]; [rewrite Ha|]; rewrite IH; reflexivity.
Qed.

Lemma set_first_slide_split pre a post sa s t :
  Forall no_slide pre -> slide a = Some sa -> presentation sa = Some s ->
  set_first_slide (pre ++ a :: post) t
  = Some ((setSlideText s t).1,
          pre ++ with_slide a (with_presentation sa (setSlideText s t).2) :: post).
Proof.
  intros Hpre Ha Hs. induction Hpre as [|b pre Hb Hpre IH];
    cbn [app set_first_slide].
  - rewrite Ha, Hs. destruct (setSlideText s t). reflexivity.
  - unfold no_slide, action_presentation in Hb.
    destruct (slide b) as [sb|]; [rewrite Hb|]; rewrite IH; reflexivity.
Qed.

(** A list of elements either has no element with [rtfData], or splits at
    the first one that has. *)
Lemma first_text_cases (l : list SlideElement) :
  Forall no_rtf l
  \/ exists pre e post ge te,
       l = pre ++ e :: post /\ Forall no_rtf pre
       /\ element e = Some ge /\ text ge = Some te /\ is_Some (rtfData te).
Proof.
  induction l as [|e l IH]; [left; constructor|].
  destruct (element_text e) as [te|] eqn:Ee.
  - right. unfold element_text in Ee.
    destruct (element e) as [ge|] eqn:E1; [|discriminate].
    destruct (text ge) as [te'|] eqn:E2; [|discriminate].
    destruct (rtfData te') as [b|] eqn:E3; [|discriminate].
    exists [], e, l, ge, te'. repeat split; try assumption; [constructor|eauto].
  - destruct IH as [H|(pre & e' & post & ge & te & -> & Hpre & H1 & H2 & H3)].
    + left. constructor; assumption.
    + right. exists (e :: pre), e', post, ge, te.
      repeat split; try assumption. constructor; assumption.
Qed.

Lemma element_text_some e ge te :
  element e = Some ge -> text ge = Some te -> is_Some (rtfData te) ->
  element_text e = Some te.
Proof.
  intros H1 H2 [b H3]. unfold element_text. rewrite H1, H2, H3. reflexivity.
Qed.

Lemma omap_no_rtf l : Forall no_rtf l -> omap element_text l = [].
Proof.
  induction 1 as [|e l He Hl IH]; [reflexivity|].
  cbn [omap list_omap]. rewrite He. exact IH.
Qed.

Lemma no_rtf_omap l : omap element_text l = [] -> Forall no_rtf l.
Proof.
  induction l as [|e l IH]; [constructor|].
  cbn [omap list_omap]. destruct (element_text e) eqn:Ee; [discriminate|].
  intros H. constructor; [exact Ee|apply IH, H].
Qed.

Lemma set_first_text_none l b : Forall no_rtf l -> set_first_text l b = (false, l).
Proof.
  induction 1 as [|e l He Hl IH]; [reflexivity|].
  cbn [set_first_text]. rewrite He, IH. reflexivity.
Qed.

Lemma set_first_text_split pre e post ge te b :
  Forall no_rtf pre ->
  element e = Some ge -> text ge = Some te -> is_Some (rtfData te) ->
  set_first_text (pre ++ e :: post) b
  = (true, pre ++ with_element e (with_text ge (with_rtfData te b)) :: post).
Proof.
  intros Hpre H1 H2 H3. induction Hpre as [|e' pre He Hpre IH];
    cbn [app set_first_text].
  - rewrite (element_text_some e ge te H1 H2 H3).
    unfold set_element_rtf. rewrite H1, H2. reflexivity.
  - rewrite He, IH. reflexivity.
Qed.

(** Without an element that carries [rtfData], [setSlideText] fails and
    leaves the slide as it is. *)
Lemma setSlideText_none s t :
  getSlideTextElements s = [] -> setSlideText s t = (false, s).
Proof.
  unfold getSlideTextElements, setSlideText. intros H.
  destruct (elements s) as [l|]; [|reflexivity].
  rewrite (set_first_text_none l _ (no_rtf_omap l H)). reflexivity.
Qed.

Lemma setCueText_not_found cue t :
  match getCueSlide cue with
  | Some s => getSlideTextElements s = []
  | None => True
  end ->
  setCueText cue t = (false, cue).
Proof.
  unfold getCueSlide, setCueText.
  destruct (actions cue) as [l|]; [|reflexivity].
  change (or_empty (Some l)) with l.
  destruct (first_slide_cases l)
    as [[Hl Hf]|(pre & a & post & sa & s & -> & Hpre & Ha & Hs & Hf)];
    rewrite Hf; intros H.
  - rewrite (set_first_slide_none l t Hl). reflexivity.
  - rewrite (set_first_slide_split pre a post sa s t Hpre Ha Hs).
    rewrite (setSlideText_none s t H). reflexivity.
Qed.

(** ** Resolving identifiers *)

Lemma cueMap_fold_lookup (l : list Cue) (m : gmap jsstring Cue) k :
  fold_left
    (fun m c => match cue_key c with Some k => <[k := c]> m | None => m end)
    l m !! k = None
  <-> m !! k = None /\ Forall (fun c => cue_key c <> Some k) l.
Proof.
  revert m. induction l as [|c l IH]; intros m; cbn [fold_left].
  - split; [intros H; split; [exact H|constructor]|intros [H _]; exact H].
  - rewrite IH. destruct (cue_key c) as [k'|] eqn:Ek.
    + destruct (decide (k' = k)) as [->|Hne].
      * rewrite lookup_insert_eq. split; [intros [H _]; discriminate|].
        intros [_ H]. apply Forall_cons in H as [H _]. destruct (H Ek).
      * rewrite lookup_insert_ne by exact Hne. rewrite Forall_cons, Ek.
        split; [intros [H1 H2]; repeat split; [exact H1|congruence|exact H2]|].
        intros [H1 [_ H2]]. split; assumption.
    + rewrite Forall_cons, Ek. split; [intros [H1 H2]; repeat split;
        [exact H1|discriminate|exact H2]|].
      intros [H1 [_ H2]]. split; assumption.
Qed.

(** An identifier is dangling exactly when no cue of the list has it. *)
Lemma build_cueMap_dangling l k :
  build_cueMap l !! k = None <-> Forall (fun c => cue_key c <> Some k) l.
Proof.
  unfold build_cueMap. rewrite cueMap_fold_lookup, lookup_empty. tauto.
Qed.

Lemma resolve_ids_dangling m ids1 id ids2 :
  m !! uuid_string id = None ->
  resolve_ids m (ids1 ++ id :: ids2) = resolve_ids m ids1 ++ resolve_ids m ids2.
Proof.
  intros H. unfold resolve_ids. rewrite omap_app. cbn [omap list_omap].
  rewrite H. reflexivity.
Qed.

Lemma map_get_key {V} k (m : JsMap V) : k ∈ map fst m -> is_Some (map_get k m).
Proof.
  induction m as [|[k' v] m IH]; cbn [map fst map_get].
  - intros H. apply elem_of_nil in H. destruct H.
  - intros H. destruct (decide (k' = k)); [eauto|].
    apply elem_of_cons in H as [H|H]; [congruence|apply IH, H].
Qed.

Lemma unseen_covers seen l k : k ∈ l -> k ∈ seen ++ unseen seen l.
Proof.
  revert seen. induction l as [|k' l IH]; intros seen H.
  - apply elem_of_nil in H. destruct H.
  - cbn [unseen]. apply elem_of_cons in H as [->|H].
    + destruct (decide (k' ∈ seen)) as [Hs|Hs].
      * apply elem_of_app. left. exact Hs.
      * apply elem_of_app. right. apply elem_of_cons. left. reflexivity.
    + destruct (decide (k' ∈ seen)) as [Hs|Hs]; [apply IH, H|].
      specialize (IH (k' :: seen) H).
      rewrite elem_of_app, elem_of_cons in IH. rewrite elem_of_app, elem_of_cons.
      tauto.
Qed.

(** Every group has its name among the keys. *)
Lemma getCuesByGroup_has_group p g :
  g ∈ or_empty (cueGroups p) ->
  is_Some (map_get (groupName g) (getCuesByGroup p)).
Proof.
  intros H. apply map_get_key. rewrite getCuesByGroup_fold, add_groups_keys.
  apply (unseen_covers [] _ (groupName g)).
  apply list_elem_of_fmap. exists g. split; [reflexivity|exact H].
Qed.

(** ** Text of a cue *)

Lemma getCueText_split cue pre a post sa s :
  or_empty (actions cue) = pre ++ a :: post ->
  Forall no_slide pre -> slide a = Some sa -> presentation sa = Some s ->
  getCueText cue = getSlideText s.
Proof.
  intros Hl Hpre Ha Hs. unfold getCueText, getCueSlide.
  rewrite Hl, (first_slide_split pre a post sa s Hpre Ha Hs). reflexivity.
Qed.

(** C2, as amended: [getCueText] looks at one slide only, the presentation
    slide of the first action that has one, and returns the decoded texts
    of all the elements of that slide that carry [rtfData], in order, the
    non-empty ones joined by line feeds; it returns the empty string when
    no action has a presentation slide. *)
Theorem getCueText_first_slide (cue : Cue) :
  (Forall no_slide (or_empty (actions cue)) -> getCueText cue = [])
  /\ forall pre a post sa s,
       or_empty (actions cue) = pre ++ a :: post ->
       Forall no_slide pre -> slide a = Some sa -> presentation sa = Some s ->
       getCueText cue
       = join [Ch.newline]
           (filter (fun t : jsstring => (0 < length t)%nat)
              (map text_of_element
                 (omap element_text (or_empty (elements s))))).
Proof.
  split.
  - intros H. unfold getCueText, getCueSlide.
    destruct (first_slide_cases (or_empty (actions cue)))
      as [[_ ->]|(pre & a & post & sa & s & E & Hpre & Ha & Hs & _)];
      [reflexivity|].
    rewrite E in H. apply Forall_app in H as [_ H].
    apply Forall_cons in H as [H _].
    unfold no_slide, action_presentation in H. rewrite Ha, Hs in H. discriminate.
  - intros pre a post sa s Hl Hpre Ha Hs.
    rewrite (getCueText_split cue pre a post sa s Hl Hpre Ha Hs). reflexivity.
Qed.

Lemma getCueText_first_slide_witness :
  getCueText Sample.cue_two_boxes = js "Title" ++ [Ch.newline] ++ js "Body".
Proof.
  refine (eq_trans
            (proj2 (getCueText_first_slide Sample.cue_two_boxes) []
               (Sample.slide_action
                  (Sample.slide_of [Sample.text_box "Title"; Sample.text_box "Body"]))
               [] _ _ eq_refl (List.Forall_nil _) eq_refl eq_refl) _).
  vm_compute. reflexivity.
Defined.

(** C2, evidence against the claim as stated: on a slide with two text
    boxes the text of the cue holds both, not only the first. *)
Lemma getCueText_is_not_first_element :
  Spec.textOf Sample.cue_two_boxes = js "Title"
  /\ getCueText Sample.cue_two_boxes = js "Title" ++ [Ch.newline] ++ js "Body"
  /\ getCueText Sample.cue_two_boxes <> Spec.textOf Sample.cue_two_boxes.
Proof. repeat split. vm_compute. discriminate. Qed.

(** ** Not found *)

(** C8, as amended: [setCueText] returns [false] and leaves the cue as it
    is when the cue has no presentation slide, or when no element of its
    first presentation slide carries an [rtfData] value (an element whose
    [rtfData] is present but empty counts as carrying one).  In
    [getCuesByGroup], an identifier that no cue of the presentation has is
    left out of the cues of its group, the others are resolved in order,
    and every group still has an entry under its name. *)
Theorem not_found_is_a_result :
  (forall cue t,
     match getCueSlide cue with
     | Some s => getSlideTextElements s = []
     | None => True
     end ->
     setCueText cue t = (false, cue))
  /\ (forall p pre g post ids1 id ids2,
        or_empty (cueGroups p) = pre ++ g :: post ->
        Forall (fun g' => groupName g' <> groupName g) post ->
        or_empty (cueIdentifiers g) = ids1 ++ id :: ids2 ->
        Forall (fun c => cue_key c <> Some (uuid_string id)) (or_empty (cues p)) ->
        let cueMap := build_cueMap (or_empty (cues p)) in
        map_get (groupName g) (getCuesByGroup p)
        = Some (resolve_ids cueMap ids1 ++ resolve_ids cueMap ids2)
        /\ forall g', g' ∈ or_empty (cueGroups p) ->
             is_Some (map_get (groupName g') (getCuesByGroup p))).
Proof.
  split; [exact setCueText_not_found|].
  intros p pre g post ids1 id ids2 Hg Hpost Hids Hid cueMap. split.
  - rewrite getCuesByGroup_fold, Hg, (add_groups_last _ _ _ _ _ Hpost), Hids.
    rewrite resolve_ids_dangling; [reflexivity|].
    apply build_cueMap_dangling, Hid.
  - intros g'. apply getCuesByGroup_has_group.
Qed.

Lemma not_found_is_a_result_witness :
  setCueText Sample.cue_no_text (js "x") = (false, Sample.cue_no_text)
  /\ (map cue_key <$> map_get (js "Verse") (getCuesByGroup Sample.dangling))
     = Some [Some (js "c1"); Some (js "c2")].
Proof.
  destruct not_found_is_a_result as [Hset Hgroup]. split.
  - apply (Hset Sample.cue_no_text (js "x")). reflexivity.
  - refine (eq_trans
              (f_equal (fmap (map cue_key))
                 (proj1 (Hgroup Sample.dangling []
                           (Sample.cue_group "Verse" ["c1"; "gone"; "c2"]%string)
                           [Sample.cue_group "Chorus" ["c3"%string]]
                           [mkUUID (js "c1")] (mkUUID (js "gone"))
                           [mkUUID (js "c2")] eq_refl _ eq_refl _))) _).
    + repeat constructor. vm_compute. discriminate.
    + repeat constructor; vm_compute; discriminate.
    + vm_compute. reflexivity.
Defined.

(** C8, evidence against the claim as stated: a cue whose only element has
    an empty [rtfData] has no text-bearing element in the design document's
    sense, yet [setCueText] succeeds on it and changes it. *)
Lemma setCueText_fills_empty_rtf :
  Spec.firstTextElement Sample.cue_empty_rtf = None
  /\ (setCueText Sample.cue_empty_rtf (js "x")).1 = true
  /\ (setCueText Sample.cue_empty_rtf (js "x")).2 <> Sample.cue_empty_rtf.
Proof.
  repeat split. intros H. apply (f_equal getCueText) in H.
  vm_compute in H. discriminate.
Qed.

(** ** Setting the text of a cue *)

(** The bytes written by [setSlideText] decode to the string they were
    made from. *)
Lemma decode_written_bytes t :
  plain_text t = true -> well_formed t = true ->
  rtfToText (RtfBytes (buffer_from (textToRtf t))) = t.
Proof.
  intros Hp Hw. rewrite <- (decode_written_plain t Hp) at 2.
  unfold rtfToText, rtf_source. rewrite utf8_roundtrip; [reflexivity|].
  destruct (plain_text_facts t Hp) as (Hm & Hn & _).
  rewrite textToRtf_unfold, (escape_rtf_plain t Hm Hn).
  apply well_formed_app; [reflexivity|].
  apply well_formed_app; [exact Hw|reflexivity].
Qed.

Lemma filter_empty_texts (l : list TextElement) :
  Forall (fun te => text_of_element te = []) l ->
  filter (fun t : jsstring => (0 < length t)%nat) (map text_of_element l) = [].
Proof.
  induction 1 as [|te l Hte Hl IH]; [reflexivity|].
  cbn [map]. rewrite filter_cons, Hte, IH.
  destruct (decide (0 < length (@nil N))%nat) as [H|_]; [simpl in H; lia|reflexivity].
Qed.

(** The text of a slide whose first element with [rtfData] holds the bytes
    written for [t], the later ones holding no text. *)
Lemma getSlideText_after_set s epre e epost ge te t :
  Forall no_rtf epre ->
  plain_text t = true -> well_formed t = true ->
  Forall (fun te' => text_of_element te' = []) (omap element_text epost) ->
  getSlideText
    (with_elements s
       (epre ++ with_element e
                  (with_text ge (with_rtfData te (buffer_from (textToRtf t))))
             :: epost))
  = t.
Proof.
  intros Hpre Hp Hw Hpost. unfold getSlideText, getSlideTextElements.
  cbn [with_elements elements or_empty from_option id].
  rewrite omap_app, (omap_no_rtf epre Hpre). cbn [app omap list_omap].
  cbn [element_text with_element element with_text text with_rtfData rtfData].
  cbn [map]. unfold text_of_element at 1.
  change (default [] (rtfData (with_rtfData te (buffer_from (textToRtf t)))))
    with (buffer_from (textToRtf t)).
  rewrite (decode_written_bytes t Hp Hw).
  rewrite filter_cons, (filter_empty_texts _ Hpost).
  destruct t as [|c t]; [reflexivity|].
  destruct (decide (0 < length (c :: t))%nat) as [_|H]; [reflexivity|].
  simpl in H. lia.
Qed.

(** C4, as amended: when [setCueText(cue, t)] returns [true], the cue
    afterwards is the cue before with one change: in the presentation slide
    of the first action that has one, the first element carrying [rtfData]
    now holds the bytes of [textToRtf(t)]; the number and order of actions
    and elements and every other attribute are as before.  [getCueText]
    then returns [t] provided [t] is plain text (no backslash, no brace, no
    white space other than single inner spaces) in well-formed UTF-16 and
    the later elements of that slide decode to no text. *)
Theorem setCueText_success (cue : Cue) (t : jsstring) (cue' : Cue) :
  setCueText cue t = (true, cue') ->
  exists pre a post sa s epre e epost ge te,
    actions cue = Some (pre ++ a :: post)
    /\ Forall no_slide pre /\ slide a = Some sa /\ presentation sa = Some s
    /\ elements s = Some (epre ++ e :: epost)
    /\ Forall no_rtf epre
    /\ element e = Some ge /\ text ge = Some te /\ is_Some (rtfData te)
    /\ cue'
       = with_actions cue
           (pre ++
            with_slide a
              (with_presentation sa
                 (with_elements s
                    (epre ++
                     with_element e
                       (with_text ge
                          (with_rtfData te (buffer_from (textToRtf t))))
                     :: epost)))
            :: post)
    /\ (plain_text t = true -> well_formed t = true ->
        Forall (fun te' => text_of_element te' = [])
          (omap element_text epost) ->
        getCueText cue' = t).
Proof.
  unfold setCueText. destruct (actions cue) as [l|] eqn:El; [|discriminate].
  destruct (first_slide_cases l)
    as [[Hl _]|(pre & a & post & sa & s & -> & Hpre & Ha & Hs & _)].
  { rewrite (set_first_slide_none l t Hl). discriminate. }
  rewrite (set_first_slide_split pre a post sa s t Hpre Ha Hs).
  unfold setSlideText. destruct (elements s) as [es|] eqn:Ees; [|discriminate].
  destruct (first_text_cases es)
    as [Hes|(epre & e & epost & ge & te & -> & Hepre & He & Hge & Hte)].
  { rewrite (set_first_text_none es _ Hes). discriminate. }
  rewrite (set_first_text_split epre e epost ge te _ Hepre He Hge Hte).
  cbn [fst snd]. intros [= <-].
  exists pre, a, post, sa, s, epre, e, epost, ge, te.
  repeat split; try assumption.
  intros Hp Hw Hpost.
  erewrite getCueText_split;
    [apply (getSlideText_after_set s epre e epost ge te t Hepre Hp Hw Hpost)
    |reflexivity|exact Hpre|reflexivity|reflexivity].
Qed.

Lemma setCueText_success_witness :
  exists cue',
    setCueText (Sample.cue_one "c" "old words") (js "new words") = (true, cue')
    /\ getCueText cue' = js "new words".
Proof.
  eexists. split; [reflexivity|].
  destruct (setCueText_success (Sample.cue_one "c" "old words")
              (js "new words") _ eq_refl)
    as (pre & a & post & sa & s & epre & e & epost & ge & te
        & Hl & Hpre & Ha & Hs & Hes & Hepre & He & Hge & Hte & _ & Htext).
  apply Htext; [reflexivity|reflexivity|].
  destruct epre as [|e0 epre].
  - vm_compute in Hl. destruct pre as [|a0 pre].
    + injection Hl as <- <-. vm_compute in Ha. injection Ha as <-.
      vm_compute in Hs. injection Hs as <-.
      vm_compute in Hes. injection Hes as <- <-. constructor.
    + injection Hl as <- Hl. vm_compute in Hpre.
      apply Forall_cons in Hpre as [Hpre _]. discriminate Hpre.
  - vm_compute in Hl. destruct pre as [|a0 pre].
    + injection Hl as <- <-. vm_compute in Ha. injection Ha as <-.
      vm_compute in Hs. injection Hs as <-.
      vm_compute in Hes. injection Hes as <- Hes.
      destruct epre; discriminate Hes.
    + injection Hl as <- Hl. vm_compute in Hpre.
      apply Forall_cons in Hpre as [Hpre _]. discriminate Hpre.
Defined.

(** C4, evidence against the claim as stated: [setCueText] succeeds with a
    text that has two spaces in a row, and [getCueText] then returns it
    with one. *)
Lemma setCueText_text_differs :
  (setCueText (Sample.cue_one "c" "old") (js "a  b")).1 = true
  /\ getCueText (setCueText (Sample.cue_one "c" "old") (js "a  b")).2 = js "a b"
  /\ getCueText (setCueText (Sample.cue_one "c" "old") (js "a  b")).2 <> js "a  b".
Proof. repeat split. vm_compute. discriminate. Qed.

(** ** The length of the decoded text *)

Lemma replace_from_length r f skip prev s :
  (forall m, (length (f m) <= 1)%nat) ->
  (length (replace_from r f skip prev s) <= length s)%nat.
Proof.
  intros Hf. revert skip prev.
  induction s as [|c s IH]; intros skip prev; cbn [replace_from]; [lia|].
  destruct skip as [|n].
  - destruct (match_here r prev (c :: s)) as [[|n]|].
    + cbn [length]. specialize (IH O (Some c)). lia.
    + rewrite length_app. cbn [length].
      specialize (IH n (Some c)). specialize (Hf (take (S n) (c :: s))). lia.
    + cbn [length]. specialize (IH O (Some c)). lia.
  - cbn [length]. specialize (IH n (Some c)). lia.
Qed.

Lemma replace_all_length r by_ s :
  (length by_ <= 1)%nat -> (length (replace_all r by_ s) <= length s)%nat.
Proof. intros H. apply replace_from_length. intros _. exact H. Qed.

Lemma replace_prefix_length r s :
  (length (replace_prefix r [] s) <= length s)%nat.
Proof.
  unfold replace_prefix. destruct (match_here r None s) as [n|]; [|lia].
  cbn [app]. rewrite length_drop. lia.
Qed.

Lemma trim_start_length s : (length (trim_start s) <= length s)%nat.
Proof.
  induction s as [|c s IH]; cbn [trim_start]; [lia|].
  destruct (is_space c); cbn [length]; lia.
Qed.

Lemma trim_length s : (length (trim s) <= length s)%nat.
Proof.
  unfold trim, trim_end. rewrite length_rev.
  etransitivity; [apply trim_start_length|].
  rewrite length_rev. apply trim_start_length.
Qed.

Lemma strip_rtf_length s : (length (strip_rtf s) <= length s)%nat.
Proof.
  unfold strip_rtf.
  repeat first
    [ etransitivity; [apply trim_length|]
    | etransitivity; [apply replace_all_length; vm_compute; lia|]
    | apply replace_prefix_length ].
Qed.

Lemma emit_cp_length cp : (length (emit_cp cp) <= 2)%nat.
Proof. unfold emit_cp. destruct (cp <? 65536); cbn [length]; lia. Qed.

Lemma utf8_lead_cases b :
  (exists c, utf8_lead b = ([c], Idle))
  \/ exists cp n lo hi, utf8_lead b = ([], Pending cp n lo hi).
Proof.
  unfold utf8_lead.
  destruct (b <=? 127); [left; eauto|].
  destruct (in_range 194 223 b); [right; eauto|].
  destruct (in_range 224 239 b); [right; eauto|].
  destruct (in_range 240 244 b); [right; eauto|left; eauto].
Qed.

(** Decoding yields at most one code unit for each byte. *)
Lemma utf8_decode_length bs :
  forall st,
    (length (utf8_decode_from st bs)
     <= length bs + match st with Idle => 0 | Pending _ _ _ _ => 1 end)%nat.
Proof.
  induction bs as [|b bs IH]; intros st; cbn [utf8_decode_from].
  - destruct st; cbn [length]; lia.
  - destruct st as [|cp n lo hi].
    + destruct (utf8_lead_cases b) as [[c ->]|(cp & n & lo & hi & ->)];
        cbn [app length].
      * specialize (IH Idle). cbv iota in IH. lia.
      * specialize (IH (Pending cp n lo hi)). cbv iota in IH. lia.
    + destruct (in_range lo hi b).
      * destruct n as [|[|n]].
        -- rewrite length_app. pose proof (emit_cp_length (cp * 64 + b mod 64)).
           specialize (IH Idle). cbv iota in IH. cbn [length]. lia.
        -- rewrite length_app. pose proof (emit_cp_length (cp * 64 + b mod 64)).
           specialize (IH Idle). cbv iota in IH. cbn [length]. lia.
        -- specialize (IH (Pending (cp * 64 + b mod 64) (S n) 128 191)).
           cbv iota in IH. cbn [length]. lia.
      * destruct (utf8_lead_cases b) as [[c ->]|(cp' & n' & lo' & hi' & ->)];
          cbn [app length].
        -- specialize (IH Idle). cbv iota in IH. lia.
        -- specialize (IH (Pending cp' n' lo' hi')). cbv iota in IH. lia.
Qed.

(** Malformed markup: an unclosed header, unbalanced braces, a stray
    backslash, an escape without digits, an ill-formed byte. *)
Lemma rtfToText_malformed :
  rtfToText (RtfString (js "{\rtf1\ansi")) = js ""
  /\ rtfToText (RtfString (js "}}{ a {{\b0")) = js "a"
  /\ rtfToText (RtfString (js "x\")) = js "x\"
  /\ rtfToText (RtfString (js "\'4g\'41")) = js "\'4gA"
  /\ rtfToText (RtfBytes [104; 105; 255]) = js "hi" ++ [Ch.replacement].
Proof. repeat split. Qed.

(** ** Created presentations *)

Section ForEach.
Context {X Y : Type} (f : nat -> X -> Gen Y).

Lemma for_each_cons i a l n :
  for_each f i (a :: l) n
  = let '(b, n1) := f i a n in
    let '(bs, n2) := for_each f (S i) l n1 in (b :: bs, n2).
Proof.
  cbn [for_each]. unfold mbind, Gen_bind, mret, Gen_ret.
  destruct (f i a n) as [b n1]. destruct (for_each f (S i) l n1). reflexivity.
Qed.

(** A property of each call holds of each result, paired with its
    argument. *)
Lemma for_each_Forall2 (R : X -> Y -> Prop) l :
  (forall i a n, R a (f i a n).1) ->
  forall i n, Forall2 R l (for_each f i l n).1.
Proof.
  intros Hf. induction l as [|a l IH]; intros i n.
  - constructor.
  - rewrite for_each_cons. specialize (Hf i a n).
    destruct (f i a n) as [b n1]. specialize (IH (S i) n1).
    destruct (for_each f (S i) l n1) as [bs n2]. constructor; assumption.
Qed.

Lemma for_each_length l i n : length (for_each f i l n).1 = length l.
Proof.
  symmetry. eapply Forall2_length. apply (for_each_Forall2 (fun _ _ => True)).
  intros; exact I.
Qed.

Lemma for_each_Forall (P : Y -> Prop) l :
  (forall i a n, P (f i a n).1) -> forall i n, Forall P (for_each f i l n).1.
Proof.
  intros Hf i n.
  pose proof (for_each_Forall2 (fun _ b => P b) l Hf i n) as H.
  induction H; constructor; assumption.
Qed.
End ForEach.

Section Created.
Variable random : nat -> N.

Lemma generateUuid_length n :
  length (uuid_string (generateUuid random n).1) = 36%nat.
Proof.
  unfold generateUuid, mbind, Gen_bind, mret, Gen_ret.
  pose proof (for_each_length (fun _ => uuid_char random)
                (js "xxxxxxxx-xxxx-4xxx-yxxx-xxxxxxxxxxxx") O n) as H.
  destruct (for_each _ _ _ n) as [s n']. exact H.
Qed.

Lemma createCue_identified name t options chords n :
  identified (createCue random name t options chords n).1.
Proof.
  unfold createCue, mbind, Gen_bind, mret, Gen_ret.
  destruct (createSlide random t options chords n) as [sl n1].
  destruct (generateUuid random n1) as [au n2].
  pose proof (generateUuid_length n2) as H.
  destruct (generateUuid random n2) as [cu n3]. cbn [fst] in *.
  exists cu. split; [reflexivity|].
  intros E. rewrite E in H. discriminate H.
Qed.

Lemma map_non_null l :
  Forall identified l ->
  map Some (map (fun cue => non_null (cue_uuid cue)) l) = map cue_uuid l.
Proof.
  induction 1 as [|c l (u & Hu & _) Hl IH]; [reflexivity|].
  cbn [map]. rewrite IH, Hu. reflexivity.
Qed.

Lemma create_section_built options i section n :
  section_built section (create_section random options i section n).1.
Proof.
  unfold create_section, mbind, Gen_bind, mret, Gen_ret.
  destruct (generateUuid random n) as [gu n1].
  pose proof (for_each_length (create_slide_cue random options section)
                (slides section) O n1) as Hlen.
  pose proof (for_each_Forall (create_slide_cue random options section)
                identified (slides section)
                (fun i a n => createCue_identified _ _ _ _ _) O n1) as Hid.
  destruct (for_each _ _ _ n1) as [created n2].
  unfold section_built. cbn [fst snd] in *.
  repeat split; [exact Hlen|exact Hid|].
  cbn [cueIdentifiers fmap option_fmap option_map].
  rewrite (map_non_null created Hid). reflexivity.
Qed.
End Created.

Section Presentation.
Variable random : nat -> N.

(** The cue list and the groups of a created presentation come from the
    same pass over the sections. *)
Lemma createPresentation_shape options n :
  exists built,
    Forall2 (section_built) (sections options) built
    /\ cues (createPresentation random options n).1
       = Some (concat (map (fun b => b.1.1) built))
    /\ cueGroups (createPresentation random options n).1
       = Some (map (fun b => b.1.2) built).
Proof.
  pose proof (for_each_Forall2 (create_section random options) section_built
                (sections options)
                (fun i a n => create_section_built random options i a n)
                O n) as H.
  unfold createPresentation, mbind, Gen_bind, mret, Gen_ret.
  destruct (for_each _ _ _ n) as [built n1]. cbn [fst] in H.
  exists built. split; [exact H|].
  destruct (generateUuid random n1) as [u n2].
  destruct (createArrangement options) as [[|]|];
    try destruct (generateUuid random n2) as [au n3]; split; reflexivity.
Qed.

Lemma built_lengths secs built :
  Forall2 section_built secs built ->
  Forall2 (fun section cs => length cs = length (slides section))
    secs (map (fun b => b.1.1) built)
  /\ Forall2 (fun g cs =>
                (map Some <$> cueIdentifiers g) = Some (map cue_uuid cs))
       (map (fun b => b.1.2) built) (map (fun b => b.1.1) built)
  /\ Forall identified (concat (map (fun b => b.1.1) built))
  /\ length (concat (map (fun b => b.1.1) built))
     = sum_list (map (fun s => length (slides s)) secs).
Proof.
  induction 1 as [|s b secs built (Hlen & Hid & Hg) H (IH1 & IH2 & IH3 & IH4)];
    cbn [map concat sum_list].
  - repeat split; constructor.
  - repeat split; try (constructor; assumption).
    + apply Forall_app. split; assumption.
    + cbn [sum_list_with]. rewrite length_app, Hlen.
      f_equal. exact IH4.
Qed.

(** An identifier that some cue of the list has, as a non-empty string,
    resolves. *)
Lemma build_cueMap_resolves l c u :
  c ∈ l -> cue_uuid c = Some u -> uuid_string u <> [] ->
  is_Some (build_cueMap l !! uuid_string u).
Proof.
  intros Hc Hu Hne.
  destruct (build_cueMap l !! uuid_string u) as [c'|] eqn:E; [eauto|].
  apply build_cueMap_dangling in E. rewrite Forall_forall in E.
  destruct (E c Hc). unfold cue_key. rewrite Hu.
  destruct (uuid_string u); [destruct (Hne eq_refl)|reflexivity].
Qed.

Lemma resolve_ids_all m ids :
  Forall (fun id => is_Some (m !! uuid_string id)) ids ->
  length (resolve_ids m ids) = length ids.
Proof.
  unfold resolve_ids. induction 1 as [|id ids [c Hc] Hids IH]; [reflexivity|].
  cbn [omap list_omap]. rewrite Hc. cbn [length]. f_equal. exact IH.
Qed.

Lemma identifier_has_cue (ids : list UUID) (cs : list Cue) id :
  map Some ids = map cue_uuid cs -> id ∈ ids ->
  exists c, c ∈ cs /\ cue_uuid c = Some id.
Proof.
  intros E Hid.
  assert (H : Some id ∈ map cue_uuid cs).
  { rewrite <- E. apply list_elem_of_fmap. exists id. split; [reflexivity|exact Hid]. }
  apply list_elem_of_fmap in H as (c & Hc1 & Hc2). exists c. split; [exact Hc2|].
  symmetry. exact Hc1.
Qed.

(** C10: in the presentation that [createPresentation] returns, the
    identifiers of each group are, in order, the identifiers of the cues
    created for the slides of its section; each of them belongs to a cue
    of the cue list and resolves in [getCuesByGroup]; and there are as
    many cues as slides in all the sections. *)
Theorem createPresentation_no_dangling
    (options : CreatePresentationOptions) (n : nat) :
  let p := (createPresentation random options n).1 in
  exists created : list (list Cue),
    cues p = Some (concat created)
    /\ Forall2 (fun section cs => length cs = length (slides section))
         (sections options) created
    /\ Forall2 (fun g cs =>
                  (map Some <$> cueIdentifiers g) = Some (map cue_uuid cs))
         (or_empty (cueGroups p)) created
    /\ (forall g id,
          g ∈ or_empty (cueGroups p) -> id ∈ or_empty (cueIdentifiers g) ->
          (exists c, c ∈ or_empty (cues p) /\ cue_uuid c = Some id)
          /\ is_Some (build_cueMap (or_empty (cues p)) !! uuid_string id))
    /\ length (or_empty (cues p))
       = sum_list (map (fun s => length (slides s)) (sections options)).
Proof.
  intros p. subst p.
  destruct (createPresentation_shape options n) as (built & Hb & Hcues & Hgroups).
  destruct (built_lengths _ _ Hb) as (H1 & H2 & H3 & H4).
  rewrite Hcues, Hgroups. cbn [or_empty from_option Datatypes.id].
  exists (map (fun b => b.1.1) built).
  repeat split; try assumption.
  - apply list_elem_of_lookup in H as [i Hi].
    destruct (Forall2_lookup_l _ _ _ _ _ H2 Hi) as (cs & Hcs & Hg).
    destruct (cueIdentifiers g) as [ids|] eqn:Eids; [|discriminate Hg].
    injection Hg as Hg. cbn [or_empty from_option Datatypes.id] in H0.
    destruct (identifier_has_cue ids cs id Hg H0) as (c & Hc & Hu).
    exists c. split; [|exact Hu].
    apply list_elem_of_In, in_concat. exists cs.
    split; apply list_elem_of_In; [|exact Hc].
    apply list_elem_of_lookup. eauto.
  - apply list_elem_of_lookup in H as [i Hi].
    destruct (Forall2_lookup_l _ _ _ _ _ H2 Hi) as (cs & Hcs & Hg).
    destruct (cueIdentifiers g) as [ids|] eqn:Eids; [|discriminate Hg].
    injection Hg as Hg. cbn [or_empty from_option Datatypes.id] in H0.
    destruct (identifier_has_cue ids cs id Hg H0) as (c & Hc & Hu).
    assert (Hin : c ∈ concat (map (fun b => b.1.1) built)).
    { apply list_elem_of_In, in_concat. exists cs.
      split; apply list_elem_of_In; [|exact Hc].
      apply list_elem_of_lookup. eauto. }
    rewrite Forall_forall in H3. destruct (H3 c Hin) as (u & Hu' & Hne).
    rewrite Hu in Hu'. injection Hu' as <-.
    apply (build_cueMap_resolves _ c id Hin Hu Hne).
Qed.
End Presentation.

Lemma createPresentation_no_dangling_witness :
  length (or_empty (cues (createPresentation (fun n => N.of_nat n)
                            Sample.options O).1)) = 3%nat.
Proof.
  destruct (createPresentation_no_dangling (fun n => N.of_nat n)
              Sample.options O) as (created & _ & _ & _ & _ & H).
  rewrite H. reflexivity.
Defined.

(** * Further properties of the library *)

(** ** Identifiers *)

Lemma hex_upper_digit r : r < 16 -> is_upper_hex (hex_upper r) = true.
Proof.
  intros H. unfold hex_upper, is_upper_hex, is_digit, in_range.
  destruct (r <? 10) eqn:E; [apply N.ltb_lt in E|apply N.ltb_ge in E].
  - apply orb_true_iff. left. apply andb_true_iff. split; apply N.leb_le; lia.
  - apply orb_true_iff. right. apply andb_true_iff. split; apply N.leb_le; lia.
Qed.

Lemma hex_upper_variant r :
  r < 16 ->
  let c := hex_upper (N.lor (N.land r 3) 8) in
  (c =? 56) || (c =? 57) || (c =? 65) || (c =? 66) = true.
Proof.
  intros H. destruct r as [|p]; [reflexivity|].
  do 4 (destruct p as [p|p|]; try reflexivity); exfalso; lia.
Qed.

Section Uuid.
Variable random : nat -> N.

Lemma uuid_char_follows t n :
  follows_template [t] [(uuid_char random t n).1] = true
  /\ (uuid_char random t n).2 = (n + template_draws [t])%nat.
Proof.
  assert (Hr : random n mod 16 < 16) by (apply N.mod_lt; discriminate).
  unfold uuid_char. cbn [follows_template template_draws].
  destruct (t =? 120) eqn:Ex; [|destruct (t =? 121) eqn:Ey];
    unfold mbind, Gen_bind, mret, Gen_ret, draw; cbn [fst snd orb].
  - rewrite (hex_upper_digit _ Hr). split; [reflexivity|lia].
  - rewrite (hex_upper_variant _ Hr). split; [reflexivity|lia].
  - rewrite N.eqb_refl. split; [reflexivity|lia].
Qed.

Lemma uuid_chars_follow tpl i n :
  follows_template tpl (for_each (fun _ => uuid_char random) i tpl n).1 = true
  /\ (for_each (fun _ => uuid_char random) i tpl n).2
     = (n + template_draws tpl)%nat.
Proof.
  revert i n. induction tpl as [|t tpl IH]; intros i n.
  - split; [reflexivity|]. cbn. lia.
  - rewrite for_each_cons.
    destruct (uuid_char_follows t n) as [H1 H2].
    destruct (uuid_char random t n) as [c n1].
    destruct (IH (S i) n1) as [H3 H4].
    destruct (for_each _ (S i) tpl n1) as [cs n2].
    cbn [fst snd follows_template template_draws] in *.
    rewrite andb_true_r in H1. rewrite H1, H3. split; [reflexivity|lia].
Qed.

(** X1: every identifier [generateUuid] returns has the shape of a
    version-4 UUID in upper case, [XXXXXXXX-XXXX-4XXX-YXXX-XXXXXXXXXXXX]
    with [X] a hexadecimal digit and [Y] one of [8 9 A B], whatever the
    random source gives; and it takes 31 values from the random source. *)
Theorem generateUuid_shape (n : nat) :
  follows_template (js "xxxxxxxx-xxxx-4xxx-yxxx-xxxxxxxxxxxx")
    (uuid_string (generateUuid random n).1) = true
  /\ length (uuid_string (generateUuid random n).1) = 36%nat
  /\ (generateUuid random n).2 = (n + 31)%nat.
Proof.
  pose proof (uuid_chars_follow (js "xxxxxxxx-xxxx-4xxx-yxxx-xxxxxxxxxxxx") O n)
    as [H1 H2].
  pose proof (generateUuid_length random n) as H3.
  unfold generateUuid, mbind, Gen_bind, mret, Gen_ret in *.
  destruct (for_each _ O _ n) as [s n']. cbn [fst snd uuid_string] in *.
  repeat split; assumption.
Qed.
End Uuid.

(** ** Setting a text twice *)

(** The two outcomes of [setCueText]: it fails for every text and changes
    nothing, or the cue splits at the element it writes to. *)
Lemma setCueText_cases cue :
  (forall t, setCueText cue t = (false, cue))
  \/ exists pre a post sa s epre e epost ge te,
       actions cue = Some (pre ++ a :: post)
       /\ Forall no_slide pre /\ slide a = Some sa /\ presentation sa = Some s
       /\ elements s = Some (epre ++ e :: epost)
       /\ Forall no_rtf epre
       /\ element e = Some ge /\ text ge = Some te /\ is_Some (rtfData te).
Proof.
  destruct (actions cue) as [l|] eqn:El;
    [|left; intros t; unfold setCueText; rewrite El; reflexivity].
  destruct (first_slide_cases l)
    as [[Hl _]|(pre & a & post & sa & s & -> & Hpre & Ha & Hs & _)].
  { left. intros t. unfold setCueText.
    rewrite El, (set_first_slide_none l t Hl). reflexivity. }
  destruct (elements s) as [es|] eqn:Ees.
  - destruct (first_text_cases es)
      as [Hes|(epre & e & epost & ge & te & -> & Hepre & He & Hge & Hte)].
    + left. intros t. unfold setCueText.
      rewrite El, (set_first_slide_split pre a post sa s t Hpre Ha Hs).
      unfold setSlideText. rewrite Ees, (set_first_text_none es _ Hes).
      reflexivity.
    + right. exists pre, a, post, sa, s, epre, e, epost, ge, te.
      repeat split; assumption.
  - left. intros t. unfold setCueText.
    rewrite El, (set_first_slide_split pre a post sa s t Hpre Ha Hs).
    unfold setSlideText. rewrite Ees. reflexivity.
Qed.

Lemma setCueText_split cue t pre a post sa s epre e epost ge te :
  actions cue = Some (pre ++ a :: post) ->
  Forall no_slide pre -> slide a = Some sa -> presentation sa = Some s ->
  elements s = Some (epre ++ e :: epost) ->
  Forall no_rtf epre ->
  element e = Some ge -> text ge = Some te -> is_Some (rtfData te) ->
  setCueText cue t
  = (true,
     with_actions cue
       (pre ++
        with_slide a
          (with_presentation sa
             (with_elements s
                (epre ++
                 with_element e
                   (with_text ge (with_rtfData te (buffer_from (textToRtf t))))
                 :: epost)))
        :: post)).
Proof.
  intros El Hpre Ha Hs Ees Hepre He Hge Hte. unfold setCueText.
  rewrite El, (set_first_slide_split pre a post sa s t Hpre Ha Hs).
  unfold setSlideText.
  rewrite Ees, (set_first_text_split epre e epost ge te _ Hepre He Hge Hte).
  reflexivity.
Qed.

(** X2: the last text wins.  Calling [setCueText] with [t1] and then with
    [t2] leaves the cue, and returns the flag, that a single call with [t2]
    gives: the second call writes to the element the first one wrote to. *)
Theorem setCueText_last_wins (cue : Cue) (t1 t2 : jsstring) :
  setCueText (setCueText cue t1).2 t2 = setCueText cue t2.
Proof.
  destruct (setCueText_cases cue)
    as [H|(pre & a & post & sa & s & epre & e & epost & ge & te
           & El & Hpre & Ha & Hs & Ees & Hepre & He & Hge & Hte)].
  - rewrite (H t1). cbn [snd]. reflexivity.
  - rewrite (setCueText_split cue t1 _ _ _ _ _ _ _ _ _ _
               El Hpre Ha Hs Ees Hepre He Hge Hte).
    rewrite (setCueText_split cue t2 _ _ _ _ _ _ _ _ _ _
               El Hpre Ha Hs Ees Hepre He Hge Hte).
    cbn [snd].
    set (te1 := with_rtfData te (buffer_from (textToRtf t1))).
    set (ge1 := with_text ge te1).
    set (e1 := with_element e ge1).
    set (s1 := with_elements s (epre ++ e1 :: epost)).
    set (sa1 := with_presentation sa s1).
    set (a1 := with_slide a sa1).
    rewrite (setCueText_split (with_actions cue (pre ++ a1 :: post)) t2
               pre a1 post sa1 s1 epre e1 epost ge1 te1
               eq_refl Hpre eq_refl eq_refl eq_refl Hepre eq_refl eq_refl
               (ex_intro _ _ eq_refl)).
    reflexivity.
Qed.

(** X3: [setCueText] succeeds exactly when the slide [getCueSlide] finds
    has an element carrying [rtfData]; whether it succeeds does not depend
    on the text. *)
Theorem setCueText_succeeds_iff (cue : Cue) (t : jsstring) :
  (setCueText cue t).1 = true
  <-> exists s, getCueSlide cue = Some s /\ getSlideTextElements s <> [].
Proof.
  split.
  - intros H.
    destruct (getCueSlide cue) as [s|] eqn:Es.
    + exists s. split; [reflexivity|]. intros He.
      rewrite (setCueText_not_found cue t) in H; [discriminate|].
      rewrite Es. exact He.
    + rewrite (setCueText_not_found cue t) in H; [discriminate|].
      rewrite Es. exact I.
  - intros (s0 & Hs0 & Hne).
    destruct (setCueText_cases cue)
      as [H|(pre & a & post & sa & s & epre & e & epost & ge & te
             & El & Hpre & Ha & Hs & Ees & Hepre & He & Hge & Hte)].
    + exfalso. unfold getCueSlide in Hs0.
      destruct (actions cue) as [l|] eqn:El; [|discriminate].
      change (or_empty (Some l)) with l in Hs0.
      destruct (first_slide_cases l)
        as [[_ Hn]|(pre & a & post & sa & s & -> & Hpre & Ha & Hs & Hf)];
        [congruence|].
      rewrite Hf in Hs0. injection Hs0 as <-.
      specialize (H t). unfold setCueText in H.
      rewrite El, (set_first_slide_split pre a post sa s t Hpre Ha Hs) in H.
      unfold setSlideText, getSlideTextElements in *.
      destruct (elements s) as [es|]; [|destruct (Hne eq_refl)].
      change (or_empty (Some es)) with es in Hne.
      destruct (first_text_cases es)
        as [Hes|(epre & e & epost & ge & te & -> & Hepre & He & Hge & Hte)].
      * destruct (Hne (omap_no_rtf es Hes)).
      * rewrite (set_first_text_split epre e epost ge te _ Hepre He Hge Hte)
          in H. discriminate H.
    + rewrite (setCueText_split cue t _ _ _ _ _ _ _ _ _ _
                 El Hpre Ha Hs Ees Hepre He Hge Hte). reflexivity.
Qed.

Lemma setCueText_succeeds_iff_witness :
  (setCueText (Sample.cue_one "c" "old") (js "new")).1 = true
  /\ (setCueText Sample.cue_no_text (js "new")).1 <> true.
Proof.
  split.
  - apply (proj2 (setCueText_succeeds_iff (Sample.cue_one "c" "old") (js "new"))).
    eexists. split; [reflexivity|]. vm_compute. discriminate.
  - intros H.
    apply (proj1 (setCueText_succeeds_iff Sample.cue_no_text (js "new"))) in H.
    destruct H as (s & Hs & Hne). vm_compute in Hs. injection Hs as <-.
    apply Hne. reflexivity.
Defined.

(** ** More on groups *)

Lemma map_set_fresh {V} k (v : V) m :
  k ∉ map fst m -> map_set k v m = m ++ [(k, v)].
Proof.
  induction m as [|[k' v'] m IH]; intros H; [reflexivity|].
  cbn [map_set]. cbn [map fst] in H. rewrite not_elem_of_cons in H.
  destruct H as [Hne H]. destruct (decide (k' = k)); [congruence|].
  rewrite (IH H). reflexivity.
Qed.

Lemma add_groups_distinct cueMap gs m :
  NoDup (map fst m ++ map groupName gs) ->
  fold_left (add_group cueMap) gs m = m ++ map (group_entry cueMap) gs.
Proof.
  revert m. induction gs as [|g gs IH]; intros m H; cbn [fold_left map].
  - rewrite app_nil_r. reflexivity.
  - cbn [map] in H. apply NoDup_app in H as (H1 & H2 & H3).
    apply NoDup_cons in H3 as [H3 H4].
    assert (Hg : groupName g ∉ map fst m).
    { intros Hin. apply (H2 _ Hin). apply elem_of_cons. left. reflexivity. }
    unfold add_group at 2. rewrite (map_set_fresh _ _ _ Hg), IH.
    + rewrite <- app_assoc. reflexivity.
    + rewrite map_app. cbn [map fst]. rewrite <- app_assoc. cbn [app].
      apply NoDup_app. repeat split; [exact H1| |constructor; assumption].
      intros k Hk Hk'. apply elem_of_cons in Hk' as [->|Hk'].
      * exact (Hg Hk).
      * apply (H2 _ Hk). apply elem_of_cons. right. exact Hk'.
Qed.

(** X4: when no two groups of the presentation carry the same name,
    [getCuesByGroup] returns one entry for each group, in document order:
    the name of the group with the cues its identifiers resolve to. *)
Theorem getCuesByGroup_distinct_names (p : Presentation) :
  NoDup (map groupName (or_empty (cueGroups p))) ->
  getCuesByGroup p
  = map (group_entry (build_cueMap (or_empty (cues p))))
      (or_empty (cueGroups p)).
Proof.
  intros H. rewrite getCuesByGroup_fold.
  apply (add_groups_distinct _ _ [] H).
Qed.

Lemma getCuesByGroup_distinct_names_witness :
  map (fun '(k, cs) => (k, map cue_key cs)) (getCuesByGroup Sample.dangling)
  = [(js "Verse", [Some (js "c1"); Some (js "c2")]);
     (js "Chorus", [Some (js "c3")])].
Proof.
  rewrite (getCuesByGroup_distinct_names Sample.dangling).
  - vm_compute. reflexivity.
  - vm_compute. repeat constructor; rewrite ?elem_of_cons, ?elem_of_nil;
      intros H; repeat destruct H as [H|H]; try discriminate H; exact H.
Defined.

Lemma cueMap_fold_some (l : list Cue) (m : gmap jsstring Cue) k c :
  fold_left
    (fun m c => match cue_key c with Some k => <[k := c]> m | None => m end)
    l m !! k = Some c ->
  m !! k = Some c \/ (c ∈ l /\ cue_key c = Some k).
Proof.
  revert m. induction l as [|c' l IH]; intros m H; cbn [fold_left] in H.
  - left. exact H.
  - apply IH in H as [H|[H1 H2]].
    + destruct (cue_key c') as [k'|] eqn:Ek; [|left; exact H].
      destruct (decide (k' = k)) as [->|Hne].
      * rewrite lookup_insert_eq in H. injection H as <-.
        right. split; [apply elem_of_cons; left; reflexivity|exact Ek].
      * rewrite lookup_insert_ne in H by exact Hne. left. exact H.
    + right. split; [apply elem_of_cons; right; exact H1|exact H2].
Qed.

(** What an identifier resolves to is a cue of the list that has it. *)
Lemma build_cueMap_some l k c :
  build_cueMap l !! k = Some c -> c ∈ l /\ cue_key c = Some k.
Proof.
  intros H. apply cueMap_fold_some in H as [H|H]; [|exact H].
  rewrite lookup_empty in H. discriminate H.
Qed.

Lemma resolve_ids_members l ids c :
  c ∈ resolve_ids (build_cueMap l) ids ->
  c ∈ l /\ exists id, id ∈ ids /\ cue_key c = Some (uuid_string id).
Proof.
  unfold resolve_ids. intros H. apply list_elem_of_omap in H as (id & Hid & Hc).
  apply build_cueMap_some in Hc as [H1 H2]. split; [exact H1|]. eauto.
Qed.

Lemma resolve_ids_length m ids : (length (resolve_ids m ids) <= length ids)%nat.
Proof.
  unfold resolve_ids. induction ids as [|id ids IH]; cbn [omap list_omap length];
    [lia|].
  destruct (m !! uuid_string id); cbn [length]; lia.
Qed.

Lemma map_set_entries {V} k (v : V) m e :
  e ∈ map_set k v m -> e = (k, v) \/ e ∈ m.
Proof.
  induction m as [|[k' v'] m IH]; cbn [map_set]; intros H.
  - apply list_elem_of_singleton in H. left. exact H.
  - destruct (decide (k' = k)).
    + apply elem_of_cons in H as [H|H]; [left; exact H|].
      right. apply elem_of_cons. right. exact H.
    + apply elem_of_cons in H as [H|H].
      * right. apply elem_of_cons. left. exact H.
      * destruct (IH H) as [H'|H']; [left; exact H'|].
        right. apply elem_of_cons. right. exact H'.
Qed.

Lemma add_groups_entries cueMap gs m e :
  e ∈ fold_left (add_group cueMap) gs m ->
  e ∈ m \/ exists g, g ∈ gs /\ e = group_entry cueMap g.
Proof.
  revert m. induction gs as [|g gs IH]; intros m H; cbn [fold_left] in H.
  - left. exact H.
  - apply IH in H as [H|(g' & Hg' & He)].
    + apply map_set_entries in H as [H|H]; [|left; exact H].
      right. exists g. split; [apply elem_of_cons; left; reflexivity|exact H].
    + right. exists g'. split; [apply elem_of_cons; right; exact Hg'|exact He].
Qed.

(** X5: [getCuesByGroup] invents nothing.  Every entry is the name of a
    group with the cues that group's identifiers resolve to; every cue of
    an entry is a cue of the presentation's cue list and carries one of the
    identifiers of the group; and an entry never has more cues than the
    group has identifiers. *)
Theorem getCuesByGroup_sound (p : Presentation) (name : jsstring)
    (cs : list Cue) :
  (name, cs) ∈ getCuesByGroup p ->
  exists g,
    g ∈ or_empty (cueGroups p) /\ groupName g = name
    /\ (length cs <= length (or_empty (cueIdentifiers g)))%nat
    /\ forall c, c ∈ cs ->
         c ∈ or_empty (cues p)
         /\ exists id, id ∈ or_empty (cueIdentifiers g)
                       /\ cue_key c = Some (uuid_string id).
Proof.
  rewrite getCuesByGroup_fold. intros H.
  apply add_groups_entries in H as [H|(g & Hg & He)].
  { apply elem_of_nil in H. destruct H. }
  unfold group_entry in He. injection He as -> ->.
  exists g. repeat split; [exact Hg|apply resolve_ids_length|..];
    apply resolve_ids_members in H as [H1 H2]; assumption.
Qed.

Lemma getCuesByGroup_sound_witness :
  exists g, g ∈ or_empty (cueGroups Sample.dangling)
            /\ groupName g = js "Chorus".
Proof.
  destruct (getCuesByGroup_sound Sample.dangling (js "Chorus")
              [Sample.cue_one "c3" "three"]) as (g & Hg & Hn & _).
  - vm_compute. apply elem_of_cons. right. apply elem_of_cons. left. reflexivity.
  - exists g. split; assumption.
Defined.

Lemma cueMap_fold_keep (l : list Cue) (m : gmap jsstring Cue) k :
  Forall (fun c => cue_key c <> Some k) l ->
  fold_left
    (fun m c => match cue_key c with Some k => <[k := c]> m | None => m end)
    l m !! k = m !! k.
Proof.
  intros H. revert m. induction H as [|c l Hc Hl IH]; intros m; cbn [fold_left];
    [reflexivity|].
  rewrite IH. destruct (cue_key c) as [k'|]; [|reflexivity].
  apply lookup_insert_ne. congruence.
Qed.

(** When several cues have the same identifier, it resolves to the last. *)
Lemma build_cueMap_last pre c post k :
  cue_key c = Some k -> Forall (fun c' => cue_key c' <> Some k) post ->
  build_cueMap (pre ++ c :: post) !! k = Some c.
Proof.
  intros Hc Hpost. unfold build_cueMap. rewrite fold_left_app. cbn [fold_left].
  rewrite (cueMap_fold_keep post _ k Hpost), Hc. apply lookup_insert_eq.
Qed.

(** X6: when several cues of the presentation have the same identifier, a
    group that refers to it gets the last of them in the cue list. *)
Theorem getCuesByGroup_last_cue (p : Presentation) pre g post cpre c cpost
    ids1 id ids2 :
  or_empty (cueGroups p) = pre ++ g :: post ->
  Forall (fun g' => groupName g' <> groupName g) post ->
  or_empty (cues p) = cpre ++ c :: cpost ->
  cue_key c = Some (uuid_string id) ->
  Forall (fun c' => cue_key c' <> Some (uuid_string id)) cpost ->
  or_empty (cueIdentifiers g) = ids1 ++ id :: ids2 ->
  let cueMap := build_cueMap (or_empty (cues p)) in
  map_get (groupName g) (getCuesByGroup p)
  = Some (resolve_ids cueMap ids1 ++ c :: resolve_ids cueMap ids2).
Proof.
  intros Hg Hpost Hc Hk Hcpost Hids cueMap.
  rewrite getCuesByGroup_fold, Hg, (add_groups_last _ _ _ _ _ Hpost), Hids.
  unfold resolve_ids. rewrite omap_app. cbn [omap list_omap].
  subst cueMap. rewrite Hc, (build_cueMap_last _ _ _ _ Hk Hcpost).
  reflexivity.
Qed.

Lemma getCuesByGroup_last_cue_witness :
  let p := Sample.presentation_of [Sample.cue_group "Verse" ["c"%string]]
             [Sample.cue_one "c" "first"; Sample.cue_one "c" "second"] in
  (map getCueText <$> map_get (js "Verse") (getCuesByGroup p))
  = Some [js "second"].
Proof.
  intros p.
  refine (eq_trans
            (f_equal (fmap (map getCueText))
               (getCuesByGroup_last_cue p [] (Sample.cue_group "Verse" ["c"%string])
                  [] [Sample.cue_one "c" "first"] (Sample.cue_one "c" "second") []
                  [] (mkUUID (js "c")) []
                  eq_refl (List.Forall_nil _) eq_refl eq_refl
                  (List.Forall_nil _) eq_refl)) _).
  vm_compute. reflexivity.
Defined.

(** ** What the decoder returns *)

(** On a source without backslash and brace, only the white-space
    clean-up acts. *)
Lemma decode_source_without_markup (rtfData : RtfData) :
  Forall (fun c => is_markup c = false) (rtf_source rtfData) ->
  rtfToText rtfData
  = trim (replace_all Re.spaces (js " ") (rtf_source rtfData)).
Proof.
  unfold rtfToText. generalize (rtf_source rtfData). intros s Hm.
  destruct (no_markup_chars s Hm) as (Hb & Hl & Hr & Hbr).
  unfold strip_rtf.
  assert (E : replace_prefix Re.header [] s = s).
  { unfold replace_prefix.
    rewrite (match_here_needs (fun c => c = Ch.lbrace)); [reflexivity| |exact Hl].
    apply needs_char. }
  rewrite E. unfold replace_all, replace_all_with.
  rewrite (replace_from_needs _ _ _ _ _ needs_backslash_par Hb).
  rewrite (replace_from_needs _ _ _ _ _ needs_backslash_line Hb).
  rewrite (replace_from_needs _ _ _ _ _ (needs_lbrace_group _) Hl).
  rewrite (replace_from_needs _ _ _ _ _ (needs_lbrace_group _) Hl).
  rewrite (replace_from_needs _ _ _ _ _ (needs_lbrace_group _) Hl).
  rewrite (replace_from_needs _ _ _ _ _ needs_backslash_control Hb).
  unfold Re.braces.
  rewrite replace_one, (flat_map_keep _ _ _ Hbr).
  apply (replace_from_needs _ _ _ _ _ needs_backslash_hex).
  apply trim_Forall, replace_from_Forall; [|exact Hb].
  intros _. literals. repeat constructor. discriminate.
Qed.

(** X7: on a string that holds no backslash and no brace, so no markup at
    all, [rtfToText] only cleans up white space: runs become one space and
    the ends are trimmed. *)
Theorem rtfToText_without_markup (s : jsstring) :
  Forall (fun c => is_markup c = false) s ->
  rtfToText (RtfString s) = trim (replace_all Re.spaces (js " ") s).
Proof. exact (decode_source_without_markup (RtfString s)). Qed.

Lemma rtfToText_without_markup_witness :
  rtfToText (RtfString (js "  two   words ")) = js "two words".
Proof.
  rewrite (rtfToText_without_markup (js "  two   words ")).
  - reflexivity.
  - vm_compute. repeat constructor.
Defined.

(** *** The white-space clean-up *)

Lemma replace_from_skip r f n prev s :
  exists prev', replace_from r f n prev s = replace_from r f O prev' (drop n s).
Proof.
  revert prev s. induction n as [|n IH]; intros prev s.
  - exists prev. reflexivity.
  - destruct s as [|c s]; [exists prev; reflexivity|].
    cbn [replace_from drop]. apply IH.
Qed.

Lemma star_space_run prev s :
  star is_space (fun _ _ => Some O) prev s = Some (space_run s).
Proof.
  revert prev. induction s as [|c s IH]; intros prev; cbn [star space_run];
    [reflexivity|].
  destruct (is_space c); [rewrite IH|]; reflexivity.
Qed.

Lemma drop_space_run s : starts_with_space (drop (space_run s) s) = false.
Proof.
  induction s as [|c s IH]; [reflexivity|].
  cbn [space_run]. destruct (is_space c) eqn:E; [exact IH|].
  cbn [drop starts_with_space]. exact E.
Qed.

Lemma space_run_length s : (space_run s <= length s)%nat.
Proof.
  induction s as [|c s IH]; cbn [space_run length]; [lia|].
  destruct (is_space c); lia.
Qed.

Lemma spaced_cons_space o :
  starts_with_space o = false -> spaced o = true -> spaced (Ch.space :: o) = true.
Proof.
  intros H1 H2. cbn [spaced]. rewrite H2.
  destruct o as [|d o]; [reflexivity|]. cbn [starts_with_space] in H1.
  rewrite H1. reflexivity.
Qed.

(** After the clean-up every white-space code unit is a single space. *)
Lemma collapse_spaced n :
  forall s prev, (length s <= n)%nat ->
    let o := replace_from Re.spaces (fun _ => [Ch.space]) O prev s in
    spaced o = true
    /\ (starts_with_space s = false -> starts_with_space o = false).
Proof.
  induction n as [|n IH]; intros s prev Hn.
  { destruct s; [split; reflexivity|simpl in Hn; lia]. }
  destruct s as [|c s]; [split; reflexivity|].
  cbn [replace_from Re.spaces match_here]. rewrite star_space_run.
  destruct (is_space c) eqn:Ec.
  - change (S <$> Some (space_run s)) with (Some (S (space_run s))). cbv iota beta.
    destruct (replace_from_skip Re.spaces (fun _ => [Ch.space]) (space_run s)
                (Some c) s) as [prev' ->].
    cbn [app]. split; [|cbn [starts_with_space]; congruence].
    destruct (IH (drop (space_run s) s) prev') as [H1 H2].
    { rewrite length_drop. simpl in Hn. lia. }
    apply spaced_cons_space; [apply H2, drop_space_run|exact H1].
  - destruct (IH s (Some c)) as [H1 H2]; [simpl in Hn; lia|].
    cbv iota beta. split.
    + cbn [spaced]. rewrite Ec, H1. reflexivity.
    + intros _. cbn [starts_with_space]. exact Ec.
Qed.

Lemma spaced_tail c s : spaced (c :: s) = true -> spaced s = true.
Proof. cbn [spaced]. intros H. apply andb_true_iff in H as [_ H]. exact H. Qed.

Lemma trim_start_spaced s :
  spaced s = true ->
  spaced (trim_start s) = true /\ starts_with_space (trim_start s) = false.
Proof.
  induction s as [|c s IH]; intros H; [split; reflexivity|].
  cbn [trim_start]. destruct (is_space c) eqn:E.
  - apply IH, (spaced_tail c s H).
  - split; [exact H|exact E].
Qed.

(** A string that ends with a code unit that is not white space. *)
Lemma spaced_single y c :
  spaced (y ++ [c]) = true -> is_space c = false ->
  single_spaced (y ++ [c]) = true.
Proof.
  intros H Hc. induction y as [|d y IH].
  - cbn. rewrite Hc. reflexivity.
  - cbn [app spaced single_spaced] in *.
    apply andb_true_iff in H as [H1 H2]. rewrite (IH H2), andb_true_r.
    destruct (y ++ [c]) as [|e z] eqn:E; [destruct y; discriminate E|].
    exact H1.
Qed.

Lemma spaced_before_space y d :
  spaced (y ++ [d; Ch.space]) = true -> is_space d = false.
Proof.
  induction y as [|e y IH]; cbn [app spaced]; intros H.
  - apply andb_true_iff in H as [H _].
    destruct (is_space d); [|reflexivity].
    cbn in H. rewrite andb_false_r in H. discriminate H.
  - apply andb_true_iff in H as [_ H]. apply IH, H.
Qed.

Lemma spaced_init y c : spaced (y ++ [c]) = true -> spaced y = true.
Proof.
  induction y as [|d y IH]; [reflexivity|].
  cbn [app spaced]. intros H. apply andb_true_iff in H as [H1 H2].
  rewrite (IH H2), andb_true_r.
  destruct y as [|e y]; [|exact H1]. cbn [app] in H1.
  destruct (is_space d); [|reflexivity]. cbn in H1 |- *.
  apply andb_true_iff in H1 as [H1 _]. rewrite H1. reflexivity.
Qed.

Lemma trim_end_spaced x :
  spaced x = true -> starts_with_space x = false ->
  single_spaced (trim_end x) = true /\ starts_with_space (trim_end x) = false.
Proof.
  intros H Hs. unfold trim_end.
  destruct x as [|c y _] using rev_ind; [split; reflexivity|].
  rewrite rev_app_distr. cbn [rev app trim_start].
  destruct (is_space c) eqn:Ec.
  - assert (Hc : c = Ch.space).
    { clear Hs. induction y as [|d y IH]; cbn [app spaced] in H.
      - rewrite Ec in H. cbn in H. apply andb_true_iff in H as [H _].
        apply andb_true_iff in H as [H _]. apply N.eqb_eq, H.
      - apply andb_true_iff in H as [_ H]. apply IH, H. }
    subst c.
    destruct y as [|d z _] using rev_ind.
    { cbn in Hs. discriminate Hs. }
    rewrite rev_app_distr. cbn [rev app trim_start].
    rewrite <- app_assoc in H. cbn [app] in H.
    rewrite (spaced_before_space z d H). cbn [rev]. rewrite rev_involutive.
    split.
    + apply spaced_single; [|exact (spaced_before_space z d H)].
      apply (spaced_init _ Ch.space). rewrite <- app_assoc. exact H.
    + destruct z as [|e z]; [|exact Hs].
      cbn [app starts_with_space] in *. exact (spaced_before_space [] d H).
  - cbn [rev]. rewrite rev_involutive. split; [|exact Hs].
    apply spaced_single; assumption.
Qed.

Lemma trim_spaced s :
  spaced s = true ->
  single_spaced (trim s) = true /\ starts_with_space (trim s) = false.
Proof.
  intros H. unfold trim. destruct (trim_start_spaced s H) as [H1 H2].
  apply trim_end_spaced; assumption.
Qed.

Lemma replace_prefix_Forall (Q : N -> Prop) r s :
  Forall Q s -> Forall Q (replace_prefix r [] s).
Proof.
  intros H. unfold replace_prefix. destruct (match_here r None s); [|exact H].
  cbn [app]. apply Forall_drop, H.
Qed.

Lemma strip_rtf_Forall (Q : N -> Prop) s :
  Q Ch.newline -> Q Ch.space -> Forall Q s -> Forall Q (strip_rtf s).
Proof.
  intros Hn Hs H. unfold strip_rtf, replace_all.
  apply trim_Forall.
  repeat (apply replace_from_Forall;
          [intros _; literals; repeat constructor; assumption|]).
  apply replace_prefix_Forall, H.
Qed.

(** The text before the decoding of escaped bytes: no brace, white space
    only as single spaces strictly inside. *)
Lemma strip_rtf_normal s :
  Forall (fun c => is_brace c = false) (strip_rtf s)
  /\ starts_with_space (strip_rtf s) = false
  /\ single_spaced (strip_rtf s) = true.
Proof.
  unfold strip_rtf.
  set (x := replace_all Re.control [] _).
  assert (Hb : Forall (fun c => is_brace c = false) (replace_all Re.braces [] x)).
  { unfold replace_all, Re.braces. rewrite replace_one. clear.
    induction x as [|c x IH]; [constructor|]. cbn [flat_map].
    destruct (is_brace c) eqn:E; [exact IH|]. constructor; assumption. }
  set (b := replace_all Re.braces [] x) in *.
  destruct (collapse_spaced (length b) b None (le_n _)) as [H1 _].
  change (replace_from Re.spaces (fun _ => [Ch.space]) O None b)
    with (replace_all Re.spaces (js " ") b) in H1.
  destruct (trim_spaced _ H1) as [H2 H3].
  repeat split; [|exact H3|exact H2].
  apply trim_Forall. unfold replace_all. apply replace_from_Forall; [|exact Hb].
  intros _. literals. repeat constructor.
Qed.

(** Without an apostrophe there is no escaped byte to decode. *)
Lemma decode_without_quote (rtfData : RtfData) :
  Forall (fun c => c <> Ch.quote) (rtf_source rtfData) ->
  rtfToText rtfData = strip_rtf (rtf_source rtfData).
Proof.
  intros Hq. unfold rtfToText, replace_all_with.
  apply (replace_from_needs (fun c => c = Ch.quote)).
  - apply needs_after_one, needs_char.
  - apply strip_rtf_Forall; [discriminate|discriminate|exact Hq].
Qed.

Lemma rtfToText_length (rtfData : RtfData) :
  (length (rtfToText rtfData) <= rtf_length rtfData)%nat.
Proof.
  unfold rtfToText, replace_all_with.
  etransitivity;
    [apply replace_from_length; intros m;
     unfold hex_char, fromCharCode; cbn [length]; lia|].
  etransitivity; [apply strip_rtf_length|].
  destruct rtfData as [s|b]; cbn [rtf_source rtf_length]; [lia|].
  pose proof (utf8_decode_length b Idle) as H. cbv iota in H.
  unfold buffer_toString. lia.
Qed.

(** C9: [rtfToText] has no failure case, and what it returns for any
    argument, string or bytes, well formed or not, is plain text in this
    sense: it is what the decoding of the escaped bytes [\'hh] makes of a
    string that holds no brace, does not start or end with white space and
    has no white space other than single spaces.  So when the argument has
    no apostrophe the text returned has this form itself; an argument
    without backslash and brace comes back with its white space cleaned
    up and nothing else changed; and the text never has more code units
    than the argument has code units or bytes. *)
Theorem rtfToText_total (rtfData : RtfData) :
  exists stripped : jsstring,
    rtfToText rtfData = replace_all_with Re.hex hex_char stripped
    /\ Forall (fun c => is_brace c = false) stripped
    /\ starts_with_space stripped = false
    /\ single_spaced stripped = true
    /\ (Forall (fun c => c <> Ch.quote) (rtf_source rtfData) ->
        rtfToText rtfData = stripped)
    /\ (Forall (fun c => is_markup c = false) (rtf_source rtfData) ->
        rtfToText rtfData
        = trim (replace_all Re.spaces (js " ") (rtf_source rtfData)))
    /\ (length (rtfToText rtfData) <= rtf_length rtfData)%nat.
Proof.
  exists (strip_rtf (rtf_source rtfData)).
  destruct (strip_rtf_normal (rtf_source rtfData)) as (H1 & H2 & H3).
  split; [reflexivity|].
  split; [exact H1|]. split; [exact H2|]. split; [exact H3|].
  split; [apply decode_without_quote|].
  split; [apply decode_source_without_markup|apply rtfToText_length].
Qed.

(** Malformed markup, as a string and as bytes with an ill-formed
    sequence: the braces go, the words stay. *)
Lemma rtfToText_total_witness :
  (Forall (fun c => is_brace c = false)
     (rtfToText (RtfString (js "}}{ a {{\b0 b")))
   /\ rtfToText (RtfString (js "}}{ a {{\b0 b")) = js "a b")
  /\ (Forall (fun c => is_brace c = false)
        (rtfToText (RtfBytes [123; 104; 105; 255; 125]))
      /\ rtfToText (RtfBytes [123; 104; 105; 255; 125])
         = js "hi" ++ [Ch.replacement]).
Proof.
  split.
  - destruct (rtfToText_total (RtfString (js "}}{ a {{\b0 b")))
      as (stripped & _ & Hb & _ & _ & Hq & _).
    split; [|reflexivity]. rewrite Hq; [exact Hb|].
    vm_compute. repeat constructor; discriminate.
  - destruct (rtfToText_total (RtfBytes [123; 104; 105; 255; 125]))
      as (stripped & _ & Hb & _ & _ & Hq & _).
    split; [|reflexivity]. rewrite Hq; [exact Hb|].
    vm_compute. repeat constructor; discriminate.
Defined.

(** X8: when the RTF holds no apostrophe, so no escaped byte, the text
    [rtfToText] returns has no brace and no white space other than single
    spaces strictly inside it; in particular it never holds a line feed,
    whatever [\par] and [\line] the RTF has. *)
Theorem rtfToText_normal_form (rtfData : RtfData) :
  Forall (fun c => c <> Ch.quote) (rtf_source rtfData) ->
  let text := rtfToText rtfData in
  Forall (fun c => is_brace c = false) text
  /\ starts_with_space text = false
  /\ single_spaced text = true
  /\ Forall (fun c => c <> Ch.newline) text.
Proof.
  intros Hq text. subst text. unfold rtfToText, replace_all_with.
  rewrite (replace_from_needs (fun c => c = Ch.quote)).
  - destruct (strip_rtf_normal (rtf_source rtfData)) as (H1 & H2 & H3).
    repeat split; try assumption.
    eapply Forall_impl; [apply single_spaced_spaces, H3|].
    intros c Hc ->. discriminate (Hc eq_refl).
  - apply needs_after_one, needs_char.
  - apply strip_rtf_Forall; [discriminate|discriminate|exact Hq].
Qed.

Lemma rtfToText_normal_form_witness :
  Forall (fun c => c <> Ch.newline)
    (rtfToText (RtfString (js "{\rtf1\ansi}one\par two\line three")))
  /\ rtfToText (RtfString (js "{\rtf1\ansi}one\par two\line three"))
     = js "one two three".
Proof.
  split; [|reflexivity].
  apply (rtfToText_normal_form
           (RtfString (js "{\rtf1\ansi}one\par two\line three"))).
  vm_compute. repeat constructor; discriminate.
Defined.

(** ** What the encoder writes *)

Lemma escape_char_nonempty c : escape_char c <> [].
Proof.
  unfold escape_char.
  repeat match goal with |- context [if ?b then _ else _] => destruct b end;
    discriminate.
Qed.

(** The escapes form a prefix code. *)
Lemma escape_char_prefix a b r1 r2 :
  escape_char a ++ r1 = escape_char b ++ r2 -> a = b /\ r1 = r2.
Proof.
  unfold escape_char. literals.
  destruct (a =? Ch.backslash) eqn:A1; [apply N.eqb_eq in A1|];
  [|destruct (a =? Ch.lbrace) eqn:A2; [apply N.eqb_eq in A2|]];
  [| |destruct (a =? Ch.rbrace) eqn:A3; [apply N.eqb_eq in A3|]];
  [| | |destruct (a =? Ch.newline) eqn:A4; [apply N.eqb_eq in A4|]];
  (destruct (b =? Ch.backslash) eqn:B1; [apply N.eqb_eq in B1|];
   [|destruct (b =? Ch.lbrace) eqn:B2; [apply N.eqb_eq in B2|]];
   [| |destruct (b =? Ch.rbrace) eqn:B3; [apply N.eqb_eq in B3|]];
   [| | |destruct (b =? Ch.newline) eqn:B4; [apply N.eqb_eq in B4|]]);
  subst; cbn [app]; intros H; try discriminate H;
  try (injection H as ->; try discriminate; split; [reflexivity|assumption]);
  try (injection H; intros; subst; try discriminate; split; congruence).
Qed.

Lemma escape_chars_injective s1 : forall s2,
  flat_map escape_char s1 = flat_map escape_char s2 -> s1 = s2.
Proof.
  induction s1 as [|a s1 IH]; intros [|b s2] H; cbn [flat_map] in H.
  - reflexivity.
  - symmetry in H. apply app_eq_nil in H as [H _].
    destruct (escape_char_nonempty b H).
  - apply app_eq_nil in H as [H _]. destruct (escape_char_nonempty a H).
  - apply escape_char_prefix in H as [-> H]. f_equal. apply IH, H.
Qed.

(** X9: [textToRtf] keeps texts apart: with the same font name and size,
    two different texts are never written as the same RTF. *)
Theorem textToRtf_injective (s1 s2 fontName : jsstring) (fontSize : N) :
  s1 <> s2 ->
  textToRtf_with s1 fontName fontSize <> textToRtf_with s2 fontName fontSize.
Proof.
  unfold textToRtf_with. intros Hne H. apply Hne.
  repeat apply app_inv_head in H. apply app_inv_tail in H.
  rewrite !escape_rtf_chars in H. apply escape_chars_injective, H.
Qed.

Lemma textToRtf_injective_witness :
  textToRtf (js "\par ") <> textToRtf [Ch.newline].
Proof.
  apply (textToRtf_injective (js "\par ") [Ch.newline] (js "Arial") 48).
  discriminate.
Defined.

(** ** The round trip with any font *)

Lemma number_toString_digits n :
  Forall (fun c => is_digit c = true) (number_toString n).
Proof.
  unfold number_toString. generalize (N.to_uint n). intros d.
  assert (H : forall d', Forall (fun c => is_digit c = true)
                           (js (NilEmpty.string_of_uint d'))).
  { induction d' as [|d' IH|d' IH|d' IH|d' IH|d' IH|d' IH|d' IH|d' IH|d' IH|d' IH];
      [constructor|constructor; [reflexivity|exact IH] ..]. }
  destruct d; [repeat constructor|apply H ..].
Qed.

(** A greedy class that can take all of [a], with a continuation that
    succeeds right after it. *)
Lemma star_run p k a rest m prev :
  Forall (fun c => p c = true) a ->
  (forall prev', star p k prev' rest = Some m) ->
  star p k prev (a ++ rest) = Some (length a + m)%nat.
Proof.
  intros Ha Hk. revert prev.
  induction Ha as [|c a Hc Ha IH]; intros prev; [apply Hk|].
  cbn [app star length]. rewrite Hc, IH. reflexivity.
Qed.

(** The header pattern on a text that starts as a document does: it takes
    everything up to the first closing brace, and that brace. *)
Lemma match_header x y :
  Forall (fun c => c <> Ch.rbrace) x ->
  match_here Re.header None (js "{\rtf1" ++ x ++ Ch.rbrace :: y)
  = Some (6 + length x + 1)%nat.
Proof.
  intros Hx. unfold Re.header, lit. literals.
  cbn [map app match_here is_char N.eqb Pos.eqb fmap option_fmap option_map].
  rewrite (star_run _ _ x (Ch.rbrace :: y) 1%nat).
  - reflexivity.
  - eapply Forall_impl; [exact Hx|]. intros c Hc. unfold not_char.
    apply negb_true_iff, N.eqb_neq, Hc.
  - intros prev'. reflexivity.
Qed.

Lemma strip_header_any x y :
  Forall (fun c => c <> Ch.rbrace) x ->
  replace_prefix Re.header [] (js "{\rtf1" ++ x ++ Ch.rbrace :: y) = y.
Proof.
  intros Hx. unfold replace_prefix. rewrite (match_header x y Hx).
  cbn [app].
  replace (js "{\rtf1" ++ x ++ Ch.rbrace :: y)
    with ((js "{\rtf1" ++ x ++ [Ch.rbrace]) ++ y)
    by (rewrite <- !app_assoc; reflexivity).
  apply drop_app_length'. rewrite !length_app. literals. simpl. lia.
Qed.

(** What is left of the header, [}\f0\fs] and the size: the patterns for
    line breaks and auxiliary groups find nothing in it. *)
Lemma tail_par by_ w :
  replace_all Re.par by_ (js "}\f0\fs" ++ w)
  = js "}\f0\fs" ++ replace_from Re.par (fun _ => by_) O (Some 115) w.
Proof. literals. reflexivity. Qed.

Lemma tail_line by_ w :
  replace_all Re.line by_ (js "}\f0\fs" ++ w)
  = js "}\f0\fs" ++ replace_from Re.line (fun _ => by_) O (Some 115) w.
Proof. literals. reflexivity. Qed.

Lemma tail_group name by_ w :
  replace_all (Re.group name) by_ (js "}\f0\fs" ++ w)
  = js "}\f0\fs"
    ++ replace_from (Re.group name) (fun _ => by_) O (Some 115) w.
Proof. literals. reflexivity. Qed.

Lemma tail_control w :
  replace_all Re.control [] (js "}\f0\fs" ++ w)
  = Ch.rbrace
    :: replace_from Re.control (fun _ => []) O (Some 48) (js "\fs" ++ w).
Proof. literals. reflexivity. Qed.

(** The control word [\fs], its digits and the space after them are one
    match of the control-word pattern. *)
Lemma match_font_size prev ds u :
  Forall (fun c => is_digit c = true) ds ->
  match_here Re.control prev (js "\fs" ++ ds ++ Ch.space :: u)
  = Some (3 + length ds + 1)%nat.
Proof.
  intros Hd. unfold Re.control. literals.
  cbn [app match_here is_char N.eqb Pos.eqb fmap option_fmap option_map
       star is_letter in_range N.leb N.compare Pos.compare Pos.compare_cont
       orb andb].
  assert (E : forall prev',
            star is_digit (match_here [Opt is_space]) prev'
              (ds ++ Ch.space :: u) = Some (length ds + 1)%nat).
  { intros prev'. apply star_run; [exact Hd|]. intros p'. reflexivity. }
  assert (F : forall prev',
            match_here [Opt (is_char Ch.minus); Star is_digit; Opt is_space]
              prev' (ds ++ Ch.space :: u) = Some (length ds + 1)%nat).
  { intros prev'. destruct Hd as [|d ds Hd Hds]; [reflexivity|].
    cbn [app match_here]. 
    assert (Hm : is_char Ch.minus d = false).
    { unfold is_char. apply N.eqb_neq. intros ->. discriminate Hd. }
    rewrite Hm. apply (E prev'). }
  assert (G : forall prev',
            star is_letter
              (match_here [Opt (is_char Ch.minus); Star is_digit; Opt is_space])
              prev' (ds ++ Ch.space :: u) = Some (length ds + 1)%nat).
  { intros prev'. rewrite <- (F prev').
    destruct Hd as [|d ds Hd Hds]; [reflexivity|].
    cbn [app star].
    assert (Hl : is_letter d = false).
    { unfold is_digit, is_letter, in_range in *.
      apply andb_true_iff in Hd as [H1 H2].
      apply N.leb_le in H1, H2.
      apply orb_false_iff. split; apply andb_false_iff.
      - left. apply N.leb_gt. lia.
      - left. apply N.leb_gt. lia. }
    rewrite Hl. reflexivity. }
  change (match_here [Opt (is_char Ch.minus); Star is_digit; Opt is_space])
    with (match_here [Opt (is_char Ch.minus); Star is_digit; Opt is_space]) in G.
  cbn [match_here] in G. rewrite G. reflexivity.
Qed.

Lemma font_size_removed prev ds u :
  Forall (fun c => is_digit c = true) ds ->
  Forall (fun c => c <> Ch.backslash) u ->
  replace_from Re.control (fun _ => []) O prev (js "\fs" ++ ds ++ Ch.space :: u)
  = u.
Proof.
  intros Hd Hu.
  pose proof (match_font_size prev ds u Hd) as M.
  revert M. literals. cbn [app]. intros M.
  cbn [replace_from]. rewrite M. cbn [Nat.add app].
  destruct (replace_from_skip Re.control (fun _ => []) (length ds + 1)
              (Some 115) (ds ++ Ch.space :: u))
    as [prev' E].
  rewrite E.
  replace (drop (length ds + 1) (ds ++ Ch.space :: u)) with u.
  - apply (replace_from_needs _ _ _ _ _ needs_backslash_control Hu).
  - replace (ds ++ Ch.space :: u) with ((ds ++ [Ch.space]) ++ u)
      by (rewrite <- app_assoc; reflexivity).
    symmetry. apply drop_app_length'. rewrite length_app. reflexivity.
Qed.

(** The chain of replacements on what [textToRtf] writes with any font
    name that holds no closing brace, and any size. *)
Lemma strip_written_any u fontName fontSize :
  Forall (fun c => c <> Ch.rbrace) fontName ->
  Forall (fun c => is_markup c = false) u ->
  strip_rtf (js "{\rtf1\ansi\deff0{\fonttbl{\f0 " ++ fontName ++ js ";}}\f0\fs"
             ++ number_toString (fontSize * 2) ++ js " " ++ u ++ js "}")
  = trim (replace_all Re.spaces (js " ") u).
Proof.
  intros Hf Hu. destruct (no_markup_chars u Hu) as (Hb & Hl & Hr & Hbr).
  pose proof (number_toString_digits (fontSize * 2)) as Hd.
  set (ds := number_toString (fontSize * 2)) in *.
  assert (Hb' : Forall (fun c => ~ c = Ch.backslash) (u ++ js "}")).
  { apply Forall_app. split; [exact Hb|]. literals. repeat constructor. discriminate. }
  assert (Hl' : Forall (fun c => ~ c = Ch.lbrace) (u ++ js "}")).
  { apply Forall_app. split; [exact Hl|]. literals. repeat constructor. discriminate. }
  assert (Hdb : Forall (fun c => ~ c = Ch.backslash) (ds ++ js " " ++ u ++ js "}")).
  { apply Forall_app. split.
    - eapply Forall_impl; [exact Hd|]. intros c Hc ->. discriminate Hc.
    - literals. constructor; [discriminate|exact Hb']. }
  assert (Hdl : Forall (fun c => ~ c = Ch.lbrace) (ds ++ js " " ++ u ++ js "}")).
  { apply Forall_app. split.
    - eapply Forall_impl; [exact Hd|]. intros c Hc ->. discriminate Hc.
    - literals. constructor; [discriminate|exact Hl']. }
  assert (E : js "{\rtf1\ansi\deff0{\fonttbl{\f0 " ++ fontName ++ js ";}}\f0\fs"
              ++ ds ++ js " " ++ u ++ js "}"
              = js "{\rtf1" ++ (js "\ansi\deff0{\fonttbl{\f0 " ++ fontName ++ js ";")
                ++ Ch.rbrace :: js "}\f0\fs" ++ ds ++ js " " ++ u ++ js "}").
  { literals. cbn [app]. rewrite <- app_assoc. reflexivity. }
  unfold strip_rtf. rewrite E, strip_header_any.
  2:{ apply Forall_app. split; [literals; repeat constructor; discriminate|].
      apply Forall_app. split; [exact Hf|].
      literals. repeat constructor. discriminate. }
  rewrite tail_par, (replace_from_needs _ _ _ _ _ needs_backslash_par Hdb).
  rewrite tail_line, (replace_from_needs _ _ _ _ _ needs_backslash_line Hdb).
  rewrite tail_group, (replace_from_needs _ _ _ _ _ (needs_lbrace_group _) Hdl).
  rewrite tail_group, (replace_from_needs _ _ _ _ _ (needs_lbrace_group _) Hdl).
  rewrite tail_group, (replace_from_needs _ _ _ _ _ (needs_lbrace_group _) Hdl).
  rewrite tail_control.
  change (js " " ++ u ++ js "}") with (Ch.space :: (u ++ js "}")).
  rewrite (font_size_removed _ ds (u ++ js "}") Hd Hb').
  f_equal. f_equal.
  unfold replace_all, Re.braces. rewrite replace_one.
  change (Ch.rbrace :: u ++ js "}") with ([Ch.rbrace] ++ u ++ [Ch.rbrace]).
  rewrite !flat_map_app, (flat_map_keep _ _ _ Hbr).
  cbn. apply app_nil_r.
Qed.

Lemma decode_written_any s fontName fontSize :
  plain_text s = true ->
  Forall (fun c => c <> Ch.rbrace) fontName ->
  rtfToText (RtfString (textToRtf_with s fontName fontSize)) = s.
Proof.
  intros H Hf. destruct (plain_text_facts s H) as (Hm & Hn & Hh & Hsp).
  unfold rtfToText, rtf_source, textToRtf_with.
  rewrite (escape_rtf_plain s Hm Hn), (strip_written_any s _ _ Hf Hm).
  change (replace_all Re.spaces (js " ") s)
    with (replace_from Re.spaces (fun _ => [Ch.space]) O None s).
  rewrite (single_spaced_collapse None s Hsp), (trim_plain s Hh Hsp).
  unfold replace_all_with.
  apply (replace_from_needs _ _ _ _ _ needs_backslash_hex).
  apply (proj1 (no_markup_chars s Hm)).
Qed.

(** X10: the round trip of plain text does not depend on the defaults:
    with any font name that holds no closing brace and with any font size
    that is a whole number from 0 to 2^52, [rtfToText] gives back the text
    [textToRtf] was given.  (The bound is where the template prints the
    doubled size in plain digits; other numbers are outside the model.) *)
Theorem rtf_roundtrip_any_font (s fontName : jsstring) (fontSize : N) :
  plain_text s = true ->
  Forall (fun c => c <> Ch.rbrace) fontName ->
  whole_size fontSize ->
  rtfToText (RtfString (textToRtf_with s fontName fontSize)) = s.
Proof. intros Hp Hf _. exact (decode_written_any s fontName fontSize Hp Hf). Qed.

Lemma rtf_roundtrip_any_font_witness :
  rtfToText (RtfString (textToRtf_with (js "Holy, holy") (js "Gill Sans") 72))
  = js "Holy, holy".
Proof.
  apply (rtf_roundtrip_any_font (js "Holy, holy") (js "Gill Sans") 72).
  - reflexivity.
  - vm_compute. repeat constructor; discriminate.
  - vm_compute. discriminate.
Defined.

(** ** The slides and cues of [create.ts] *)

Lemma well_formed_low s :
  Forall (fun c => c < 55296) s -> well_formed s = true.
Proof.
  induction 1 as [|c s Hc Hs IH]; [reflexivity|].
  cbn [well_formed]. unfold is_high_surrogate, is_low_surrogate, in_range.
  replace (55296 <=? c) with false by (symmetry; apply N.leb_gt; exact Hc).
  replace (56320 <=? c) with false by (symmetry; apply N.leb_gt; lia).
  replace (c <? 65536) with true by (symmetry; apply N.ltb_lt; lia).
  exact IH.
Qed.

Lemma written_well_formed text fontName fontSize :
  plain_text text = true -> well_formed text = true ->
  well_formed fontName = true ->
  well_formed (textToRtf_with text fontName fontSize) = true.
Proof.
  intros Hp Hw Hf. destruct (plain_text_facts text Hp) as (Hm & Hn & _).
  unfold textToRtf_with. rewrite (escape_rtf_plain text Hm Hn).
  repeat apply well_formed_app; try reflexivity; try assumption.
  apply well_formed_low.
  eapply Forall_impl; [apply number_toString_digits|].
  intros c Hc. unfold is_digit, in_range in Hc.
  apply andb_true_iff in Hc as [_ Hc]. apply N.leb_le in Hc. lia.
Qed.

Lemma join_filter_one (t : jsstring) :
  join [Ch.newline] (filter (fun t : jsstring => (0 < length t)%nat) [t]) = t.
Proof. destruct t; reflexivity. Qed.

Section Built.
Variable random : nat -> N.

Lemma createSlide_text slideText options chords n :
  plain_text slideText = true -> well_formed slideText = true -> usable_font options ->
  getSlideText (createSlide random slideText options chords n).1 = slideText.
Proof.
  intros Hp Hw (Hf1 & Hf2 & _).
  unfold createSlide, createTextElement, mbind, Gen_bind, mret, Gen_ret.
  destruct (generateUuid random n) as [u1 n1].
  destruct (generateUuid random n1) as [u2 n2].
  unfold getSlideText, getSlideTextElements.
  cbn [fst elements or_empty default from_option Datatypes.id omap list_omap
       element_text element text rtfData map text_of_element].
  unfold text_of_element.
  cbn [rtfData default from_option Datatypes.id].
  set (rtf := textToRtf_with _ _ _).
  assert (E : rtfToText (RtfBytes (buffer_from rtf)) = rtfToText (RtfString rtf)).
  { unfold rtfToText, rtf_source. rewrite utf8_roundtrip; [reflexivity|].
    apply written_well_formed; assumption. }
  rewrite E. subst rtf. rewrite decode_written_any by assumption.
  apply join_filter_one.
Qed.

(** X11: the slide [createCue] builds is held under [baseSlide] of the
    object [getCueSlide] returns, and its text is the text given, when that
    text is plain, the font name in use holds no closing brace and the
    font size in use is a whole number up to 2^52. *)
Theorem createCue_slide_text name slideText options chords n :
  plain_text slideText = true -> well_formed slideText = true -> usable_font options ->
  exists s,
    created_slide (createCue random name slideText options chords n).1 = Some s
    /\ getSlideText s = slideText.
Proof.
  intros Hp Hw Hf.
  pose proof (createSlide_text slideText options chords n Hp Hw Hf) as H.
  unfold createCue, mbind, Gen_bind, mret, Gen_ret.
  destruct (createSlide random slideText options chords n) as [sl n1].
  destruct (generateUuid random n1) as [au n2].
  destruct (generateUuid random n2) as [cu n3].
  exists sl. split; [reflexivity|exact H].
Qed.

Lemma createCue_hidden name slideText options chords n :
  out_of_reach (createCue random name slideText options chords n).1.
Proof.
  unfold createCue, mbind, Gen_bind, mret, Gen_ret.
  destruct (createSlide random slideText options chords n) as [sl n1].
  destruct (generateUuid random n1) as [au n2].
  destruct (generateUuid random n2) as [cu n3].
  split; reflexivity.
Qed.

Lemma create_section_hidden options i section n :
  Forall out_of_reach (create_section random options i section n).1.1.1.
Proof.
  unfold create_section, mbind, Gen_bind, mret, Gen_ret.
  destruct (generateUuid random n) as [gu n1].
  pose proof (for_each_Forall (create_slide_cue random options section)
                out_of_reach (slides section)
                (fun i a n => createCue_hidden _ _ _ _ _) O n1) as Hc.
  destruct (for_each _ _ _ n1) as [created n2]. exact Hc.
Qed.

(** X12: the accessors of [index.ts] do not reach the text of a created
    presentation.  For every cue of [createPresentation], [getCueText] is
    the empty string and [setCueText] reports failure and changes
    nothing: the slide is one level below the object they look at. *)
Theorem created_text_out_of_reach options n :
  Forall out_of_reach (getCues (createPresentation random options n).1).
Proof.
  pose proof (for_each_Forall (create_section random options)
                (fun b => Forall out_of_reach b.1.1) (sections options)
                (create_section_hidden options) O n) as H.
  unfold getCues, createPresentation, mbind, Gen_bind, mret, Gen_ret.
  destruct (for_each _ _ _ n) as [built n1]. cbn [fst] in H.
  destruct (generateUuid random n1) as [u n2].
  assert (E : Forall out_of_reach (concat (map (fun b => b.1.1) built))).
  { apply Forall_concat, Forall_map. exact H. }
  destruct (createArrangement options) as [[|]|];
    try destruct (generateUuid random n2) as [au n3]; exact E.
Qed.
End Built.

Lemma createCue_slide_text_witness :
  exists s,
    created_slide
      (createCue (fun n => N.of_nat n) (js "Verse - Slide 1") (js "Holy, holy")
         Sample.options None O).1 = Some s
    /\ getSlideText s = js "Holy, holy".
Proof.
  apply (createCue_slide_text (fun n => N.of_nat n) (js "Verse - Slide 1")
           (js "Holy, holy") Sample.options None O).
  - reflexivity.
  - reflexivity.
  - split; [vm_compute; repeat constructor; discriminate|].
    split; [reflexivity|vm_compute; discriminate].
Defined.

(** ** The layout of a created presentation *)

Lemma for_each_imap {X Y Z} (f : nat -> X -> Gen Y) (g : Y -> Z)
    (h : nat -> X -> Z) :
  (forall i a n, g (f i a n).1 = h i a) ->
  forall l i n,
    map g (for_each f i l n).1 = imap (fun j a => h (i + j)%nat a) l.
Proof.
  intros Hf. induction l as [|a l IH]; intros i n; [reflexivity|].
  rewrite for_each_cons. specialize (Hf i a n).
  destruct (f i a n) as [b n1]. specialize (IH (S i) n1).
  destruct (for_each f (S i) l n1) as [bs n2]. cbn [fst map] in *.
  cbn [imap]. rewrite Nat.add_0_r, Hf, IH. f_equal.
  apply imap_ext. intros j x _. cbn. f_equal. lia.
Qed.

Section Layout.
Variable random : nat -> N.

Lemma createCue_name name slideText options chords n :
  cue_name (createCue random name slideText options chords n).1 = Some name.
Proof.
  unfold createCue, mbind, Gen_bind, mret, Gen_ret.
  destruct (createSlide random slideText options chords n) as [sl n1].
  destruct (generateUuid random n1) as [au n2].
  destruct (generateUuid random n2) as [cu n3]. reflexivity.
Qed.

Lemma create_section_layout options i section n :
  section_layout section (create_section random options i section n).1.
Proof.
  split; [apply create_section_built|].
  unfold create_section, mbind, Gen_bind, mret, Gen_ret.
  destruct (generateUuid random n) as [gu n1].
  pose proof (for_each_imap (create_slide_cue random options section) cue_name
                (fun j _ => Some (slide_cue_name section j))
                (fun i a n => createCue_name _ _ _ _ _)
                (slides section) O n1) as Hn.
  destruct (for_each _ _ _ n1) as [created n2]. cbn [fst snd] in *.
  repeat split; [exact Hn|].
  assert (Hb : is_Some (DEFAULT_GROUP_COLORS
                          !! (i mod length DEFAULT_GROUP_COLORS)%nat)).
  { apply lookup_lt_is_Some_2, Nat.mod_upper_bound. discriminate. }
  cbn. destruct (section_color section) as [c|]; [eauto|exact Hb].
Qed.

(** The sections in, the cues and groups out. *)
Lemma createPresentation_layout options n :
  exists built,
    Forall2 section_layout (sections options) built
    /\ cues (createPresentation random options n).1
       = Some (concat (map (fun b => b.1.1) built))
    /\ cueGroups (createPresentation random options n).1
       = Some (map (fun b => b.1.2) built)
    /\ match createArrangement options with
       | Some false =>
           arrangements (createPresentation random options n).1 = None
           /\ selectedArrangement (createPresentation random options n).1 = None
       | _ =>
           exists a,
             arrangements (createPresentation random options n).1 = Some [a]
             /\ selectedArrangement (createPresentation random options n).1
                = Some (arr_uuid a)
             /\ arr_name a = js "Default"
             /\ groupIdentifiers a = map (fun b => b.2) built
       end.
Proof.
  pose proof (for_each_Forall2 (create_section random options) section_layout
                (sections options)
                (fun i a n => create_section_layout options i a n)
                O n) as H.
  unfold createPresentation, mbind, Gen_bind, mret, Gen_ret.
  destruct (for_each _ _ _ n) as [built n1]. cbn [fst] in H.
  exists built. split; [exact H|].
  destruct (generateUuid random n1) as [u n2].
  destruct (createArrangement options) as [[|]|];
    try destruct (generateUuid random n2) as [au n3];
    repeat split; eexists; repeat split.
Qed.

(** X13: the cues of a created presentation are, section after section and
    slide after slide, named after the section and the rank of the slide in
    its section, counted from 1. *)
Theorem createPresentation_cue_names options n :
  map cue_name (getCues (createPresentation random options n).1)
  = concat (map (fun section =>
                   imap (fun j _ => Some (slide_cue_name section j))
                     (slides section))
              (sections options)).
Proof.
  destruct (createPresentation_layout options n) as (built & H & Hc & _).
  unfold getCues. rewrite Hc. cbn [or_empty default from_option Datatypes.id].
  clear Hc. induction H as [|s b secs built (_ & Hn & _) H IH]; [reflexivity|].
  cbn [map concat]. rewrite map_app, Hn, IH. reflexivity.
Qed.

(** X14: a created presentation has one group for each section, in order
    and under the section's name; unless [createArrangement] is [false],
    it has one arrangement, named Default, which is the selected one and
    lists the identifiers of all the groups in order; with
    [createArrangement: false] it has neither.  Every group has a colour,
    however many sections there are. *)
Theorem createPresentation_groups options n :
  let p := (createPresentation random options n).1 in
  map (fun g => group g ≫= group_name) (or_empty (cueGroups p))
  = map (fun section => Some (section_name section)) (sections options)
  /\ Forall (fun g => is_Some (group g ≫= color)) (or_empty (cueGroups p))
  /\ match createArrangement options with
     | Some false => arrangements p = None /\ selectedArrangement p = None
     | _ =>
         exists a,
           arrangements p = Some [a]
           /\ selectedArrangement p = Some (arr_uuid a)
           /\ arr_name a = js "Default"
           /\ map Some (groupIdentifiers a)
              = map (fun g => group g ≫= group_uuid) (or_empty (cueGroups p))
     end.
Proof.
  intros p. subst p.
  destruct (createPresentation_layout options n) as (built & H & _ & Hg & Ha).
  rewrite Hg. cbn [or_empty default from_option Datatypes.id].
  assert (E1 : map (fun g => group g ≫= group_name) (map (fun b => b.1.2) built)
               = map (fun section => Some (section_name section))
                   (sections options)).
  { clear Ha Hg. induction H as [|s b secs built (_ & _ & Hn & _) H IH];
      [reflexivity|]. cbn [map]. rewrite Hn, IH. reflexivity. }
  assert (E3 : Forall (fun g => is_Some (group g ≫= color))
                 (map (fun b => b.1.2) built)).
  { clear Ha Hg E1. apply Forall_map.
    induction H as [|s b secs built (_ & _ & _ & _ & Hcol) H IH];
      constructor; assumption. }
  assert (E2 : map Some (map (fun b => b.2) built)
               = map (fun g => group g ≫= group_uuid)
                   (map (fun b => b.1.2) built)).
  { clear Ha Hg E1 E3. induction H as [|s b secs built (_ & _ & _ & Hu & _) H IH];
      [reflexivity|]. cbn [map]. rewrite Hu, IH. reflexivity. }
  split; [exact E1|]. split; [exact E3|].
  destruct (createArrangement options) as [[|]|]; try exact Ha;
    destruct Ha as (a & A1 & A2 & A3 & A4); exists a;
    rewrite A4; repeat split; assumption.
Qed.
End Layout.

(** ** Grouping a created presentation *)

Lemma identified_key c :
  identified c -> exists u, cue_uuid c = Some u /\ cue_key c = Some (uuid_string u).
Proof.
  intros (u & Hu & Hne). exists u. split; [exact Hu|].
  unfold cue_key. rewrite Hu.
  destruct (uuid_string u); [destruct (Hne eq_refl)|reflexivity].
Qed.

(** With distinct identifiers, an identifier resolves to its own cue. *)
Lemma build_cueMap_own l c k :
  NoDup (map cue_key l) -> c ∈ l -> cue_key c = Some k ->
  build_cueMap l !! k = Some c.
Proof.
  intros Hnd Hc Hk. apply list_elem_of_split in Hc as (pre & post & ->).
  apply build_cueMap_last; [exact Hk|].
  rewrite map_app in Hnd. apply NoDup_app in Hnd as (_ & _ & Hnd).
  cbn [map] in Hnd. apply NoDup_cons in Hnd as [Hnd _].
  apply Forall_forall. intros c' Hc' E. apply Hnd. rewrite Hk, <- E.
  apply list_elem_of_fmap. exists c'. split; [reflexivity|exact Hc'].
Qed.

Lemma resolve_ids_own l cs : forall ids,
  NoDup (map cue_key l) -> Forall identified cs ->
  (forall c, c ∈ cs -> c ∈ l) ->
  map Some ids = map cue_uuid cs ->
  resolve_ids (build_cueMap l) ids = cs.
Proof.
  intros ids Hnd Hid. revert ids.
  induction Hid as [|c cs Hc Hcs IH]; intros [|id ids] Hin E;
    try discriminate E; [reflexivity|].
  cbn [map] in E. injection E as E1 E2.
  destruct (identified_key c Hc) as (u & Hu & Hk).
  rewrite Hu in E1. injection E1 as ->.
  unfold resolve_ids. cbn [omap list_omap].
  rewrite (build_cueMap_own l c _ Hnd (Hin c ltac:(left)) Hk).
  f_equal. apply IH; [|exact E2].
  intros c' Hc'. apply Hin. right. exact Hc'.
Qed.

Lemma layout_group_names secs built :
  Forall2 section_layout secs built ->
  map groupName (map (fun b => b.1.2) built) = map section_key secs.
Proof.
  induction 1 as [|s b secs built (_ & _ & Hn & _) H IH]; [reflexivity|].
  cbn [map]. rewrite IH. f_equal. unfold groupName, section_key.
  destruct (group b.1.2) as [gr|]; [|discriminate Hn].
  cbn in Hn. rewrite Hn. reflexivity.
Qed.

Lemma layout_entries l secs built :
  NoDup (map cue_key l) ->
  (forall c, c ∈ concat (map (fun b => b.1.1) built) -> c ∈ l) ->
  Forall2 section_layout secs built ->
  map (group_entry (build_cueMap l)) (map (fun b => b.1.2) built)
  = zip (map section_key secs) (map (fun b => b.1.1) built).
Proof.
  intros Hnd Hin H.
  induction H as [|s b secs built ((_ & Hid & Hids) & _ & Hn & _) H IH];
    [reflexivity|].
  cbn [map zip zip_with]. rewrite IH.
  2:{ intros c Hc. apply Hin. cbn [map concat]. apply elem_of_app. right. exact Hc. }
  f_equal. unfold group_entry. f_equal.
  - unfold groupName, section_key.
    destruct (group b.1.2) as [gr|]; [|discriminate Hn].
    cbn in Hn. rewrite Hn. reflexivity.
  - destruct (cueIdentifiers b.1.2) as [ids|]; [|discriminate Hids].
    cbn in Hids. injection Hids as Hids.
    cbn [or_empty default from_option Datatypes.id].
    apply resolve_ids_own; try assumption.
    intros c Hc. apply Hin. cbn [map concat]. apply elem_of_app. left. exact Hc.
Qed.

Lemma zip_fst_snd {A B} (l : list A) (k : list B) :
  length l = length k -> map fst (zip l k) = l /\ map snd (zip l k) = k.
Proof.
  revert k. induction l as [|a l IH]; intros [|b k] H; try discriminate H;
    [split; reflexivity|].
  injection H as H. destruct (IH k H) as [H1 H2].
  cbn [zip zip_with map fst snd]. rewrite H1, H2. split; reflexivity.
Qed.

Section Grouped.
Variable random : nat -> N.

(** X15: [getCuesByGroup] after [createPresentation].  When the sections
    have distinct names and the identifiers drawn for the cues are
    distinct, the result has one entry for each section, in order and under
    the section's name, and the entries hold, in order, all the cues of the
    presentation: as many in each entry as the section has slides. *)
Theorem getCuesByGroup_created options n :
  let p := (createPresentation random options n).1 in
  NoDup (map section_key (sections options)) ->
  NoDup (map cue_key (getCues p)) ->
  map fst (getCuesByGroup p) = map section_key (sections options)
  /\ concat (map snd (getCuesByGroup p)) = getCues p
  /\ Forall2 (fun section cs => length cs = length (slides section))
       (sections options) (map snd (getCuesByGroup p)).
Proof.
  intros p. subst p. unfold getCues.
  destruct (createPresentation_layout random options n)
    as (built & H & Hc & Hg & _).
  intros Hnames Hkeys. rewrite getCuesByGroup_fold, Hc, Hg in *.
  cbn [or_empty default from_option Datatypes.id] in *.
  rewrite (add_groups_distinct _ _ []).
  2:{ cbn [map app]. rewrite (layout_group_names _ _ H). exact Hnames. }
  cbn [app]. rewrite (layout_entries _ _ _ Hkeys (fun c Hc => Hc) H).
  destruct (zip_fst_snd (map section_key (sections options))
              (map (fun b => b.1.1) built)) as [E1 E2].
  { rewrite !length_map. apply (Forall2_length _ _ _ H). }
  rewrite E1, E2. repeat split.
  clear -H. induction H as [|s b secs built ((Hl & _) & _) H IH];
    constructor; assumption.
Qed.
End Grouped.

Lemma getCuesByGroup_created_witness :
  map fst (getCuesByGroup
             (createPresentation (fun n => N.of_nat n) Sample.options O).1)
  = [js "Verse 1"; js "Chorus"].
Proof.
  refine (proj1 (getCuesByGroup_created (fun n => N.of_nat n) Sample.options O
                   _ _)).
  - refine (bool_decide_unpack _ _). vm_compute. reflexivity.
  - refine (bool_decide_unpack _ _). vm_compute. reflexivity.
Defined.

(** ** Chords *)

Lemma insert_chord_perm c l : Permutation (insert_chord c l) (c :: l).
Proof.
  induction l as [|d l IH]; cbn [insert_chord]; [reflexivity|].
  destruct (position c <=? position d)%Z; [reflexivity|].
  rewrite IH. apply perm_swap.
Qed.

Lemma sort_chords_perm l : Permutation (sort_chords l) l.
Proof.
  induction l as [|c l IH]; [reflexivity|].
  cbn [sort_chords foldr]. rewrite insert_chord_perm. constructor. exact IH.
Qed.

Lemma insert_chord_sorted c l :
  Sorted (fun a b => (position a <= position b)%Z) l ->
  Sorted (fun a b => (position a <= position b)%Z) (insert_chord c l).
Proof.
  induction 1 as [|d l Hl IH Hd]; cbn [insert_chord].
  - repeat constructor.
  - destruct (position c <=? position d)%Z eqn:E.
    + apply Z.leb_le in E. repeat constructor; assumption.
    + apply Z.leb_gt in E. constructor; [exact IH|].
      destruct Hd as [|e l' He]; cbn [insert_chord].
      * constructor. lia.
      * destruct (position c <=? position e)%Z; constructor; [lia|exact He].
Qed.

Lemma sort_chords_sorted l :
  Sorted (fun a b => (position a <= position b)%Z) (sort_chords l).
Proof.
  induction l as [|c l IH]; [constructor|].
  cbn [sort_chords foldr]. apply insert_chord_sorted, IH.
Qed.

Lemma chord_attributes_zip len l :
  chord_attributes len l = zip_with chord_attribute l (range_ends len l).
Proof.
  induction l as [|c l IH]; [reflexivity|].
  cbn [chord_attributes]. rewrite IH.
  destruct l as [|d l]; reflexivity.
Qed.

Lemma sorted_range_ends len l :
  Sorted (fun a b => (position a <= position b)%Z) l ->
  Forall (fun c => (position c <= len)%Z) l ->
  Forall2 (fun c e => (position c <= e)%Z) l (range_ends len l).
Proof.
  induction 1 as [|c l Hl IH Hc]; intros Hlen; [constructor|].
  apply Forall_cons in Hlen as [Hc' Hlen]. cbn [range_ends].
  destruct Hc as [|d l' Hd].
  - repeat constructor. exact Hc'.
  - cbn [map app]. constructor; [exact Hd|]. apply IH, Hlen.
Qed.

(** X16: the chord attributes [createTextElement] writes.  The chords are
    taken in the order of their positions; there is one attribute for each
    chord; its range starts at the chord and ends where the next chord
    starts, the last one at the end of the text.  When no chord is placed
    beyond the end of the text, no range ends before it starts. *)
Theorem customAttributes_ranges (text_ : jsstring) (c : ChordPosition)
    (l : list ChordPosition) :
  let sorted := sort_chords (c :: l) in
  let len := Z.of_nat (length text_) in
  customAttributes text_ (Some (c :: l))
  = zip_with chord_attribute sorted (range_ends len sorted)
  /\ Permutation sorted (c :: l)
  /\ Sorted (fun a b => (position a <= position b)%Z) sorted
  /\ length (customAttributes text_ (Some (c :: l))) = S (length l)
  /\ (Forall (fun c' => (position c' <= len)%Z) (c :: l) ->
      Forall2 (fun c' e => (position c' <= e)%Z) sorted (range_ends len sorted)).
Proof.
  intros sorted len.
  assert (E : customAttributes text_ (Some (c :: l))
              = zip_with chord_attribute sorted (range_ends len sorted)).
  { unfold customAttributes. apply chord_attributes_zip. }
  pose proof (sort_chords_perm (c :: l)) as P.
  pose proof (sort_chords_sorted (c :: l)) as S.
  fold sorted in P, S. clearbody sorted.
  repeat split; try assumption.
  - rewrite E, length_zip_with. pose proof (Permutation_length P) as L.
    destruct sorted as [|d sorted']; [discriminate L|].
    cbn [range_ends]. rewrite length_app, length_map.
    cbn [length] in *. lia.
  - intros H. apply sorted_range_ends; [exact S|].
    rewrite P. exact H.
Qed.

Lemma customAttributes_ranges_witness :
  let chords := [mkChord 5 (js "G"); mkChord 0 (js "C")] in
  Forall2 (fun c e => (position c <= e)%Z) (sort_chords chords)
    (range_ends 10 (sort_chords chords)).
Proof.
  intros chords.
  destruct (customAttributes_ranges (js "Holy, holy") (mkChord 5 (js "G"))
              [mkChord 0 (js "C")]) as (_ & _ & _ & _ & H).
  apply H. repeat (constructor; [vm_compute; discriminate|]). constructor.
Defined.

(** *** Line starts *)

Lemma split_lines_cases s :
  (split_lines s = [s] /\ Forall (fun c => c <> Ch.newline) s)
  \/ exists l s',
       s = l ++ Ch.newline :: s' /\ Forall (fun c => c <> Ch.newline) l
       /\ split_lines s = l :: split_lines s'.
Proof.
  induction s as [|c s IH]; [left; split; [reflexivity|constructor]|].
  cbn [split_lines]. destruct (c =? Ch.newline) eqn:E.
  - apply N.eqb_eq in E. subst c. right. exists [], s.
    repeat split. constructor.
  - apply N.eqb_neq in E.
    destruct IH as [[H1 H2]|(l & s' & -> & H1 & H2)].
    + left. rewrite H1. split; [reflexivity|constructor; assumption].
    + right. exists (c :: l), s'. rewrite H2.
      repeat split. constructor; assumption.
Qed.

(** A chord of the loop sits at the start of a line of the text: at
    offset [pos] or right after a line feed further on. *)
Lemma line_chords_starts n : forall s pre chords,
  (length s <= n)%nat ->
  Forall (fun c =>
            (Z.of_nat (length pre) <= position c
             <= Z.of_nat (length (pre ++ s)))%Z
            /\ (position c = Z.of_nat (length pre)
                \/ (pre ++ s) !! Z.to_nat (position c - 1) = Some Ch.newline)
            /\ chord c <> [])
    (line_chords (Z.of_nat (length pre)) (split_lines s) chords)
  /\ Sorted (fun a b => (position a < position b)%Z)
       (line_chords (Z.of_nat (length pre)) (split_lines s) chords)
  /\ Forall (fun c => (Z.of_nat (length pre) <= position c)%Z)
       (line_chords (Z.of_nat (length pre)) (split_lines s) chords).
Proof.
  induction n as [|n IH]; intros s pre chords Hn.
  { destruct s; [|simpl in Hn; lia]. cbn [split_lines line_chords].
    destruct chords as [|[|x c] chords]; cbn [app line_chords];
      repeat split; repeat constructor; try (cbn; rewrite ?length_app; lia).
    discriminate. }
  destruct (split_lines_cases s) as [[E Hs]|(l & s' & -> & Hl & E)]; rewrite E.
  - destruct chords as [|[|x c] chords]; cbn [app line_chords];
      repeat split; repeat constructor; try (cbn; rewrite ?length_app; lia).
    discriminate.
  - destruct chords as [|c chords]; [repeat split; constructor|].
    cbn [line_chords].
    replace (Z.of_nat (length pre) + Z.of_nat (length l) + 1)%Z
      with (Z.of_nat (length (pre ++ l ++ [Ch.newline])))
      by (rewrite !length_app; cbn [length]; lia).
    destruct (IH s' (pre ++ l ++ [Ch.newline]) chords) as (H1 & H2 & H3).
    { rewrite length_app in Hn. cbn [length] in Hn. lia. }
    replace ((pre ++ l ++ [Ch.newline]) ++ s') with (pre ++ l ++ Ch.newline :: s')
      in H1 by (rewrite <- !app_assoc; reflexivity).
    assert (H1' : Forall (fun c0 =>
              (Z.of_nat (length pre) <= position c0
               <= Z.of_nat (length (pre ++ l ++ Ch.newline :: s')))%Z
              /\ (position c0 = Z.of_nat (length pre)
                  \/ (pre ++ l ++ Ch.newline :: s') !! Z.to_nat (position c0 - 1)
                     = Some Ch.newline)
              /\ chord c0 <> [])
             (line_chords (Z.of_nat (length (pre ++ l ++ [Ch.newline])))
                (split_lines s') chords)).
    { rewrite Forall_forall in H1, H3. apply Forall_forall. intros c0 Hc0.
      destruct (H1 c0 Hc0) as ((Ha & Hb) & Hc & Hd). specialize (H3 c0 Hc0).
      rewrite !length_app in *. cbn [length] in *.
      repeat split; [lia|lia| |exact Hd].
      right. destruct Hc as [Hc|Hc]; [|exact Hc].
      rewrite Hc.
      replace (Z.to_nat (Z.of_nat (length pre + (length l + 1)) - 1))
        with (length pre + length l)%nat by lia.
      rewrite lookup_app_r by lia.
      rewrite lookup_app_r by lia.
      replace (length pre + length l - length pre - length l)%nat with O by lia.
      reflexivity. }
    assert (H3' : Forall (fun c0 => (Z.of_nat (length pre) < position c0)%Z)
             (line_chords (Z.of_nat (length (pre ++ l ++ [Ch.newline])))
                (split_lines s') chords)).
    { eapply Forall_impl; [exact H3|]. intros c0 Hc0.
      rewrite !length_app in Hc0. cbn [length] in Hc0. lia. }
    destruct c as [|x c]; cbn [app].
    + repeat split; [exact H1'|exact H2|].
      eapply Forall_impl; [exact H3'|]. intros; cbn beta in *; lia.
    + repeat split.
      * constructor; [|exact H1'].
        cbn [position chord]. rewrite !length_app. cbn [length].
        repeat split; [lia|lia|left; reflexivity|discriminate].
      * constructor; [exact H2|].
        destruct H3' as [|c0 l0 Hc0 _]; constructor. exact Hc0.
      * constructor; [cbn; lia|].
        eapply Forall_impl; [exact H3'|]. intros; cbn beta in *; lia.
Qed.

Lemma insert_chord_first c l :
  Forall (fun d => (position c < position d)%Z) l -> insert_chord c l = c :: l.
Proof.
  intros [|d l' Hd _]; [reflexivity|]. cbn [insert_chord].
  destruct (position c <=? position d)%Z eqn:E; [reflexivity|].
  apply Z.leb_gt in E. lia.
Qed.

Lemma sort_chords_increasing l :
  Sorted (fun a b => (position a < position b)%Z) l -> sort_chords l = l.
Proof.
  intros H. apply Sorted_StronglySorted in H.
  2:{ intros a b c Hab Hbc. lia. }
  induction H as [|c l Hl IH Hc]; [reflexivity|].
  cbn [sort_chords foldr]. fold (sort_chords l). rewrite IH.
  apply insert_chord_first, Hc.
Qed.

(** X17: the chords [addLineChords] returns.  Each has a name that is not
    empty and sits at the start of a line of the text: at offset 0 or
    right after a line feed, and never beyond the end of the text.  Their
    positions increase strictly, so [createTextElement] keeps their order,
    and none of the ranges it writes for them ends before it starts. *)
Theorem addLineChords_line_starts (text_ : jsstring) (chords : list jsstring) :
  exists cs,
    addLineChords text_ chords = SlideObject text_ (Some cs)
    /\ Forall (fun c =>
                 (0 <= position c <= Z.of_nat (length text_))%Z
                 /\ (position c = 0%Z
                     \/ text_ !! Z.to_nat (position c - 1) = Some Ch.newline)
                 /\ chord c <> [])
         cs
    /\ Sorted (fun a b => (position a < position b)%Z) cs
    /\ sort_chords cs = cs
    /\ Forall2 (fun c e => (position c <= e)%Z) cs
         (range_ends (Z.of_nat (length text_)) cs).
Proof.
  exists (line_chords 0 (split_lines text_) chords).
  destruct (line_chords_starts (length text_) text_ [] chords (le_n _))
    as (H1 & H2 & _).
  cbn [app length] in H1, H2. change (Z.of_nat 0) with 0%Z in H1, H2.
  repeat split; try assumption.
  - apply sort_chords_increasing, H2.
  - apply sorted_range_ends.
    + clear -H2. induction H2 as [|c l Hl IH Hc]; constructor; [exact IH|].
      destruct Hc; constructor. lia.
    + eapply Forall_impl; [exact H1|]. intros c (H & _). cbn beta. lia.
Qed.

(** ** Bytes and strings *)

(** X18: [rtfToText] gives the same text for a string and for the bytes
    [Buffer.from] makes of it, when the string has no lone surrogate: what
    [setSlideText] stores is read back as what [textToRtf] wrote. *)
Theorem rtfToText_bytes_of_string (s : jsstring) :
  well_formed s = true ->
  rtfToText (RtfBytes (buffer_from s)) = rtfToText (RtfString s).
Proof.
  intros H. unfold rtfToText, rtf_source. rewrite (utf8_roundtrip s H).
  reflexivity.
Qed.

(** A text with a two-byte character and a surrogate pair (four bytes). *)
Lemma rtfToText_bytes_of_string_witness :
  let rtf := js "{\rtf1\ansi}Caf" ++ [233; 32; 55356; 57269] in
  rtfToText (RtfBytes (buffer_from rtf)) = rtfToText (RtfString rtf)
  /\ rtfToText (RtfString rtf) = js "Caf" ++ [233; 32; 55356; 57269]
  /\ length (buffer_from rtf) = 22%nat.
Proof.
  intros rtf. split; [|split; reflexivity].
  apply (rtfToText_bytes_of_string rtf). reflexivity.
Defined.

(** ** Music keys *)

(** X19: the table of key names in [createPresentation] covers the
    enumeration [MusicKey]: every key has a name, the name is not empty (so
    the fallback to the empty string is never taken), and two keys never
    share a name. *)
Theorem keyNames_cover (k : MusicKey.t) :
  (exists name, keyNames !! MusicKey.value k = Some name /\ name <> ""%string)
  /\ forall k', keyNames !! MusicKey.value k = keyNames !! MusicKey.value k' ->
                k = k'.
Proof.
  split.
  - destruct k; eexists; (split; [reflexivity|discriminate]).
  - intros k'. destruct k, k'; intros H; first [reflexivity|discriminate H].
Qed.
